(** * Schema delta engine ([edb/schema/delta.py]): a shallow embedding

    Commands are mutable Python objects that are shared between a parent's
    sub-command sets and the tokens of the command context, so they live in
    a store (the heap) and are referred to by their identity.  Methods
    become actions of a small state-and-exception monad over that store. *)

From stdpp Require Import base option list gmap strings sorting.
From Stdlib Require Import ZArith QArith Lia Lqa.
From Stdlib Require OrderedTypeEx.
Close Scope Q_scope.

Set Default Proof Using "Type".

(** ** Outcomes and the state monad *)

Inductive Exception :=
  | KeyError (what : string)
  | SchemaError (msg details : string)
  | InvalidReferenceError (name : string)
  | AssertionError (msg : string).

(** [Stuck] is not a Python outcome: it marks a run of the model that ran
    out of fuel or followed a reference that is not in the store. *)
Inductive outcome (A : Type) :=
  | Ok (a : A)
  | Raise (e : Exception)
  | Stuck.
Arguments Ok {A} a.
Arguments Raise {A} e.
Arguments Stuck {A}.

Global Instance outcome_fmap : FMap outcome :=
  λ A B f r,
    match r with
    | Ok a => Ok (f a)
    | Raise e => Raise e
    | Stuck => Stuck
    end.

Definition M (S A : Type) : Type := S → outcome A * S.

Definition ret {S A} (a : A) : M S A := λ s, (Ok a, s).
Definition raise {S A} (e : Exception) : M S A := λ s, (Raise e, s).
Definition stuck {S A} : M S A := λ s, (Stuck, s).
Definition bind {S A B} (m : M S A) (k : A → M S B) : M S B :=
  λ s, match m s with
       | (Ok a, s') => k a s'
       | (Raise e, s') => (Raise e, s')
       | (Stuck, s') => (Stuck, s')
       end.
Definition get_state {S} : M S S := λ s, (Ok s, s).
Definition put_state {S} (s : S) : M S unit := λ _, (Ok tt, s).
Definition modify {S} (f : S → S) : M S unit := λ s, (Ok tt, f s).

(** [try ... finally]: the clean-up runs on every exit path. *)
Definition finally {S A} (m : M S A) (cleanup : S → S) : M S A :=
  λ s, let '(r, s') := m s in (r, cleanup s').

Notation "'let!' x ':=' m 'in' k" := (bind m (λ x, k))
  (at level 10, x name, m at level 100, k at level 200).
Notation "m ';;' k" := (bind m (λ _, k))
  (at level 100, k at level 200, right associativity).

Fixpoint for_each {S A} (f : A → M S unit) (l : list A) : M S unit :=
  match l with
  | [] => ret tt
  | x :: l' => f x ;; for_each f l'
  end.

(** ** Command classes *)

Inductive CmdClass :=
  | Command_ | CommandGroup | DeltaRoot | ObjectCommand
  | CreateObject | AlterObject | DeleteObject
  | AlterObjectFragment | RenameObject | AlterObjectProperty
  (* declared in modules.py and types.py, used by DeltaRoot.apply *)
  | CreateModule | AlterModule | DeleteCollectionType.

Global Instance CmdClass_eq_dec : EqDecision CmdClass.
Proof. solve_decision. Defined.

(** Method resolution order restricted to the classes above. *)
Definition mro (c : CmdClass) : list CmdClass :=
  match c with
  | Command_ => [Command_]
  | CommandGroup => [CommandGroup; Command_]
  | DeltaRoot => [DeltaRoot; CommandGroup; Command_]
  | ObjectCommand => [ObjectCommand; Command_]
  | CreateObject => [CreateObject; ObjectCommand; Command_]
  | AlterObject => [AlterObject; ObjectCommand; Command_]
  | DeleteObject => [DeleteObject; ObjectCommand; Command_]
  | AlterObjectFragment => [AlterObjectFragment; ObjectCommand; Command_]
  | RenameObject =>
      [RenameObject; AlterObjectFragment; ObjectCommand; Command_]
  | AlterObjectProperty => [AlterObjectProperty; Command_]
  | CreateModule => [CreateModule; CreateObject; ObjectCommand; Command_]
  | AlterModule => [AlterModule; AlterObject; ObjectCommand; Command_]
  | DeleteCollectionType =>
      [DeleteCollectionType; DeleteObject; ObjectCommand; Command_]
  end.

Definition issubclass (c k : CmdClass) : bool := bool_decide (k ∈ mro c).

(** ** Commands in the store *)

(** The identity of a command object. *)
Abbreviation ref := nat (only parsing).
Abbreviation Name := string (only parsing).
(** Schema objects compare and hash by identity. *)
Abbreviation Object := nat (only parsing).

Inductive Value :=
  | VNone
  | VBool (b : bool)
  | VStr (s : string)
  | VObj (o : Object).

Global Instance Value_eq_dec : EqDecision Value.
Proof. solve_decision. Defined.

Record Command := mkCommand {
  cls : CmdClass;
  canonical : bool;
  ops : list ref;
  before_ops : list ref;
  _attrs : gmap string ref;
  (* ObjectCommand *)
  classname : Name;
  scls : option Object;
  (* CreateObject / DeleteObject / RenameObject *)
  if_not_exists : bool;
  if_unused : bool;
  new_name : Name;
  (* AlterObjectProperty *)
  property : string;
  old_value : Value;
  new_value : Value;
  source : option string;
}.

Definition isinstance (c : Command) (k : CmdClass) : bool :=
  issubclass (cls c) k.

Definition with_ops (f : list ref → list ref) (c : Command) : Command :=
  mkCommand (cls c) (canonical c) (f (ops c)) (before_ops c) (_attrs c)
    (classname c) (scls c) (if_not_exists c) (if_unused c) (new_name c)
    (property c) (old_value c) (new_value c) (source c).
Definition with_before_ops (f : list ref → list ref) (c : Command) : Command :=
  mkCommand (cls c) (canonical c) (ops c) (f (before_ops c)) (_attrs c)
    (classname c) (scls c) (if_not_exists c) (if_unused c) (new_name c)
    (property c) (old_value c) (new_value c) (source c).
Definition with_attrs (f : gmap string ref → gmap string ref) (c : Command)
    : Command :=
  mkCommand (cls c) (canonical c) (ops c) (before_ops c) (f (_attrs c))
    (classname c) (scls c) (if_not_exists c) (if_unused c) (new_name c)
    (property c) (old_value c) (new_value c) (source c).
Definition with_scls (o : option Object) (c : Command) : Command :=
  mkCommand (cls c) (canonical c) (ops c) (before_ops c) (_attrs c)
    (classname c) o (if_not_exists c) (if_unused c) (new_name c)
    (property c) (old_value c) (new_value c) (source c).
Definition with_canonical (b : bool) (c : Command) : Command :=
  mkCommand (cls c) b (ops c) (before_ops c) (_attrs c)
    (classname c) (scls c) (if_not_exists c) (if_unused c) (new_name c)
    (property c) (old_value c) (new_value c) (source c).
Definition with_values (old new : Value) (src : option string) (c : Command)
    : Command :=
  mkCommand (cls c) (canonical c) (ops c) (before_ops c) (_attrs c)
    (classname c) (scls c) (if_not_exists c) (if_unused c) (new_name c)
    (property c) old new src.

(** [Command()] of a given class: empty sub-command sets and table. *)
Definition new_command (k : CmdClass) : Command :=
  mkCommand k false [] [] ∅ "" None false false "" "" VNone VNone None.

Abbreviation Heap := (gmap ref Command).

Definition deref (r : ref) : M Heap Command :=
  λ h, match h !! r with
       | Some c => (Ok c, h)
       | None => (Stuck, h)
       end.

Definition update_cmd (r : ref) (f : Command → Command) : M Heap unit :=
  let! c := deref r in modify (<[r := f c]>).

(** ** [ordered.OrderedSet] of object identities *)

(** Modelled from the spec: [ordered.OrderedSet.add] and [discard] of
    edb/common/ordered.py, which is not among the sources.  The spec has
    [ops] and [before_ops] as ordered sets in which insertion order is
    significant: an element is in the set once, a new element goes to the
    end, discarding an absent element does nothing.  Commands are compared
    by identity. *)
Definition oset_add (x : ref) (l : list ref) : list ref :=
  if decide (x ∈ l) then l else l ++ [x].
Definition oset_discard (x : ref) (l : list ref) : list ref :=
  filter (λ y, y ≠ x) l.

(** ** The Command model: sub-commands and the attribute table *)

Definition get_subcommands (c : Command) : list ref := before_ops c ++ ops c.

Fixpoint add (fuel : nat) (self command : ref) : M Heap unit :=
  match fuel with
  | O => stuck
  | S fuel' =>
      let! c := deref command in
      if isinstance c CommandGroup then
        (* self.update(command.get_subcommands()) *)
        for_each (add fuel' self) (get_subcommands c)
      else
        (if isinstance c AlterObjectProperty
         then update_cmd self (with_attrs (<[property c := command]>))
         else ret tt);;
        update_cmd self (with_ops (oset_add command))
  end.

Definition update (fuel : nat) (self : ref) (commands : list ref)
    : M Heap unit :=
  for_each (add fuel self) commands.

Definition replace_all (fuel : nat) (self : ref) (commands : list ref)
    : M Heap unit :=
  update_cmd self (with_ops (λ _, []));;
  update_cmd self (with_attrs (λ _, ∅));;
  update fuel self commands.

Definition discard (self command : ref) : M Heap unit :=
  let! c := deref command in
  update_cmd self (with_ops (oset_discard command));;
  update_cmd self (with_before_ops (oset_discard command));;
  if isinstance c AlterObjectProperty then
    let! s := deref self in
    match _attrs s !! property c with
    | Some _ => update_cmd self (with_attrs (delete (property c)))
    | None => raise (KeyError (property c))
    end
  else ret tt.

(** A sequence of calls on one command; an exception raised by a call is
    caught by the caller, the store keeps what the call did before it. *)
Inductive Call :=
  | CallAdd (command : ref)
  | CallDiscard (command : ref)
  | CallReplaceAll (commands : list ref).

Definition call (fuel : nat) (self : ref) (k : Call) : M Heap unit :=
  match k with
  | CallAdd c => add fuel self c
  | CallDiscard c => discard self c
  | CallReplaceAll cs => replace_all fuel self cs
  end.

Fixpoint run_calls (fuel : nat) (self : ref) (ks : list Call) (h : Heap)
    : Heap :=
  match ks with
  | [] => h
  | k :: ks' => run_calls fuel self ks' (call fuel self k h).2
  end.

Definition is_setter (h : Heap) (c : ref) (p : string) : Prop :=
  ∃ cc, h !! c = Some cc ∧ isinstance cc AlterObjectProperty = true
        ∧ property cc = p.

(** Every table entry is a set-attribute command of [ops]. *)
Definition attrs_sound (h : Heap) (self : ref) : Prop :=
  ∀ s p c, h !! self = Some s → _attrs s !! p = Some c →
    c ∈ ops s ∧ is_setter h c p.

(** Every set-attribute command of [ops] is the table entry of its name. *)
Definition attrs_complete (h : Heap) (self : ref) : Prop :=
  ∀ s c p, h !! self = Some s → c ∈ ops s → is_setter h c p →
    _attrs s !! p = Some c.

Definition attrs_in_sync (h : Heap) (self : ref) : Prop :=
  attrs_sound h self ∧ attrs_complete h self.

(** The calls change the sub-command sets and the table of [self] only:
    no command changes class or attribute name. *)
Definition same_kinds (h h' : Heap) : Prop :=
  ∀ c p, is_setter h c p ↔ is_setter h' c p.

(** [alloc c]: a new command object, at an identity not yet in the store. *)
Definition alloc (c : Command) : M Heap ref :=
  λ h, let r := fresh (dom h) in (Ok r, <[r := c]> h).

Definition get_attribute_set_cmd (s : Command) (attr_name : string)
    : option ref :=
  _attrs s !! attr_name.

(** [set_attribute_value(attr_name, value, orig_value=..., inherited=...)];
    [VNone] is Python's [None].  The [source_context] keyword only feeds
    diagnostics and is left out. *)
Definition set_attribute_value (self : ref) (attr_name : string)
    (value orig_value : Value) (inherited : bool) : M Heap unit :=
  let! s := deref self in
  let orig_op := get_attribute_set_cmd s attr_name in
  let! op :=
    match orig_op with
    | None =>
        alloc (mkCommand AlterObjectProperty false [] [] ∅ "" None false
                 false "" attr_name VNone value None)
    | Some op =>
        update_cmd op (λ c, with_values (old_value c) value (source c) c);;
        ret op
    end in
  (if inherited
   then update_cmd op
          (λ c, with_values (old_value c) (new_value c) (Some "inheritance") c)
   else ret tt);;
  (if decide (orig_value = VNone) then ret tt
   else update_cmd op
          (λ c, with_values orig_value (new_value c) (source c) c));;
  match orig_op with
  | None => add 1 self op
  | Some _ => ret tt
  end.

(** ** The schema store and the other collaborators

    The immutable schema store, the object methods and the name helpers
    are outside delta.py; the engine uses them through this interface. *)

Class SchemaStore (Schema : Type) := {
  (** [schema.get(name, type=metaclass, default=None)] *)
  schema_get : Schema → Name → option Object;
  (** [schema.get_referrers(obj)], in the iteration order of the set *)
  get_referrers : Schema → Object → list Object;
  (** [schema.delete(obj)] *)
  schema_delete : Schema → Object → Schema;
  (** [ref.is_blocking_ref(schema, target)] *)
  is_blocking_ref : Schema → Object → Object → bool;
  (** [obj.get_verbosename(schema, with_parent=True)] *)
  get_verbosename : Schema → Object → string;
  get_displayname : Schema → Object → string;
  get_name : Schema → Object → Name;
  (** for every refdict of the object's class, in order, the objects of
      [obj.get_field_value(schema, refdict.attr)] *)
  owned_refs : Schema → Object → list Object;
  (** the name of an owned object once its first qualifier is replaced:
      [sn.Name(name=sn.get_specialized_name(shortname, *quals),
               module=ref_name.module)] with [quals[0] = new_name] *)
  requalified_name : Name → Name → Name;
  (** [scls.set_field_value(schema, 'name', new_name)] *)
  set_name : Schema → Object → Name → Schema;
  (** [obj.hash_criteria(schema)]: the structural fingerprint *)
  hash_criteria : Schema → Object → nat;
  (** [y.compare(x, our_schema=..., their_schema=...)]: the similarity,
      a float in the source, an exact rational here *)
  compare : Object → Object → Schema → Schema → Q;
  (** [obj.get_bases(schema).objects(schema)] *)
  get_bases : Schema → Object → list Object;
}.

(** [topological.sort(graph, allow_unresolved=True)] of
    edb/common/topological.py, on the graph as the list of its items with
    their [deps]. *)
Class Topological := {
  topological_sort : list (Object * list Object) → list Object;
}.

(** ** The command context *)

Record CommandContextToken (Schema : Type) := mkToken {
  original_schema : Schema;
  op : ref;
  (** [ObjectCommandContext.scls]; [None] for the dummy object *)
  token_scls : option Object;
}.
Arguments mkToken {Schema} _ _ _.
Arguments original_schema {Schema} _.
Arguments op {Schema} _.
Arguments token_scls {Schema} _.

Record CommandContext (Schema : Type) := mkContext {
  (** innermost token last, as [stack.append] leaves it *)
  stack : list (CommandContextToken Schema);
  _values : gmap (string * ref) Value;
  disable_dep_verification : bool;
  renames : gmap Name Name;
}.
Arguments mkContext {Schema} _ _ _ _.
Arguments stack {Schema} _.
Arguments _values {Schema} _.
Arguments disable_dep_verification {Schema} _.
Arguments renames {Schema} _.

Record State (Schema : Type) := mkState {
  heap : Heap;
  context : CommandContext Schema;
}.
Arguments mkState {Schema} _ _.
Arguments heap {Schema} _.
Arguments context {Schema} _.

(** Python's [l[:stop]]. *)
Definition slice_to {A} (l : list A) (stop : Z) : list A :=
  let n := Z.of_nat (length l) in
  let stop' := if (stop <? 0)%Z then Z.max 0 (stop + n) else Z.min stop n in
  take (Z.to_nat stop') l.

Section Context_.
Context {Schema : Type}.
Implicit Types (st : State Schema) (ctx : CommandContext Schema).

Definition with_stack (f : list (CommandContextToken Schema) →
                           list (CommandContextToken Schema))
    (st : State Schema) : State Schema :=
  mkState (heap st)
    (mkContext (f (stack (context st))) (_values (context st))
       (disable_dep_verification (context st)) (renames (context st))).

Definition with_values_store (f : gmap (string * ref) Value →
                                  gmap (string * ref) Value)
    (st : State Schema) : State Schema :=
  mkState (heap st)
    (mkContext (stack (context st)) (f (_values (context st)))
       (disable_dep_verification (context st)) (renames (context st))).

(** Run an action on the store of commands. *)
Definition on_heap {A} (m : M Heap A) : M (State Schema) A :=
  λ st, let '(r, h) := m (heap st) in (r, mkState h (context st)).

Definition op_isinstance (h : Heap) (r : ref) (k : CmdClass) : bool :=
  match h !! r with
  | Some c => isinstance c k
  | None => false
  end.

(** [any(ctx.op.canonical for ctx in self.stack)] *)
Definition context_canonical st : bool :=
  existsb (λ t, match heap st !! op t with
                | Some c => canonical c
                | None => false
                end) (stack (context st)).

Definition in_deletion st (offset : Z) : bool :=
  existsb (λ t, op_isinstance (heap st) (op t) DeleteObject)
    (slice_to (stack (context st)) (- offset)).

(** [ctx.op.scls is obj]: identity of schema objects. *)
Definition is_deleting st (obj : Object) : bool :=
  existsb (λ t, match heap st !! op t with
                | Some c => isinstance c DeleteObject
                            && bool_decide (scls c = Some obj)
                | None => false
                end) (stack (context st)).

Definition push (token : CommandContextToken Schema) : M (State Schema) unit :=
  modify (with_stack (λ s, s ++ [token])).

Definition pop_stack (s : list (CommandContextToken Schema))
    : list (CommandContextToken Schema) :=
  take (length s - 1) s.

(** [parent()]: [stack[-2]] when there are at least two tokens. *)
Definition parent st : option (CommandContextToken Schema) :=
  let s := stack (context st) in
  if decide (1 < length s) then s !! (length s - 2) else None.

Definition current : M (State Schema) (CommandContextToken Schema) :=
  λ st, match last (stack (context st)) with
        | Some t => (Ok t, st)
        | None => (Raise (KeyError "command context stack is empty"), st)
        end.

(** [with context(token): body]: the token is popped on every exit. *)
Definition with_context {A} (token : CommandContextToken Schema)
    (body : M (State Schema) A) : M (State Schema) A :=
  push token;; finally body (with_stack pop_stack).

Definition store_value (key : string * ref) (value : Value)
    : M (State Schema) unit :=
  modify (with_values_store (<[key := value]>)).

(** [get_value(key)]: [None] when the key was never stored. *)
Definition get_value st (key : string * ref) : Value :=
  default VNone (_values (context st) !! key).

Definition truthy (v : Value) : bool :=
  match v with
  | VNone => false
  | VBool b => b
  | VStr s => negb (String.eqb s "")
  | VObj _ => true
  end.

End Context_.

(** The parts of the command lifecycle that run code outside delta.py
    (the expression compiler, the dependency linearizer, name legality,
    the concrete classes' overrides), and the dynamic dispatch of
    [op.apply(schema, context)] on the class of a sub-command. *)
Class Externals (Schema : Type) := {
  apply_op : ref → Schema → M (State Schema) Schema;
  _validate_legal_command : ref → Schema → M (State Schema) unit;
  _create_begin : ref → Schema → M (State Schema) Schema;
  _delete_begin : ref → Schema → M (State Schema) Schema;
  (** returns the schema; the list of deferred syntax nodes is unused *)
  _propagate_if_expr_refs : ref → Schema → M (State Schema) Schema;
}.

(** A [qlast.CreateObject] node, as far as class selection reads it. *)
Record CreateObjectNode := mkCreateObjectNode {
  node_classname : Name;
  create_if_not_exists : bool;
  sdl_alter_if_exists : bool;
}.

Section Lifecycle.
Context {Schema : Type} `{!SchemaStore Schema} `{!Externals Schema}.
Implicit Types (st : State Schema) (schema : Schema) (self : ref).

Abbreviation Act := (M (State Schema)).

Definition deref' (r : ref) : Act Command := on_heap (deref r).

(** [for op in l: schema = op.apply(schema, context)] *)
Fixpoint apply_all (l : list ref) (schema : Schema) : Act Schema :=
  match l with
  | [] => ret schema
  | r :: l' => let! schema' := apply_op r schema in apply_all l' schema'
  end.

(** [get_subcommands(type=k)] *)
Definition get_subcommands_of (self : ref) (k : option CmdClass)
    : Act (list ref) :=
  λ st, match heap st !! self with
        | Some c =>
            (Ok (match k with
                 | None => get_subcommands c
                 | Some k =>
                     filter (λ r, op_isinstance (heap st) r k = true)
                       (get_subcommands c)
                 end), st)
        | None => (Stuck, st)
        end.

(** ** [CommandGroup.apply] and [DeltaRoot.apply] *)

Definition CommandGroup_apply (self : ref) (schema : Schema) : Act Schema :=
  let! subs := get_subcommands_of self None in
  apply_all subs schema.

(** The third loop of [DeltaRoot.apply]: the class test is made while
    iterating. *)
Fixpoint apply_others (l : list ref) (schema : Schema) : Act Schema :=
  match l with
  | [] => ret schema
  | r :: l' =>
      let! st := get_state in
      if op_isinstance (heap st) r CreateModule
         || op_isinstance (heap st) r AlterModule
         || op_isinstance (heap st) r DeleteCollectionType
      then apply_others l' schema
      else let! schema' := apply_op r schema in apply_others l' schema'
  end.

(** [mods] is only appended to and never read; it is left out. *)
Definition DeltaRoot_apply (self : ref) (schema : Schema) : Act Schema :=
  with_context (mkToken schema self None)
    (let! cmops := get_subcommands_of self (Some CreateModule) in
     let! schema := apply_all cmops schema in
     let! amops := get_subcommands_of self (Some AlterModule) in
     let! schema := apply_all amops schema in
     let! objops := get_subcommands_of self None in
     let! schema := apply_others objops schema in
     let! cops := get_subcommands_of self (Some DeleteCollectionType) in
     apply_all cops schema).

(** ** [ObjectCommand.get_object] *)

Definition resolved_name st (c : Command) : Name :=
  default (classname c) (renames (context st) !! classname c).

(** [get_object(schema, context, default=None)] *)
Definition get_object_default_none (self : ref) (schema : Schema)
    : Act (option Object) :=
  let! c := deref' self in
  let! st := get_state in
  ret (schema_get schema (resolved_name st c)).

(** [get_object(schema, context)]: a missing object is an error. *)
Definition get_object (self : ref) (schema : Schema) : Act Object :=
  let! c := deref' self in
  let! st := get_state in
  match schema_get schema (resolved_name st c) with
  | Some o => ret o
  | None => raise (InvalidReferenceError (resolved_name st c))
  end.

Definition set_scls (self : ref) (o : Object) : Act unit :=
  on_heap (update_cmd self (with_scls (Some o))).

(** [new_context(schema, context, scls)] as a [with] block. *)
Definition new_context {A} (self : ref) (schema : Schema)
    (scls : option Object) (body : Act A) : Act A :=
  with_context (mkToken schema self scls) body.

(** [parent_ctx.op.discard(self)] when there is a parent token. *)
Definition discard_from_parent (self : ref) : Act unit :=
  let! st := get_state in
  match parent st with
  | Some parent_ctx => on_heap (discard (op parent_ctx) self)
  | None => ret tt
  end.

(** ** [CreateObject] *)

Definition _create_innards (self : ref) (schema : Schema) : Act Schema :=
  let! c := deref' self in
  apply_all (ops c) schema.

Definition _create_finalize (self : ref) (schema : Schema) : Act Schema :=
  ret schema.

Definition set_current_scls (o : option Object) : Act unit :=
  let! _ := current in
  modify (with_stack (λ s,
    match last s with
    | Some t => take (length s - 1) s ++ [mkToken (original_schema t) (op t) o]
    | None => s
    end)).

Definition CreateObject_apply (self : ref) (schema : Schema) : Act Schema :=
  new_context self schema None
    (let! c := deref' self in
     let! found :=
       (if if_not_exists c then get_object_default_none self schema
        else ret None) in
     match found with
     | Some scls =>
         let! st := get_state in
         (match parent st with
          | Some parent_ctx =>
              if negb (canonical c)
              then on_heap (discard (op parent_ctx) self)
              else ret tt
          | None => ret tt
          end);;
         set_scls self scls;;
         ret schema
     | None =>
         let! schema := _create_begin self schema in
         let! c := deref' self in
         set_current_scls (scls c);;
         let! schema := _create_innards self schema in
         _create_finalize self schema
     end).

(** [CreateObject.command_for_ast_node]: [AlterObject] stands for the
    Alter class registered for the schema metaclass of [cls], and
    [node_classname] for the name [_classname_from_ast] resolves under the
    probe token. *)
Definition command_for_ast_node (cls : CmdClass) (astnode : CreateObjectNode)
    (schema : Schema) : Act CmdClass :=
  if sdl_alter_if_exists astnode then
    let! dummy_op :=
      on_heap (alloc (mkCommand cls false [] [] ∅ "placeholder::placeholder"
                        None false false "" "" VNone VNone None)) in
    let! classname :=
      with_context (mkToken schema dummy_op None)
        (ret (node_classname astnode)) in
    match schema_get schema classname with
    | Some _ => ret AlterObject
    | None => ret cls
    end
  else ret cls.

(** ** [DeleteObject] *)

Definition _delete_innards (self : ref) (schema : Schema) : Act Schema :=
  let! subs := get_subcommands_of self (Some ObjectCommand) in
  apply_all subs schema.

Definition blocking_refs st (orig_schema schema : Schema) (scls : Object)
    : list Object :=
  filter (λ ref_, negb (is_deleting st ref_)
                  && is_blocking_ref orig_schema ref_ scls = true)
    (get_referrers schema scls).

Definition dependency_error (orig_schema : Schema) (scls : Object)
    (ref_strs : list string) : Exception :=
  let vn := get_verbosename orig_schema scls in
  let dn := get_displayname orig_schema scls in
  SchemaError
    (String.append "cannot drop "
       (String.append vn
          " because other objects in the schema depend on it"))
    (String.concat "; "
       (map (λ ref_str,
               String.append ref_str (String.append " depends on " dn))
          ref_strs)).

Definition self_scls (self : ref) : Act Object :=
  let! c := deref' self in
  match scls c with
  | Some o => ret o
  | None => stuck
  end.

Definition _delete_finalize (self : ref) (schema : Schema) : Act Schema :=
  let! scls := self_scls self in
  let! st := get_state in
  (if negb (context_canonical st)
      && negb (disable_dep_verification (context st))
   then
     let! ctx := current in
     let orig_schema := original_schema ctx in
     let ref_strs :=
       map (get_verbosename orig_schema)
         (blocking_refs st orig_schema schema scls) in
     match ref_strs with
     | [] => ret tt
     | _ :: _ => raise (dependency_error orig_schema scls ref_strs)
     end
   else ret tt);;
  ret (schema_delete schema scls).

Definition DeleteObject_apply (self : ref) (schema : Schema) : Act Schema :=
  let! scls := get_object self schema in
  set_scls self scls;;
  new_context self schema (Some scls)
    (let! c := deref' self in
     if negb (canonical c) && if_unused c
        && negb (bool_decide (get_referrers schema scls = []))
     then discard_from_parent self;; ret schema
     else
       let! schema := _delete_begin self schema in
       let! schema := _delete_innards self schema in
       _delete_finalize self schema).

End Lifecycle.

(** ** [RenameObject] *)

Section Rename.
Context {Schema : Type} `{!SchemaStore Schema} `{!Externals Schema}.
Implicit Types (st : State Schema) (schema : Schema) (self : ref).

(** [ref.init_delta_command(schema, cmdtype, **kwargs)]: a new command of
    the given kind for the object's name. *)
Definition init_delta_command (k : CmdClass) (name new_name : Name)
    : Command :=
  mkCommand k false [] [] ∅ name None false false new_name "" VNone VNone
    None.

(** [for x in l: out.append(f(x))] *)
Fixpoint collect {A B} (f : A → M (State Schema) B) (l : list A)
    : M (State Schema) (list B) :=
  match l with
  | [] => ret []
  | x :: l' => let! y := f x in let! ys := collect f l' in ret (y :: ys)
  end.

(** [RenameObject._canonicalize]: the fuel bounds the depth of ownership
    the cascade descends into. *)
Fixpoint RenameObject_canonicalize (fuel : nat) (self : ref)
    (schema : Schema) (scls : Object) : M (State Schema) (list ref) :=
  match fuel with
  | O => stuck
  | S fuel' =>
      let! commands :=
        collect (λ ref_,
          let! c := deref' self in
          let ref_name := get_name schema ref_ in
          let! alter :=
            on_heap (alloc (init_delta_command AlterObject ref_name "")) in
          let new_ref_name := requalified_name (new_name c) ref_name in
          let! rename :=
            on_heap (alloc (init_delta_command RenameObject ref_name
                              new_ref_name)) in
          on_heap (set_attribute_value rename "name" (VStr new_ref_name)
                     (VStr ref_name) false);;
          new_context alter schema (Some ref_)
            (let! sub := RenameObject_canonicalize fuel' rename schema ref_ in
             on_heap (update 1 rename sub));;
          on_heap (update_cmd alter (with_canonical true));;
          on_heap (add 1 alter rename);;
          ret alter) (owned_refs schema scls) in
      (* guard against possible duplicate calls *)
      store_value ("renamecanon", self) (VBool true);;
      ret commands
  end.

(** The block of [_rename_begin] under [if not context.canonical]. *)
Definition rename_cascade (fuel : nat) (self : ref) (schema : Schema)
    : M (State Schema) unit :=
  let! st := get_state in
  if context_canonical st then ret tt
  else
    let! c := deref' self in
    on_heap (set_attribute_value self "name" (VStr (new_name c))
               (VStr (classname c)) false);;
    let! st := get_state in
    if truthy (get_value st ("renamecanon", self)) then ret tt
    else
      let! scls := self_scls self in
      let! commands := RenameObject_canonicalize fuel self schema scls in
      on_heap (update 1 self commands).

(** [self.old_name = self.classname] only feeds deparsing and is left
    out. *)
Definition _rename_begin (fuel : nat) (self : ref) (schema : Schema)
    : M (State Schema) Schema :=
  _validate_legal_command self schema;;
  let! scls := self_scls self in
  let! schema := _propagate_if_expr_refs self schema in
  rename_cascade fuel self schema;;
  let! c := deref' self in
  let! schema := apply_all (before_ops c) schema in
  ret (set_name schema scls (new_name c)).

End Rename.

(** ** The object diffing engine: [delta_objects] *)

(** A schema class, as far as the diff reads it: its identity and whether
    it is a subclass of [so.InheritingObject]. *)
Record SchemaClass := mkSchemaClass {
  sclass_name : string;
  inheriting : bool;
}.

Global Instance SchemaClass_eq_dec : EqDecision SchemaClass.
Proof. solve_decision. Defined.

(** [context.guidance] *)
Record DeltaGuidance := mkDeltaGuidance {
  banned_creations : list (SchemaClass * Name);
  banned_deletions : list (SchemaClass * Name);
  banned_alters : list (SchemaClass * (Name * Name));
}.

(** The commands built by the objects' [as_create_delta],
    [as_alter_delta] and [as_delete_delta]: each call builds a new command
    object, which [DeltaRoot.add] appends. *)
Inductive DeltaCommand :=
  | CreateDelta (x : Object)
  | AlterDelta (y x : Object)
  | DeleteDelta (y : Object).

Global Instance DeltaCommand_eq_dec : EqDecision DeltaCommand.
Proof. solve_decision. Defined.

(** [list.sort] and [sorted] are stable; the keys are compared with [<]
    only. *)
Fixpoint insert_sorted {A} (lt : A → A → bool) (x : A) (l : list A)
    : list A :=
  match l with
  | [] => [x]
  | y :: l' => if lt y x then y :: insert_sorted lt x l' else x :: y :: l'
  end.

Definition stable_sort {A} (lt : A → A → bool) (l : list A) : list A :=
  foldr (insert_sorted lt) [] l.

Definition Qlt_bool (a b : Q) : bool := negb (Qle_bool b a).

(** [<] on the keys [(1.0 - similarity, new-name, old-name)] *)
Definition key_lt (k1 k2 : Q * Name * Name) : bool :=
  let '(a1, n1, m1) := k1 in
  let '(a2, n2, m2) := k2 in
  if Qeq_bool a1 a2 then
    if String.eqb n1 n2 then String.ltb m1 m2 else String.ltb n1 n2
  else Qlt_bool a1 a2.

(** [False < True] *)
Definition bool_lt (a b : bool) : bool := negb a && b.

(** [ordered.OrderedSet(iterable)] *)
Definition OrderedSet (l : list Object) : list Object :=
  foldl (λ acc x, oset_add x acc) [] l.

Abbreviation Triple := (Object * Object * Q)%type (only parsing).

(** The greedy claim of matched pairs, as the insertion-ordered
    [comparison_map]. *)
Fixpoint greedy_match (full_matrix : list Triple) (seen_x seen_y : list Object)
    : list (Object * (Q * Object)) :=
  match full_matrix with
  | [] => []
  | (x, y, similarity) :: rest =>
      if decide ((x ∉ seen_x) ∧ (y ∉ seen_y))
      then (x, (similarity, y)) :: greedy_match rest (x :: seen_x) (y :: seen_y)
      else greedy_match rest seen_x seen_y
  end.

(** [comparison_map[x]] *)
Fixpoint map_lookup (comparison_map : list (Object * (Q * Object)))
    (x : Object) : option (Q * Object) :=
  match comparison_map with
  | [] => None
  | (k, v) :: rest => if decide (k = x) then Some v else map_lookup rest x
  end.

Section DeltaObjects.
Context {Schema : Type} `{!SchemaStore Schema} `{!Topological}.

Definition _sort_by_inheritance (schema : Schema) (objs : list Object)
    : list Object :=
  topological_sort (map (λ x, (x, get_bases schema x)) objs).

Definition changed_objects (old new : list Object)
    (old_schema new_schema : Schema) : list Object * list Object :=
  let oldkeys := map (hash_criteria old_schema) old in
  let newkeys := map (hash_criteria new_schema) new in
  let unchanged := filter (λ k, k ∈ newkeys) oldkeys in
  (OrderedSet (filter (λ o, hash_criteria old_schema o ∉ unchanged) old),
   OrderedSet (filter (λ o, hash_criteria new_schema o ∉ unchanged) new)).

Definition similarity_of (sclass : SchemaClass)
    (guidance : option DeltaGuidance) (old_schema new_schema : Schema)
    (x y : Object) : Q :=
  let x_name := get_name new_schema x in
  let y_name := get_name old_schema y in
  match guidance with
  | Some g =>
      if decide ((sclass, (y_name, x_name)) ∈ banned_alters g) then 0%Q
      else compare y x old_schema new_schema
  | None => compare y x old_schema new_schema
  end.

(** The sort key of [full_matrix.sort]; the subtraction [1.0 - v[2]] is
    exact on rationals. *)
Definition matrix_key (old_schema new_schema : Schema) (v : Triple)
    : Q * Name * Name :=
  ((1 - v.2)%Q, get_name new_schema v.1.1, get_name old_schema v.1.2).

(** [full_matrix] after [full_matrix.sort(...)] *)
Definition full_matrix (old new : list Object) (sclass : SchemaClass)
    (guidance : option DeltaGuidance) (old_schema new_schema : Schema)
    : list Triple :=
  let oldnames := map (get_name old_schema) old in
  let newnames := map (get_name new_schema) new in
  let common_names := filter (λ n, n ∈ newnames) oldnames in
  let pairs :=
    stable_sort
      (λ p q,
         bool_lt (bool_decide (get_name new_schema p.1 ∉ common_names))
                 (bool_decide (get_name new_schema q.1 ∉ common_names)))
      (x ← new; y ← old; [(x, y)]) in
  let matrix :=
    map (λ p, (p.1, p.2,
               similarity_of sclass guidance old_schema new_schema p.1 p.2))
      pairs in
  stable_sort
    (λ v w, key_lt (matrix_key old_schema new_schema v)
                   (matrix_key old_schema new_schema w))
    matrix.

Definition comparison_map (old new : list Object) (sclass : SchemaClass)
    (guidance : option DeltaGuidance) (old_schema new_schema : Schema)
    : list (Object * (Q * Object)) :=
  greedy_match (full_matrix old new sclass guidance old_schema new_schema)
    [] [].

(** The loop that fills [alters]; [comparison_map[x]] raises [KeyError]
    on a missing key. *)
Fixpoint alter_loop (cm : list (Object * (Q * Object))) (order_x : list Object)
    : outcome (list DeltaCommand) :=
  match order_x with
  | [] => Ok []
  | x :: rest =>
      match map_lookup cm x with
      | None => Raise (KeyError "comparison_map")
      | Some (s, y) =>
          match alter_loop cm rest with
          | Ok alters =>
              if Qlt_bool 0.6 s && Qlt_bool s 1
              then Ok (AlterDelta y x :: alters)
              else Ok alters
          | other => other
          end
      end
  end.

Definition not_banned (banned : option (list (SchemaClass * Name)))
    (sclass : SchemaClass) (name : Name) : bool :=
  match banned with
  | None => true
  | Some l => bool_decide ((sclass, name) ∉ l)
  end.

Definition matched_new (cm : list (Object * (Q * Object))) : list Object :=
  map fst (filter (λ e, Qlt_bool 0.6 e.2.1 = true) cm).

Definition matched_old (cm : list (Object * (Q * Object))) : list Object :=
  map (λ e, e.2.2) (filter (λ e, Qlt_bool 0.6 e.2.1 = true) cm).

(** [order_x] *)
Definition alter_order (sclass : SchemaClass) (new_schema : Schema)
    (cm : list (Object * (Q * Object))) : list Object :=
  match cm with
  | [] => []
  | _ :: _ =>
      if inheriting sclass
      then _sort_by_inheritance new_schema (map fst cm)
      else map fst cm
  end.

(** [created] and [deleted] *)
Definition created_objects (cm : list (Object * (Q * Object)))
    (new : list Object) : list Object :=
  filter (λ x, x ∉ matched_new cm) new.

Definition deleted_objects (cm : list (Object * (Q * Object)))
    (old : list Object) : list Object :=
  filter (λ y, y ∉ matched_old cm) old.

Definition deleted_order (sclass : SchemaClass) (old_schema : Schema)
    (deleted : list Object) : list Object :=
  if inheriting sclass then _sort_by_inheritance old_schema deleted
  else deleted.

Definition delta_objects (old new : list Object) (sclass : SchemaClass)
    (guidance : option DeltaGuidance) (old_schema new_schema : Schema)
    : outcome (list DeltaCommand) :=
  let '(old, new) := changed_objects old new old_schema new_schema in
  let cm := comparison_map old new sclass guidance old_schema new_schema in
  match alter_loop cm (alter_order sclass new_schema cm) with
  | Ok alters =>
      let creates :=
        map CreateDelta
          (filter (λ x, not_banned (banned_creations <$> guidance) sclass
                          (get_name new_schema x) = true)
             (created_objects cm new)) in
      let deletes :=
        map DeleteDelta
          (filter (λ y, not_banned (banned_deletions <$> guidance) sclass
                          (get_name old_schema y) = true)
             (deleted_order sclass old_schema (deleted_objects cm old))) in
      Ok (creates ++ alters ++ deletes)
  | other => other
  end.

End DeltaObjects.

(** ** A small concrete schema store

    An instance of the interfaces above on association lists, used to run
    the engine on concrete inputs. *)

Record ListSchema := mkListSchema {
  ls_names : list (Object * Name);
  (** (referrer, target, blocking) *)
  ls_refs : list (Object * Object * bool);
  ls_bases : list (Object * list Object);
  ls_owned : list (Object * list Object);
  ls_hashes : list (Object * nat);
  (** (old object, new object, similarity) *)
  ls_similarity : list (Object * Object * Q);
  (** the commands applied so far, oldest first *)
  ls_applied : list ref;
}.

Fixpoint assoc {A} (l : list (Object * A)) (o : Object) : option A :=
  match l with
  | [] => None
  | (k, v) :: rest => if decide (k = o) then Some v else assoc rest o
  end.

Definition ls_log (r : ref) (s : ListSchema) : ListSchema :=
  mkListSchema (ls_names s) (ls_refs s) (ls_bases s) (ls_owned s)
    (ls_hashes s) (ls_similarity s) (ls_applied s ++ [r]).

Definition ls_with_names (names : list (Object * Name)) (s : ListSchema)
    : ListSchema :=
  mkListSchema names (ls_refs s) (ls_bases s) (ls_owned s)
    (ls_hashes s) (ls_similarity s) (ls_applied s).

Global Instance ListSchema_store : SchemaStore ListSchema := {
  schema_get s n :=
    fst <$> head (filter (λ p, p.2 = n) (ls_names s));
  get_referrers s o :=
    map (λ p, p.1.1) (filter (λ p, p.1.2 = o) (ls_refs s));
  schema_delete s o :=
    ls_with_names (filter (λ p, p.1 ≠ o) (ls_names s)) s;
  is_blocking_ref s r o :=
    bool_decide ((r, o, true) ∈ ls_refs s);
  get_verbosename s o :=
    String.append "object '" (String.append (default "?" (assoc (ls_names s) o)) "'");
  get_displayname s o := default "?" (assoc (ls_names s) o);
  get_name s o := default "?" (assoc (ls_names s) o);
  owned_refs s o := default [] (assoc (ls_owned s) o);
  requalified_name new_name ref_name :=
    String.append ref_name (String.append "@" new_name);
  set_name s o n :=
    ls_with_names (map (λ p, if decide (p.1 = o) then (o, n) else p)
                     (ls_names s)) s;
  hash_criteria s o := default o (assoc (ls_hashes s) o);
  compare y x _ new_schema :=
    default 0%Q
      (snd <$> head (filter (λ p, p.1 = (y, x)) (ls_similarity new_schema)));
  get_bases s o := default [] (assoc (ls_bases s) o);
}.

(** Applying a sub-command records it in the schema. *)
Global Instance ListSchema_externals : Externals ListSchema := {
  apply_op r schema := ret (ls_log r schema);
  _validate_legal_command _ _ := ret tt;
  _create_begin _ schema := ret schema;
  _delete_begin _ schema := ret schema;
  _propagate_if_expr_refs _ schema := ret schema;
}.

(** Modelled from the spec: [topological.sort] of edb/common/topological.py,
    which is not among the sources.  The spec describes a topological sort
    over the inheritance graph that visits base classes before derived
    classes, tolerating unresolved edges and cycles: a depth-first
    post-order walk, where a dependency that is not an item of the graph,
    or that is already being visited, is skipped. *)
Fixpoint topo_visit (fuel : nat) (graph : list (Object * list Object))
    (visiting sorted : list Object) (item : Object) : list Object :=
  match fuel with
  | O => sorted
  | S fuel' =>
      if decide (item ∈ sorted ∨ item ∈ visiting) then sorted
      else
        match assoc graph item with
        | None => sorted
        | Some deps =>
            foldl (λ acc d, topo_visit fuel' graph (item :: visiting) acc d)
              sorted deps ++ [item]
        end
  end.

Definition dfs_topological_sort (graph : list (Object * list Object))
    : list Object :=
  foldl (λ acc e, topo_visit (S (length graph)) graph [] acc e.1) [] graph.

Global Instance dfs_topological : Topological := {
  topological_sort := dfs_topological_sort;
}.

(** ** Statement-level definitions *)





(** Every command of [h] is in [h'] as it was. *)
Definition unchanged_on (h h' : Heap) : Prop :=
  ∀ r c, h !! r = Some c → h' !! r = Some c.

(** The attribute [name] of [self] is set to the rename's new name, with
    the command's class name as the original value. *)
Definition name_recorded (h : Heap) (self : ref) : Prop :=
  ∃ c r0 o,
    h !! self = Some c ∧ _attrs c !! "name" = Some r0 ∧ h !! r0 = Some o
    ∧ new_value o = VStr (new_name c) ∧ old_value o = VStr (classname c).

(** Every token of the stack belongs to a command of the store. *)
Definition stack_valid {Schema} (st : State Schema) : Prop :=
  ∀ t, t ∈ stack (context st) → is_Some (heap st !! op t).

(** The state after a step of the rename cascade: the stack is as before,
    and so is every command that was in the store. *)
Definition cascade_frame {Schema} (st st' : State Schema) : Prop :=
  stack (context st') = stack (context st)
  ∧ unchanged_on (heap st) (heap st').

Definition is_alter (h : Heap) (x : ref) : Prop :=
  ∃ cx, h !! x = Some cx ∧ cls cx = AlterObject.

(** The objects of the Delete commands of a delta, in order. *)
Definition deletes_of (cmds : list DeltaCommand) : list Object :=
  omap (λ c, match c with DeleteDelta y => Some y | _ => None end) cmds.

(** The new-side objects of the Alter commands of a delta, in order. *)
Definition alters_of (cmds : list DeltaCommand) : list Object :=
  omap (λ c, match c with AlterDelta _ x => Some x | _ => None end) cmds.

(** The matched new objects whose similarity lies strictly between 0.6
    and 1.0. *)
Definition to_alter (cm : list (Object * (Q * Object))) (x : Object) : bool :=
  match map_lookup cm x with
  | Some (s, _) => Qlt_bool 0.6 s && Qlt_bool s 1
  | None => false
  end.

(** No object of the list comes after one that has it among its bases:
    bases first. *)
Fixpoint bases_first {Schema} `{!SchemaStore Schema} (schema : Schema)
    (l : list Object) : Prop :=
  match l with
  | [] => True
  | d :: l' =>
      Forall (λ b, b ∉ get_bases schema d) l' ∧ bases_first schema l'
  end.

(** No object of the list comes before one that has it among its bases:
    derived first. *)
Fixpoint derived_first {Schema} `{!SchemaStore Schema} (schema : Schema)
    (l : list Object) : Prop :=
  match l with
  | [] => True
  | b :: l' =>
      Forall (λ d, b ∉ get_bases schema d) l' ∧ derived_first schema l'
  end.

(** The order of the sorted similarity matrix: descending score, ties
    broken by ascending (new-name, old-name). *)
Definition str_lt (a b : string) : Prop := String.compare a b = Lt.
Definition str_le (a b : string) : Prop := str_lt a b ∨ a = b.

Definition triple_le {Schema} `{!SchemaStore Schema}
    (old_schema new_schema : Schema) (v w : Object * Object * Q) : Prop :=
  (w.2 < v.2)%Q
  ∨ ((v.2 == w.2)%Q
     ∧ (str_lt (get_name new_schema v.1.1) (get_name new_schema w.1.1)
        ∨ (get_name new_schema v.1.1 = get_name new_schema w.1.1
           ∧ str_le (get_name old_schema v.1.2) (get_name old_schema w.1.2)))).

(** ** Concrete inputs

    Small stores, contexts and schemas on which the engine is run. *)

(** Two set-attribute commands for the attribute [name], and a command
    to add them to. *)
Definition name_setter : Command :=
  mkCommand AlterObjectProperty false [] [] ∅ "" None false false ""
    "name" VNone VNone None.

Definition two_setters : Heap :=
  <[0 := new_command ObjectCommand]>
    (<[1 := name_setter]> (<[2 := name_setter]> ∅)).

(** A stack whose only frame belongs to a Delete command. *)
Definition deleting_state : State ListSchema :=
  mkState (<[0 := new_command DeleteObject]> ∅)
    (mkContext [mkToken (mkListSchema [] [] [] [] [] [] []) 0 None] ∅
       false ∅).

(** A root whose sub-commands were added in the order: a plain Create,
    a CreateModule, a DeleteCollectionType, an AlterModule. *)
Definition empty_schema : ListSchema := mkListSchema [] [] [] [] [] [] [].

Definition mixed_root : Command :=
  with_ops (λ _, [3; 1; 4; 2]) (new_command DeltaRoot).

Definition mixed_root_state : State ListSchema :=
  mkState
    (<[0 := mixed_root]>
       (<[1 := new_command CreateModule]>
          (<[2 := new_command AlterModule]>
             (<[3 := new_command CreateObject]>
                (<[4 := new_command DeleteCollectionType]> ∅)))))
    (mkContext [] ∅ false ∅).

(** A schema with a type and an object that refers to it through a
    blocking reference; commands on the type, below a root. *)
Definition pets_schema : ListSchema :=
  mkListSchema [(10, "default::Pet"); (11, "default::Owner")]
    [(11, 10, true)] [] [] [] [] [].

Definition create_pet : Command :=
  mkCommand CreateObject false [] [] ∅ "default::Pet" None true false ""
    "" VNone VNone None.

Definition delete_pet (is_canonical : bool) : Command :=
  mkCommand DeleteObject is_canonical [] [] ∅ "default::Pet" (Some 10) false
    true "" "" VNone VNone None.

Definition below_root (child : Command) : State ListSchema :=
  mkState
    (<[0 := with_ops (λ _, [1]) (new_command DeltaRoot)]> (<[1 := child]> ∅))
    (mkContext [mkToken pets_schema 0 None] ∅ false ∅).

Definition inside (child : Command) : State ListSchema :=
  mkState
    (<[0 := with_ops (λ _, [1]) (new_command DeltaRoot)]> (<[1 := child]> ∅))
    (mkContext [mkToken pets_schema 0 None; mkToken pets_schema 1 (Some 10)]
       ∅ false ∅).

Definition create_pet_node : CreateObjectNode :=
  mkCreateObjectNode "default::Pet" true false.

(** A type that owns one property, and the Rename of the type below its
    Alter command. *)
Definition owner_schema : ListSchema :=
  mkListSchema [(10, "default::Pet"); (12, "default::name@default|Pet")]
    [] [] [(10, [12])] [] [] [].

Definition rename_pet : Command :=
  mkCommand RenameObject false [] [] ∅ "default::Pet" (Some 10) false false
    "default::Animal" "" VNone VNone None.

Definition renaming_state : State ListSchema :=
  mkState
    (<[0 := with_scls (Some 10)
              (with_ops (λ _, [1]) (new_command AlterObject))]>
       (<[1 := rename_pet]> ∅))
    (mkContext [mkToken owner_schema 0 (Some 10)] ∅ false ∅).

(** A base type and a type derived from it, both dropped from the new
    schema. *)
Definition inheriting_class : SchemaClass := mkSchemaClass "ObjectType" true.

Definition base_and_derived : ListSchema :=
  mkListSchema [(1, "default::Base"); (2, "default::Derived")]
    [] [(2, [1])] [] [] [] [].

(** Three old and three new types whose best matches score exactly
    0.6, 0.7 and exactly 1.0. *)
Definition scored_old : ListSchema :=
  mkListSchema [(1, "default::A"); (2, "default::B"); (5, "default::E")]
    [] [] [] [] [] [].

Definition scored_new : ListSchema :=
  mkListSchema [(3, "default::A2"); (4, "default::B2"); (6, "default::E2")]
    [] [] [] []
    [(1, 3, 0.6%Q); (2, 4, 0.7%Q); (5, 6, 1%Q)] [].

(** ** The attribute accessors of [Command] *)

Definition has_attribute_value (s : Command) (attr_name : string) : bool :=
  bool_decide (is_Some (_attrs s !! attr_name)).

Definition get_attribute_value (self : ref) (attr_name : string)
    : M Heap Value :=
  let! s := deref self in
  match get_attribute_set_cmd s attr_name with
  | Some op => let! o := deref op in ret (new_value o)
  | None => ret VNone
  end.

(** The new value of the field, if not inherited. *)
Definition get_local_attribute_value (self : ref) (attr_name : string)
    : M Heap Value :=
  let! s := deref self in
  match get_attribute_set_cmd s attr_name with
  | Some op =>
      let! o := deref op in
      if decide (source o = Some "inheritance") then ret VNone
      else ret (new_value o)
  | None => ret VNone
  end.

Definition get_orig_attribute_value (self : ref) (attr_name : string)
    : M Heap Value :=
  let! s := deref self in
  match get_attribute_set_cmd s attr_name with
  | Some op => let! o := deref op in ret (old_value o)
  | None => ret VNone
  end.

Definition discard_attribute (self : ref) (attr_name : string)
    : M Heap unit :=
  let! s := deref self in
  match get_attribute_set_cmd s attr_name with
  | Some op => discard self op
  | None => ret tt
  end.

(** ** Prerequisites and counts *)

(** [get_prerequisites()] *)
Definition get_prerequisites (c : Command) : list ref := before_ops c.

Definition has_subcommands (c : Command) : bool :=
  negb (bool_decide (ops c = [])) || negb (bool_decide (before_ops c = [])).

(** [before_ops.update(iterable)] adds the elements one by one, as
    [oset_add] does. *)
Definition add_prerequisite (self command : ref) : M Heap unit :=
  let! c := deref command in
  if isinstance c CommandGroup then
    for_each (λ x, update_cmd self (with_before_ops (oset_add x)))
      (get_subcommands c)
  else update_cmd self (with_before_ops (oset_add command)).

(** One loop of [get_nonattr_subcommand_count]. *)
Fixpoint count_nonattr (l : list ref) (count : nat) : M Heap nat :=
  match l with
  | [] => ret count
  | op :: l' =>
      let! o := deref op in
      count_nonattr l'
        (if isinstance o AlterObjectProperty then count else S count)
  end.

Definition get_nonattr_subcommand_count (self : ref) : M Heap nat :=
  let! s := deref self in
  let! count := count_nonattr (ops s) 0 in
  count_nonattr (before_ops s) count.

(** ** More of the command context *)

Section ContextMore.
Context {Schema : Type}.
Implicit Types (st : State Schema) (ctx : CommandContext Schema).

(** [CommandContext()] with the defaults of its keywords. *)
Definition CommandContext_new : CommandContext Schema :=
  mkContext [] ∅ false ∅.



Definition top : M (State Schema) (CommandContextToken Schema) :=
  λ st, match stack (context st) with
        | t :: _ => (Ok t, st)
        | [] => (Raise (KeyError "command context stack is empty"), st)
        end.

Definition with_dep_verification (b : bool) (st : State Schema)
    : State Schema :=
  mkState (heap st)
    (mkContext (stack (context st)) (_values (context st)) b
       (renames (context st))).

Definition with_renames (f : gmap Name Name → gmap Name Name)
    (st : State Schema) : State Schema :=
  mkState (heap st)
    (mkContext (stack (context st)) (_values (context st))
       (disable_dep_verification (context st)) (f (renames (context st)))).

(** [with context.suspend_dep_verification(): body] *)
Definition suspend_dep_verification {A} (body : M (State Schema) A)
    : M (State Schema) A :=
  let! st := get_state in
  let dep_ver := disable_dep_verification (context st) in
  modify (with_dep_verification true);;
  finally body (with_dep_verification dep_ver).

End ContextMore.

(** ** Statement-level definitions for the attribute accessors *)

(** The setter of an attribute once [set_attribute_value] has written
    [value], [orig_value] and [inherited] to it. *)
Definition written (value orig_value : Value) (inherited : bool)
    (o : Command) : Command :=
  with_values (if decide (orig_value = VNone) then old_value o else orig_value)
    value (if inherited then Some "inheritance" else source o) o.

(** ** Concrete inputs for the attribute accessors *)

(** A command whose attribute [name] holds an inherited value. *)
Definition inherited_setter : Command :=
  mkCommand AlterObjectProperty false [] [] ∅ "" None false false ""
    "name" (VStr "default::Old") (VStr "default::Pet") (Some "inheritance").

Definition with_inherited_name : Heap :=
  <[0 := with_attrs (λ _, {["name" := 1]})
           (with_ops (λ _, [1]) (new_command ObjectCommand))]>
    (<[1 := inherited_setter]> ∅).

(** ** [AlterObject.apply] and [RenameObject.apply]

    The steps of the Alter lifecycle that run code outside delta.py. *)
Class AlterExternals (Schema : Type) := {
  (** [populate_ddl_identity], [canonicalize_attributes] and
      [validate_alter], which the concrete classes override *)
  _canonicalize_alter : ref → Schema → M (State Schema) Schema;
  (** [self.scls.update(schema, self.get_resolved_attributes(schema,
      context))] *)
  _update_scls : ref → Schema → M (State Schema) Schema;
  _finalize_affected_refs : ref → Schema → M (State Schema) Schema;
}.

Section Alter.
Context {Schema : Type} `{!SchemaStore Schema} `{!Externals Schema}
  `{!AlterExternals Schema}.
Implicit Types (st : State Schema) (schema : Schema) (self : ref).

(** [ObjectCommand.get_parent_op] *)
Definition get_parent_op (self : ref) : M (State Schema) ref :=
  let! st := get_state in
  match parent st with
  | None => raise (AssertionError "no parent context")
  | Some parent_ =>
      let! o := deref' (op parent_) in
      if isinstance o ObjectCommand then ret (op parent_)
      else raise (AssertionError "")
  end.

(** [AlterObjectFragment.get_parent_op]: the command of the current
    token. *)
Definition AlterObjectFragment_get_parent_op (self : ref)
    : M (State Schema) ref :=
  let! ctx := current in
  let! o := deref' (op ctx) in
  if isinstance o ObjectCommand then ret (op ctx)
  else raise (AssertionError "").

(** [for op in l: if not isinstance(op, skip): schema = op.apply(...)] *)
Fixpoint apply_unless (skip : list CmdClass) (l : list ref) (schema : Schema)
    : M (State Schema) Schema :=
  match l with
  | [] => ret schema
  | r :: l' =>
      let! st := get_state in
      if existsb (op_isinstance (heap st) r) skip
      then apply_unless skip l' schema
      else let! schema' := apply_op r schema in apply_unless skip l' schema'
  end.

Definition AlterObject_alter_begin (self : ref) (schema : Schema)
    : M (State Schema) Schema :=
  _validate_legal_command self schema;;
  let! c := deref' self in
  let! schema := apply_all (get_prerequisites c) schema in
  let! subs := get_subcommands_of self (Some AlterObjectFragment) in
  let! schema := apply_all subs schema in
  let! st := get_state in
  let! schema :=
    (if negb (context_canonical st) then _canonicalize_alter self schema
     else ret schema) in
  _update_scls self schema.

Definition AlterObject_alter_innards (self : ref) (schema : Schema)
    : M (State Schema) Schema :=
  let! c := deref' self in
  apply_unless [AlterObjectFragment; AlterObjectProperty] (ops c) schema.

Definition AlterObject_alter_finalize (self : ref) (schema : Schema)
    : M (State Schema) Schema :=
  _finalize_affected_refs self schema.

(** [AlterObject.apply]; [if_exists] is the field of that name of the
    command. *)
Definition AlterObject_apply (if_exists : bool) (self : ref)
    (schema : Schema) : M (State Schema) Schema :=
  let! st := get_state in
  let! found :=
    (if negb (context_canonical st) && if_exists
     then get_object_default_none self schema
     else let! scls := get_object self schema in ret (Some scls)) in
  match found with
  | None =>
      let! ctx := current in
      on_heap (discard (op ctx) self);;
      ret schema
  | Some scls =>
      set_scls self scls;;
      new_context self schema (Some scls)
        (let! schema := AlterObject_alter_begin self schema in
         let! schema := AlterObject_alter_innards self schema in
         AlterObject_alter_finalize self schema)
  end.

Definition _rename_innards (self : ref) (schema : Schema)
    : M (State Schema) Schema :=
  let! c := deref' self in
  apply_unless [AlterObjectFragment; AlterObjectProperty] (ops c) schema.

Definition _rename_finalize (self : ref) (schema : Schema)
    : M (State Schema) Schema :=
  _finalize_affected_refs self schema.

(** [RenameObject.apply]; [context.renamed_objs] is only added to and is
    left out. *)
Definition RenameObject_apply (fuel : nat) (self : ref) (schema : Schema)
    : M (State Schema) Schema :=
  let! parent_op := AlterObjectFragment_get_parent_op self in
  let! p := deref' parent_op in
  match scls p with
  | None => stuck
  | Some scls =>
      set_scls self scls;;
      let! c := deref' self in
      modify (with_renames (<[classname c := new_name c]>));;
      let! schema := _rename_begin fuel self schema in
      let! schema := _rename_innards self schema in
      _rename_finalize self schema
  end.

End Alter.

(** Nothing more is run at the end of these phases on the small store. *)
Global Instance ListSchema_alter_externals : AlterExternals ListSchema := {
  _canonicalize_alter _ schema := ret schema;
  _update_scls _ schema := ret schema;
  _finalize_affected_refs _ schema := ret schema;
}.

(** ** Statement-level definitions for the context *)

(** The context after the action, on every exit, is related to the
    context before it. *)
Definition preserves {Schema A} (R : relation (CommandContext Schema))
    (m : M (State Schema) A) : Prop :=
  ∀ st, R (context st) (context (m st).2).

(** A component of the context is as it was. *)
Definition same_on {Schema X} (f : CommandContext Schema → X)
    : relation (CommandContext Schema) :=
  λ ctx ctx', f ctx' = f ctx.

(** The stack is as it was but for its innermost token. *)
Definition same_below_top {Schema} : relation (CommandContext Schema) :=
  λ ctx ctx',
    length (stack ctx') = length (stack ctx)
    ∧ pop_stack (stack ctx') = pop_stack (stack ctx).

(** Every collaborator preserves the relation. *)
Definition externals_preserve {Schema} `{!Externals Schema}
    `{!AlterExternals Schema} (R : relation (CommandContext Schema)) : Prop :=
  ∀ r schema,
    preserves R (apply_op r schema)
    ∧ preserves R (_validate_legal_command r schema)
    ∧ preserves R (_create_begin r schema)
    ∧ preserves R (_delete_begin r schema)
    ∧ preserves R (_propagate_if_expr_refs r schema)
    ∧ preserves R (_canonicalize_alter r schema)
    ∧ preserves R (_update_scls r schema)
    ∧ preserves R (_finalize_affected_refs r schema).

Global Instance same_on_preorder {Schema X} (f : CommandContext Schema → X) :
  PreOrder (same_on f).
Proof.
  split.
  - by intros ctx.
  - intros ctx1 ctx2 ctx3 H12 H23. unfold same_on in *. congruence.
Qed.

Global Instance same_below_top_preorder {Schema} :
  PreOrder (same_below_top (Schema:=Schema)).
Proof.
  split.
  - by intros ctx.
  - intros ctx1 ctx2 ctx3 [H1 H2] [H3 H4]. split; congruence.
Qed.

(** ** Concrete inputs for the Alter and Rename commands *)

(** An Alter command for a name that is not in [pets_schema]. *)
Definition alter_ghost : Command :=
  mkCommand AlterObject false [] [] ∅ "default::Ghost" None false false ""
    "" VNone VNone None.

(** ** Concrete inputs for the diff *)

(** A guidance that bans one creation, one deletion and one alter. *)
Definition ban_some : DeltaGuidance :=
  mkDeltaGuidance [(inheriting_class, "default::A2")]
    [(inheriting_class, "default::A")]
    [(inheriting_class, ("default::B", "default::B2"))].

(** ** Statement-level definitions for groups *)

(** No sub-command in [ops] is a command group. *)
Definition no_group_in_ops (h : Heap) (self : ref) : Prop :=
  ∀ s c cc, h !! self = Some s → c ∈ ops s → h !! c = Some cc →
    isinstance cc CommandGroup = false.

(** The commands of [h'] have the classes they have in [h]. *)
Definition same_classes (h h' : Heap) : Prop :=
  ∀ r, cls <$> h' !! r = cls <$> h !! r.

(** ** Concrete inputs for groups *)

(** A group that holds a group that holds a Create command, and a
    command to add it to. *)
Definition nested_groups : Heap :=
  <[0 := new_command ObjectCommand]>
    (<[5 := with_ops (λ _, [6]) (new_command CommandGroup)]>
       (<[6 := with_ops (λ _, [7]) (new_command CommandGroup)]>
          (<[7 := new_command CreateObject]> ∅))).

(** ** Statement-level definitions for [AlterObject.apply] *)




(** ** Concrete inputs for [AlterObject.apply] *)

(** An Alter of the type Pet below a root: its Rename (command 2) is a
    prerequisite and the only fragment; [ops] holds a Create command and
    a set-attribute command. *)
Definition alter_pet : Command :=
  mkCommand AlterObject false [3; 4] [2] ∅ "default::Pet" None false false
    "" "" VNone VNone None.

Definition altering_state : State ListSchema :=
  mkState
    (<[0 := with_ops (λ _, [1]) (new_command DeltaRoot)]>
       (<[1 := alter_pet]>
          (<[2 := rename_pet]>
             (<[3 := new_command CreateObject]>
                (<[4 := name_setter]> ∅)))))
    (mkContext [mkToken pets_schema 0 None] ∅ false ∅).

(** ** Statement-level definitions for the rename cascade *)

(** Every chain of ownership that starts at [o] is shorter than [n]. *)
Fixpoint owns_within {Schema} `{!SchemaStore Schema} (n : nat)
    (schema : Schema) (o : Object) : Prop :=
  match n with
  | O => False
  | S n' => Forall (owns_within n' schema) (owned_refs schema o)
  end.

(** [a] is the command the cascade builds for the owned object [ref_]:
    a canonical Alter of that object whose only sub-command is the Rename
    of the object to its name under the owner's new name. *)
Definition cascaded {Schema} `{!SchemaStore Schema} (h : Heap)
    (schema : Schema) (owner_new_name : Name) (ref_ : Object) (a : ref)
    : Prop :=
  ∃ ca r cr,
    h !! a = Some ca ∧ cls ca = AlterObject ∧ canonical ca = true
    ∧ classname ca = get_name schema ref_
    ∧ ops ca = [r] ∧ before_ops ca = []
    ∧ h !! r = Some cr ∧ cls cr = RenameObject
    ∧ classname cr = get_name schema ref_
    ∧ new_name cr = requalified_name owner_new_name (get_name schema ref_).

(** ** The AST-node registry of [CommandMeta] *)

(** AST node classes, named by their class names. *)
Abbreviation AstNode := string (only parsing).

(** The [TypeError] of [register_astnodes], with the two values its
    message formats. *)
Inductive TypeError :=
  | DuplicateMapping (astnode : AstNode) (existing : CmdClass).

(** [mapping] is the class-level dict [_astnode_map].  The dict is
    changed in place, so the entries written before a [raise] stay: the
    dict is returned on both exits. *)
Fixpoint register_astnodes (cls : CmdClass) (astnodes : list AstNode)
    (mapping : gmap AstNode CmdClass)
    : (TypeError + unit) * gmap AstNode CmdClass :=
  match astnodes with
  | [] => (inr tt, mapping)
  | astnode :: astnodes' =>
      match mapping !! astnode with
      | Some existing => (inl (DuplicateMapping astnode existing), mapping)
      | None => register_astnodes cls astnodes' (<[astnode := cls]> mapping)
      end
  end.

(** ** DDL identity and annotations of [ObjectCommand] *)

Inductive LookupError :=
  | NoIdentity                  (* has no DDL identity information *)
  | NoAspect (aspect : string). (* has no [aspect] in DDL identity *)

(** [d.get(key)]: [None] for a missing key. *)
Definition dict_get (d : gmap string Value) (key : string) : Value :=
  default VNone (d !! key).

(** The accessors read and write one optional dict field of the command;
    the field is passed in, and returned by the setters. *)
Definition get_ddl_identity (ddl_identity : option (gmap string Value))
    (aspect : string) : LookupError + Value :=
  match ddl_identity with
  | None => inl NoIdentity
  | Some d =>
      match dict_get d aspect with
      | VNone => inl (NoAspect aspect)
      | value => inr value
      end
  end.

Definition has_ddl_identity (ddl_identity : option (gmap string Value))
    (aspect : string) : bool :=
  match ddl_identity with
  | None => false
  | Some d => negb (bool_decide (dict_get d aspect = VNone))
  end.

Definition set_ddl_identity (ddl_identity : option (gmap string Value))
    (aspect : string) (value : Value) : option (gmap string Value) :=
  Some (<[aspect := value]> (default ∅ ddl_identity)).

Definition get_annotation (annotations : option (gmap string Value))
    (name : string) : Value :=
  match annotations with
  | None => VNone
  | Some d => dict_get d name
  end.

Definition set_annotation (annotations : option (gmap string Value))
    (name : string) (value : Value) : option (gmap string Value) :=
  Some (<[name := value]> (default ∅ annotations)).

(** * Properties of the engine *)

(** ** Monad equations *)

Lemma bind_eq {S A B} (m : M S A) (k : A → M S B) s :
  bind m k s =
    match m s with
    | (Ok a, s') => k a s'
    | (Raise e, s') => (Raise e, s')
    | (Stuck, s') => (Stuck, s')
    end.
Proof. reflexivity. Qed.

Ltac msimpl :=
  repeat first
    [ progress cbv beta iota
    | progress cbn [fst snd negb]
    | rewrite bind_eq
    | progress unfold get_state, ret, raise, modify, put_state ].

Lemma bind_ret_l {S A B} (a : A) (k : A → M S B) s : bind (ret a) k s = k a s.
Proof. reflexivity. Qed.


(** ** Attribute table versus the set-attribute commands of [ops] *)

Section AttrsTable.
Implicit Types (h : Heap) (self command : ref).

Lemma same_kinds_refl h : same_kinds h h.
Proof. by intros c p. Qed.

Lemma same_kinds_trans h1 h2 h3 :
  same_kinds h1 h2 → same_kinds h2 h3 → same_kinds h1 h3.
Proof. intros H12 H23 c p. etrans; [apply H12 | apply H23]. Qed.

Lemma same_kinds_insert h self s s' :
  h !! self = Some s → cls s' = cls s → property s' = property s →
  same_kinds h (<[self := s']> h).
Proof.
  intros Hs Hc Hp c p. unfold is_setter, isinstance.
  destruct (decide (c = self)) as [->|Hne].
  - rewrite lookup_insert_eq, Hs. split; intros (cc & [= <-] & Hk & Hq).
    + exists s'. by rewrite Hc, Hp.
    + exists s. by rewrite <- Hc, <- Hp.
  - by rewrite lookup_insert_ne.
Qed.

Lemma update_cmd_eq r f h :
  update_cmd r f h =
    match h !! r with
    | Some c => (Ok tt, <[r := f c]> h)
    | None => (Stuck, h)
    end.
Proof. unfold update_cmd, bind, deref, modify. by destruct (h !! r). Qed.

(** One field update of [self] that keeps every table entry inside
    [ops] keeps the table sound. *)
Lemma attrs_sound_insert h self s s' :
  h !! self = Some s → cls s' = cls s → property s' = property s →
  attrs_sound h self →
  (∀ p c, _attrs s' !! p = Some c →
     c ∈ ops s' ∧ (_attrs s !! p = Some c ∨ is_setter h c p)) →
  attrs_sound (<[self := s']> h) self.
Proof.
  intros Hs Hc Hp Hsound Hnew s0 p c. rewrite lookup_insert_eq.
  intros [= <-] Hpc. destruct (Hnew p c Hpc) as [Hin Hor]. split; [done|].
  apply (same_kinds_insert h self s s' Hs Hc Hp).
  destruct Hor as [Hold|Hset]; [|done].
  by destruct (Hsound s p c Hs Hold).
Qed.

Lemma elem_of_oset_add x y l : x ∈ oset_add y l ↔ x ∈ l ∨ x = y.
Proof.
  unfold oset_add. case_decide as Hin.
  - split; [by left|]. by intros [?| ->].
  - by rewrite elem_of_app, list_elem_of_singleton.
Qed.

Lemma elem_of_oset_discard x y l : x ∈ oset_discard y l ↔ x ∈ l ∧ x ≠ y.
Proof. unfold oset_discard. rewrite list_elem_of_filter. tauto. Qed.

Lemma add_eq fuel self command h :
  add (S fuel) self command h =
    match h !! command with
    | None => (Stuck, h)
    | Some c =>
        if isinstance c CommandGroup
        then for_each (add fuel self) (get_subcommands c) h
        else if isinstance c AlterObjectProperty
        then (update_cmd self (with_attrs (<[property c := command]>));;
              update_cmd self (with_ops (oset_add command))) h
        else update_cmd self (with_ops (oset_add command)) h
    end.
Proof.
  simpl. rewrite bind_eq. unfold deref.
  destruct (h !! command) as [c|]; [|done].
  destruct (isinstance c CommandGroup); [done|].
  by destruct (isinstance c AlterObjectProperty).
Qed.

Lemma for_each_sound {A} (f : A → M Heap unit) (l : list A) self h :
  (∀ x h', attrs_sound h' self →
     attrs_sound (f x h').2 self ∧ same_kinds h' (f x h').2) →
  attrs_sound h self →
  attrs_sound (for_each f l h).2 self ∧ same_kinds h (for_each f l h).2.
Proof.
  intros Hf. revert h. induction l as [|x l IH]; intros h Hh; simpl.
  - split; [done | apply same_kinds_refl].
  - rewrite bind_eq. destruct (Hf x h Hh) as [Hx1 Hx2].
    destruct (f x h) as [r h1]. simpl in Hx1, Hx2.
    destruct r as [u|e|]; [|by split..].
    destruct (IH h1 Hx1) as [Hl1 Hl2]. split; [done|].
    by eapply same_kinds_trans.
Qed.

Lemma add_sound fuel self command h :
  attrs_sound h self →
  attrs_sound (add fuel self command h).2 self
  ∧ same_kinds h (add fuel self command h).2.
Proof.
  revert command h. induction fuel as [|fuel IH]; intros command h Hh.
  { simpl. split; [done | apply same_kinds_refl]. }
  rewrite add_eq.
  destruct (h !! command) as [c|] eqn:Hc;
    [|split; [done | apply same_kinds_refl]].
  destruct (isinstance c CommandGroup).
  { apply for_each_sound; [|done]. intros x h' Hh'. by apply IH. }
  destruct (isinstance c AlterObjectProperty) eqn:Hk.
  - rewrite bind_eq, update_cmd_eq.
    destruct (h !! self) as [s|] eqn:Hs;
      [|split; [done | apply same_kinds_refl]].
    rewrite update_cmd_eq, lookup_insert_eq, insert_insert_eq. simpl. split.
    + eapply attrs_sound_insert; [done..|]. simpl. intros p c0 Hp.
      rewrite elem_of_oset_add.
      destruct (decide (property c = p)) as [<-|Hne].
      * rewrite lookup_insert_eq in Hp. injection Hp as <-.
        split; [by right|]. right. by exists c.
      * rewrite lookup_insert_ne in Hp by done. split; [|by left].
        left. by destruct (Hh s p c0 Hs Hp).
    + by eapply same_kinds_insert.
  - rewrite update_cmd_eq.
    destruct (h !! self) as [s|] eqn:Hs;
      [|split; [done | apply same_kinds_refl]].
    simpl. split.
    + eapply attrs_sound_insert; [done..|]. simpl. intros p c0 Hp.
      rewrite elem_of_oset_add. split; [|by left].
      left. by destruct (Hh s p c0 Hs Hp).
    + by eapply same_kinds_insert.
Qed.

Lemma discard_eq self command h :
  discard self command h =
    match h !! command, h !! self with
    | Some c, Some s =>
        let s1 := with_before_ops (oset_discard command)
                    (with_ops (oset_discard command) s) in
        if isinstance c AlterObjectProperty then
          match _attrs s !! property c with
          | Some _ =>
              (Ok tt, <[self := with_attrs (delete (property c)) s1]> h)
          | None => (Raise (KeyError (property c)), <[self := s1]> h)
          end
        else (Ok tt, <[self := s1]> h)
    | _, _ => (Stuck, h)
    end.
Proof.
  unfold discard. rewrite bind_eq. unfold deref at 1.
  destruct (h !! command) as [c|]; [|by destruct (h !! self)].
  rewrite bind_eq, update_cmd_eq.
  destruct (h !! self) as [s|]; [|done].
  rewrite bind_eq, update_cmd_eq, lookup_insert_eq, insert_insert_eq.
  destruct (isinstance c AlterObjectProperty); [|done].
  rewrite bind_eq. unfold deref. rewrite lookup_insert_eq. simpl.
  destruct (_attrs s !! property c); [|done].
  by rewrite update_cmd_eq, lookup_insert_eq, insert_insert_eq.
Qed.

Lemma discard_sound self command h :
  attrs_sound h self →
  attrs_sound (discard self command h).2 self
  ∧ same_kinds h (discard self command h).2.
Proof.
  intros Hh. rewrite discard_eq.
  destruct (h !! command) as [c|] eqn:Hc;
    [|split; [done | apply same_kinds_refl]].
  destruct (h !! self) as [s|] eqn:Hs;
    [|split; [done | apply same_kinds_refl]].
  assert (Hkeep : ∀ p c0, _attrs s !! p = Some c0 →
            (isinstance c AlterObjectProperty = true → p ≠ property c) →
            c0 ∈ oset_discard command (ops s)).
  { intros p c0 Hp Hne. destruct (Hh s p c0 Hs Hp) as [Hin Hset].
    apply elem_of_oset_discard. split; [done|]. intros ->.
    destruct Hset as (cc & Hcc & Hk & Hq). rewrite Hc in Hcc.
    injection Hcc as <-. by apply Hne. }
  simpl. destruct (isinstance c AlterObjectProperty) eqn:Hk.
  - destruct (_attrs s !! property c) as [c1|] eqn:Hp1; simpl.
    + split; [|by eapply same_kinds_insert].
      eapply attrs_sound_insert; [done..|]. simpl. intros p c0.
      rewrite lookup_delete_Some. intros [Hne Hp]. split; [|by left].
      apply (Hkeep p c0 Hp). by intros _ ->.
    + split; [|by eapply same_kinds_insert].
      eapply attrs_sound_insert; [done..|]. simpl. intros p c0 Hp.
      split; [|by left]. apply (Hkeep p c0 Hp). intros _ ->. congruence.
  - simpl. split; [|by eapply same_kinds_insert].
    eapply attrs_sound_insert; [done..|]. simpl. intros p c0 Hp.
    split; [|by left]. apply (Hkeep p c0 Hp). by intros.
Qed.

Lemma replace_all_sound fuel self commands h :
  attrs_sound h self →
  attrs_sound (replace_all fuel self commands h).2 self
  ∧ same_kinds h (replace_all fuel self commands h).2.
Proof.
  intros Hh. unfold replace_all. rewrite bind_eq, update_cmd_eq.
  destruct (h !! self) as [s|] eqn:Hs;
    [|split; [done | apply same_kinds_refl]].
  rewrite bind_eq, update_cmd_eq, lookup_insert_eq, insert_insert_eq.
  set (s' := with_attrs (λ _, ∅) (with_ops (λ _, []) s)).
  assert (H1 : attrs_sound (<[self := s']> h) self).
  { eapply attrs_sound_insert; [done..|]. simpl. intros p c.
    by rewrite lookup_empty. }
  assert (H2 : same_kinds h (<[self := s']> h))
    by by eapply same_kinds_insert.
  destruct (for_each_sound (add fuel self) commands self _
              (λ x h' Hh', add_sound fuel self x h' Hh') H1) as [H3 H4].
  split; [done|]. by eapply same_kinds_trans.
Qed.

Lemma call_sound fuel self k h :
  attrs_sound h self →
  attrs_sound (call fuel self k h).2 self
  ∧ same_kinds h (call fuel self k h).2.
Proof.
  destruct k; simpl.
  - apply add_sound.
  - apply discard_sound.
  - apply replace_all_sound.
Qed.

Lemma run_calls_sound fuel self ks h :
  attrs_sound h self → attrs_sound (run_calls fuel self ks h) self.
Proof.
  revert h. induction ks as [|k ks IH]; intros h Hh; simpl; [done|].
  apply IH. by apply call_sound.
Qed.

Lemma is_setter_fun h c p cc :
  h !! c = Some cc → is_setter h c p →
  isinstance cc AlterObjectProperty = true ∧ property cc = p.
Proof. intros Hc (cc' & Hc' & Hk & Hp). by simplify_eq. Qed.

(** Adding a single command keeps the table complete when no other
    setter of the same attribute name is among [ops]. *)
Lemma add_complete fuel self command c h :
  h !! command = Some c → isinstance c CommandGroup = false →
  (∀ s c', h !! self = Some s → c' ∈ ops s →
     is_setter h c' (property c) →
     isinstance c AlterObjectProperty = true → c' = command) →
  attrs_complete h self →
  attrs_complete (add (S fuel) self command h).2 self.
Proof.
  intros Hc Hg Huniq Hh. rewrite add_eq, Hc, Hg.
  destruct (h !! self) as [s|] eqn:Hs.
  2:{ destruct (isinstance c AlterObjectProperty);
        [rewrite bind_eq|]; by rewrite update_cmd_eq, Hs. }
  assert (Hgoal : ∀ s', cls s' = cls s → property s' = property s →
            ops s' = oset_add command (ops s) →
            _attrs s' = (if isinstance c AlterObjectProperty
                         then <[property c := command]> (_attrs s)
                         else _attrs s) →
            attrs_complete (<[self := s']> h) self).
  { intros s' Hk Hq Hops Hat s0 c0 p0. rewrite lookup_insert_eq.
    intros [= <-] Hin Hset. rewrite Hops, elem_of_oset_add in Hin.
    apply (same_kinds_insert h self s s' Hs Hk Hq) in Hset. rewrite Hat.
    destruct (decide (c0 = command)) as [->|Hne].
    - destruct (is_setter_fun _ _ _ _ Hc Hset) as [-> <-].
      by rewrite lookup_insert_eq.
    - destruct Hin as [Hin|?]; [|done].
      destruct (isinstance c AlterObjectProperty) eqn:Hk'; [|by eapply Hh].
      rewrite lookup_insert_ne; [by eapply Hh|]. intros <-.
      by apply Hne, (Huniq s c0). }
  destruct (isinstance c AlterObjectProperty) eqn:Hk.
  - rewrite bind_eq, !update_cmd_eq, Hs, update_cmd_eq, lookup_insert_eq,
      insert_insert_eq. by apply Hgoal.
  - rewrite update_cmd_eq, Hs. by apply Hgoal.
Qed.

(** Discarding a command keeps the table complete when, if it is a
    setter, it is the live entry of its attribute name. *)
Lemma discard_complete self command c h :
  h !! command = Some c →
  (∀ s, h !! self = Some s → isinstance c AlterObjectProperty = true →
     _attrs s !! property c = Some command) →
  attrs_complete h self →
  attrs_complete (discard self command h).2 self.
Proof.
  intros Hc Hlive Hh. rewrite discard_eq, Hc.
  destruct (h !! self) as [s|] eqn:Hs; [|done]. simpl.
  specialize (Hlive s eq_refl).
  assert (Hgoal : ∀ s', cls s' = cls s → property s' = property s →
            ops s' = oset_discard command (ops s) →
            _attrs s' = (if isinstance c AlterObjectProperty
                         then delete (property c) (_attrs s)
                         else _attrs s) →
            attrs_complete (<[self := s']> h) self).
  { intros s' Hk Hq Hops Hat s0 c0 p0. rewrite lookup_insert_eq.
    intros [= <-] Hin Hset. rewrite Hops, elem_of_oset_discard in Hin.
    destruct Hin as [Hin Hne].
    apply (same_kinds_insert h self s s' Hs Hk Hq) in Hset. rewrite Hat.
    pose proof (Hh s c0 p0 Hs Hin Hset) as Hp0.
    destruct (isinstance c AlterObjectProperty) eqn:Hk'; [|done].
    rewrite lookup_delete_ne; [done|]. intros <-.
    rewrite (Hlive eq_refl) in Hp0. by simplify_eq. }
  destruct (isinstance c AlterObjectProperty) eqn:Hk.
  - rewrite (Hlive eq_refl). by apply Hgoal.
  - by apply Hgoal.
Qed.

Lemma add_setter fuel h self command c s :
  h !! self = Some s → h !! command = Some c →
  cls c = AlterObjectProperty →
  add (S fuel) self command h =
    (Ok tt, <[self := with_ops (oset_add command)
                (with_attrs (<[property c := command]>) s)]> h).
Proof.
  intros Hs Hc Hk. rewrite add_eq, Hc. unfold isinstance. rewrite Hk.
  simpl. by rewrite bind_eq, update_cmd_eq, Hs, update_cmd_eq,
    lookup_insert_eq, insert_insert_eq.
Qed.

Lemma discard_setter h self command c s x :
  h !! self = Some s → h !! command = Some c →
  cls c = AlterObjectProperty → _attrs s !! property c = Some x →
  discard self command h =
    (Ok tt, <[self := with_attrs (delete (property c))
                (with_before_ops (oset_discard command)
                   (with_ops (oset_discard command) s))]> h).
Proof.
  intros Hs Hc Hk Hx. rewrite discard_eq, Hc, Hs. unfold isinstance.
  rewrite Hk. simpl. by rewrite Hx.
Qed.

(** C1, as amended.  After any sequence of add / discard / replace_all
    calls on a command whose table started sound, every entry of the
    attribute table [_attrs] is a set-attribute command present in [ops]
    and filed under its own attribute name.  Adding a set-attribute command
    binds the table entry of its name to it and appends it to [ops] without
    removing an earlier setter of that name; discarding a set-attribute
    command whose name has a table entry removes the command from [ops]
    and deletes that entry.  The converse inclusion (every setter of [ops]
    is the table entry of its name) is kept by adding a command when no
    other setter of its name is in [ops], and by discarding a command that,
    if a setter, is the live entry of its name. *)
Theorem attrs_table_tracks_last_setter fuel self ks h :
  attrs_sound h self →
  attrs_sound (run_calls fuel self ks h) self
  ∧ (∀ command c s,
       h !! self = Some s → h !! command = Some c →
       cls c = AlterObjectProperty →
       ∃ s', add (S fuel) self command h = (Ok tt, <[self := s']> h)
             ∧ _attrs s' !! property c = Some command
             ∧ ops s' = oset_add command (ops s))
  ∧ (∀ command c s x,
       h !! self = Some s → h !! command = Some c →
       cls c = AlterObjectProperty → _attrs s !! property c = Some x →
       ∃ s', discard self command h = (Ok tt, <[self := s']> h)
             ∧ _attrs s' !! property c = None
             ∧ command ∉ ops s')
  ∧ (∀ command c,
       h !! command = Some c → isinstance c CommandGroup = false →
       (∀ s c', h !! self = Some s → c' ∈ ops s →
          is_setter h c' (property c) →
          isinstance c AlterObjectProperty = true → c' = command) →
       attrs_complete h self →
       attrs_complete (add (S fuel) self command h).2 self)
  ∧ (∀ command c,
       h !! command = Some c →
       (∀ s, h !! self = Some s → isinstance c AlterObjectProperty = true →
          _attrs s !! property c = Some command) →
       attrs_complete h self →
       attrs_complete (discard self command h).2 self).
Proof.
  intros Hh. split; [by apply run_calls_sound|]. split; [|split; [|split]].
  - intros command c s Hs Hc Hk. eexists. split; [by eapply add_setter|].
    simpl. by rewrite lookup_insert_eq.
  - intros command c s x Hs Hc Hk Hx. eexists.
    split; [by eapply discard_setter|]. simpl.
    rewrite lookup_delete_eq. split; [done|].
    rewrite elem_of_oset_discard. by intros [_ ?].
  - intros command c. apply add_complete.
  - intros command c. apply discard_complete.
Qed.

End AttrsTable.

Lemma attrs_table_tracks_last_setter_witness :
  attrs_sound (run_calls 1 0 [CallAdd 1; CallAdd 2; CallDiscard 1]
                 two_setters) 0.
Proof.
  apply (attrs_table_tracks_last_setter 1 0
           [CallAdd 1; CallAdd 2; CallDiscard 1] two_setters).
  intros s p c Hs. unfold two_setters in Hs.
  rewrite lookup_insert_eq in Hs. injection Hs as <-. simpl.
  by rewrite lookup_empty.
Defined.

(** C1, as stated, fails: after [add] of two setters of the same
    attribute name both are in [ops], and the table holds the second
    only. *)
Lemma attrs_table_out_of_sync :
  ¬ attrs_in_sync (run_calls 1 0 [CallAdd 1; CallAdd 2] two_setters) 0.
Proof.
  intros [_ Hcomplete].
  assert (Hs : ∃ s, run_calls 1 0 [CallAdd 1; CallAdd 2] two_setters !! 0
                    = Some s
                    ∧ ops s = [1; 2] ∧ _attrs s !! "name" = Some 2).
  { eexists. split; [vm_compute; reflexivity|]. split; vm_compute; reflexivity. }
  destruct Hs as (s & Hs & Hops & Hattr).
  assert (Hset : is_setter (run_calls 1 0 [CallAdd 1; CallAdd 2] two_setters)
                   1 "name").
  { exists name_setter. split; [vm_compute; reflexivity|]. done. }
  specialize (Hcomplete s 1 "name" Hs). rewrite Hops in Hcomplete.
  specialize (Hcomplete ltac:(set_solver) Hset).
  congruence.
Qed.

(** ** The command context *)

Section ContextFacts.
Context {Schema : Type}.
Implicit Types (st : State Schema).

Lemma slice_to_zero {A} (l : list A) : slice_to l 0 = [].
Proof. unfold slice_to. simpl. by rewrite Z.min_l by lia. Qed.

Lemma slice_to_neg {A} (l : list A) (p : positive) :
  slice_to l (- Z.pos p) = take (length l - Pos.to_nat p) l.
Proof.
  unfold slice_to. simpl. f_equal. lia.
Qed.

(** C9.  With its default offset 0, [in_deletion] scans the empty slice
    [stack[:-0]] and returns False whatever the stack holds; with a
    positive offset it scans every frame but the innermost [offset]
    ones. *)
Theorem in_deletion_offset st :
  in_deletion st 0 = false
  ∧ ∀ p : positive,
      in_deletion st (Z.pos p) =
        existsb (λ t, op_isinstance (heap st) (op t) DeleteObject)
          (take (length (stack (context st)) - Pos.to_nat p)
             (stack (context st))).
Proof.
  split.
  - unfold in_deletion. by rewrite slice_to_zero.
  - intros p. unfold in_deletion. by rewrite slice_to_neg.
Qed.

End ContextFacts.

Example in_deletion_misses_delete_frame :
  in_deletion deleting_state 0 = false
  ∧ op_isinstance (heap deleting_state) 0 DeleteObject = true
  ∧ is_deleting deleting_state 5 = false.
Proof. by vm_compute. Qed.

(** ** [DeltaRoot.apply] *)

Section DeltaRootFacts.
Context {Schema : Type} `{!SchemaStore Schema} `{!Externals Schema}.
Implicit Types (st : State Schema) (schema : Schema) (self : ref).









End DeltaRootFacts.


Example DeltaRoot_apply_not_insertion_order :
  ls_applied <$> (DeltaRoot_apply 0 empty_schema mixed_root_state).1
    = Ok [1; 2; 3; 4] :> outcome (list nat)
  ∧ ls_applied <$> (CommandGroup_apply 0 empty_schema mixed_root_state).1
    = Ok [3; 1; 4; 2] :> outcome (list nat).
Proof. split; vm_compute; reflexivity. Qed.

(** ** Short-circuits of [CreateObject.apply] and [DeleteObject.apply] *)

Section ShortCircuits.
Context {Schema : Type} `{!SchemaStore Schema} `{!Externals Schema}.
Implicit Types (st : State Schema) (schema : Schema) (self : ref).

Lemma on_heap_eq {A} (m : M Heap A) st :
  on_heap m st = ((m (heap st)).1, mkState (m (heap st)).2 (context st)).
Proof. unfold on_heap. by destruct (m (heap st)). Qed.

Lemma deref'_eq r st c :
  heap st !! r = Some c → deref' (Schema:=Schema) r st = (Ok c, st).
Proof.
  intros Hr. unfold deref'. rewrite on_heap_eq. unfold deref. rewrite Hr.
  by destruct st.
Qed.

Lemma pop_stack_push (s : list (CommandContextToken Schema)) t :
  pop_stack (s ++ [t]) = s.
Proof.
  unfold pop_stack. rewrite length_app. simpl.
  by rewrite take_app_length' by lia.
Qed.

Lemma parent_push st t :
  parent (with_stack (λ s, s ++ [t]) st) = last (stack (context st)).
Proof.
  unfold parent, with_stack. simpl. rewrite length_app. simpl.
  destruct (stack (context st)) as [|t0 s] using rev_ind.
  - by rewrite decide_False by (simpl; lia).
  - rewrite decide_True by (rewrite length_app; simpl; lia).
    rewrite last_snoc, length_app. simpl.
    rewrite lookup_app_l by (rewrite length_app; simpl; lia).
    replace (length s + 1 + 1 - 2) with (length s + 0) by lia.
    by rewrite list_lookup_middle.
Qed.

Lemma not_setter_of_delete c :
  isinstance c DeleteObject = true → isinstance c AlterObjectProperty = false.
Proof. unfold isinstance. by destruct (cls c). Qed.

Lemma not_setter_of_create c :
  isinstance c CreateObject = true → isinstance c AlterObjectProperty = false.
Proof. unfold isinstance. by destruct (cls c). Qed.

Lemma discard_plain h self command c s :
  h !! command = Some c → h !! self = Some s →
  isinstance c AlterObjectProperty = false →
  discard self command h =
    (Ok tt, <[self := with_before_ops (oset_discard command)
                (with_ops (oset_discard command) s)]> h).
Proof. intros Hc Hs Hk. by rewrite discard_eq, Hc, Hs, Hk. Qed.

Lemma not_elem_of_oset_discard x l : x ∉ oset_discard x l.
Proof. rewrite elem_of_oset_discard. by intros [_ ?]. Qed.

(** C7.  Applying a non-canonical Delete command with [if_unused] set
    to an object that has referrers returns the schema unchanged and
    raises nothing; the command is discarded from the command of the
    parent token (from both its [ops] and its [before_ops]), and without a
    parent token only its own [scls] is recorded.  The context is left as
    it was. *)
Theorem DeleteObject_apply_if_unused self schema st c o :
  heap st !! self = Some c →
  isinstance c DeleteObject = true →
  canonical c = false → if_unused c = true →
  schema_get schema (resolved_name st c) = Some o →
  get_referrers schema o ≠ [] →
  (∀ t, last (stack (context st)) = Some t → is_Some (heap st !! op t)) →
  ∃ st', DeleteObject_apply self schema st = (Ok schema, st')
    ∧ context st' = context st
    ∧ (∀ t, last (stack (context st)) = Some t →
         ∃ p, heap st' !! op t = Some p
              ∧ (self ∉ ops p) ∧ (self ∉ before_ops p))
    ∧ (last (stack (context st)) = None →
         heap st' = <[self := with_scls (Some o) c]> (heap st)).
Proof.
  intros Hc Hk Hcan Hunused Hget Hrefs Hvalid.
  unfold DeleteObject_apply, get_object.
  msimpl. rewrite (deref'_eq _ _ _ Hc). msimpl. rewrite Hget. msimpl.
  unfold set_scls. rewrite on_heap_eq, update_cmd_eq, Hc.
  msimpl. unfold new_context, with_context, push. msimpl. unfold finally.
  set (c1 := with_scls (Some o) c).
  set (st1 := mkState (<[self := c1]> (heap st)) (context st)).
  set (t := mkToken schema self (Some o)).
  set (st2 := with_stack (λ s, s ++ [t]) st1).
  assert (Hc2 : heap st2 !! self = Some c1) by apply lookup_insert_eq.
  msimpl. rewrite (deref'_eq _ _ _ Hc2). msimpl.
  replace (negb (canonical c1) && if_unused c1
           && negb (bool_decide (get_referrers schema o = [])))
    with true.
  2:{ simpl. rewrite Hcan, Hunused. simpl. by rewrite bool_decide_eq_false_2. }
  unfold discard_from_parent. msimpl.
  rewrite (parent_push st1 t : parent st2 = _).
  change (context st1) with (context st).
  assert (Hctx : ∀ h, context (with_stack pop_stack (mkState h (context st2)))
                      = context st).
  { intros h. simpl. rewrite pop_stack_push. by destruct st as [? []]. }
  destruct (last (stack (context st))) as [pt|] eqn:Hlast.
  - destruct (Hvalid pt eq_refl) as [p0 Hp0].
    assert (∃ p, heap st2 !! op pt = Some p) as [p Hp].
    { simpl. destruct (decide (op pt = self)) as [->|Hne].
      - rewrite lookup_insert_eq. by eexists.
      - rewrite lookup_insert_ne by done. by eexists. }
    rewrite on_heap_eq.
    rewrite (discard_plain _ _ _ _ _ Hc2 Hp)
      by (by apply not_setter_of_delete).
    msimpl. simpl fst. simpl snd. eexists.
    split; [reflexivity|]. split; [apply Hctx|]. split; [|done].
    intros ? [= <-]. eexists. split; [apply lookup_insert_eq|]. simpl.
    split; apply not_elem_of_oset_discard.
  - msimpl. eexists. split; [reflexivity|]. split; [apply Hctx|].
    split; [done|]. by intros _.
Qed.

Lemma command_for_ast_node_eq cls astnode schema st :
  (command_for_ast_node cls astnode schema st).1 =
    Ok (if sdl_alter_if_exists astnode
        then match schema_get schema (node_classname astnode) with
             | Some _ => AlterObject
             | None => cls
             end
        else cls).
Proof.
  unfold command_for_ast_node.
  destruct (sdl_alter_if_exists astnode); [|done].
  msimpl. rewrite on_heap_eq. unfold alloc. msimpl.
  unfold with_context, push, finally. msimpl.
  by destruct (schema_get schema (node_classname astnode)).
Qed.

(** C5, as amended.  [CreateObject.apply] of a command with
    [if_not_exists] set whose name already resolves returns the schema
    unchanged without creating or altering anything: it records the
    existing object as the command's [scls] and, when there is a parent
    token and the command is not canonical, discards the command from the
    parent's command; otherwise the store changes in that [scls] only.
    The switch to the Alter class is made by [command_for_ast_node] at
    dispatch, and there it depends on the node's [sdl_alter_if_exists]
    flag and on the name being in the schema, not on
    [create_if_not_exists]. *)
Theorem CreateObject_apply_if_not_exists self schema st c o :
  heap st !! self = Some c →
  isinstance c CreateObject = true →
  if_not_exists c = true →
  schema_get schema (resolved_name st c) = Some o →
  (∀ t, last (stack (context st)) = Some t → is_Some (heap st !! op t)) →
  (∃ st', CreateObject_apply self schema st = (Ok schema, st')
     ∧ context st' = context st
     ∧ (∃ c', heap st' !! self = Some c' ∧ scls c' = Some o)
     ∧ (∀ t, last (stack (context st)) = Some t → canonical c = false →
          ∃ p, heap st' !! op t = Some p
               ∧ (self ∉ ops p) ∧ (self ∉ before_ops p))
     ∧ (canonical c = true ∨ last (stack (context st)) = None →
          heap st' = <[self := with_scls (Some o) c]> (heap st)))
  ∧ ∀ cls astnode st0,
      (command_for_ast_node cls astnode schema st0).1 =
        Ok (if sdl_alter_if_exists astnode
            then match schema_get schema (node_classname astnode) with
                 | Some _ => AlterObject
                 | None => cls
                 end
            else cls).
Proof.
  intros Hc Hk Hine Hget Hvalid.
  split; [|intros; apply command_for_ast_node_eq].
  unfold CreateObject_apply, new_context, with_context, push. msimpl.
  unfold finally.
  set (t := mkToken schema self None).
  set (st2 := with_stack (λ s, s ++ [t]) st).
  assert (Hc2 : heap st2 !! self = Some c) by done.
  msimpl. rewrite (deref'_eq _ _ _ Hc2). msimpl. rewrite Hine.
  unfold get_object_default_none. msimpl.
  rewrite (deref'_eq _ _ _ Hc2). msimpl.
  change (resolved_name st2 c) with (resolved_name st c). rewrite Hget.
  msimpl. rewrite (parent_push st t : parent st2 = _).
  assert (Hctx : ∀ h, context (with_stack pop_stack (mkState h (context st2)))
                      = context st).
  { intros h. simpl. rewrite pop_stack_push. by destruct st as [? []]. }
  unfold set_scls.
  destruct (last (stack (context st))) as [pt|] eqn:Hlast;
    [destruct (canonical c) eqn:Hcan|].
  - (* canonical: nothing is discarded *)
    msimpl. rewrite on_heap_eq, update_cmd_eq, Hc2. msimpl. eexists.
    split; [reflexivity|]. split; [apply Hctx|]. cbn [heap].
    split; [eexists; split; [apply lookup_insert_eq | done]|].
    split; [done|]. by intros _.
  - destruct (Hvalid pt eq_refl) as [p Hp]. msimpl.
    rewrite on_heap_eq.
    rewrite (discard_plain _ _ _ _ _ Hc2 Hp)
      by (by apply not_setter_of_create).
    msimpl. rewrite on_heap_eq, update_cmd_eq. simpl heap.
    set (p1 := with_before_ops _ _).
    destruct (decide (op pt = self)) as [Heq|Hne].
    + rewrite Heq, lookup_insert_eq. msimpl. eexists.
      split; [reflexivity|]. split; [apply Hctx|]. cbn [heap].
      split; [eexists; split; [apply lookup_insert_eq | done]|]. split.
      * intros ? [= <-] _. rewrite Heq. eexists.
        split; [apply lookup_insert_eq|]. cbn [with_scls ops before_ops].
        split; apply not_elem_of_oset_discard.
      * by intros [|].
    + rewrite lookup_insert_ne, Hc by done. msimpl. eexists.
      split; [reflexivity|]. split; [apply Hctx|]. cbn [heap].
      split; [eexists; split; [apply lookup_insert_eq | done]|]. split.
      * intros ? [= <-] _. eexists. split.
        { unfold with_stack. cbn [heap].
          rewrite lookup_insert_ne by (by apply not_eq_sym).
          apply lookup_insert_eq. }
        split; apply not_elem_of_oset_discard.
      * by intros [|].
  - msimpl. rewrite on_heap_eq, update_cmd_eq, Hc2. msimpl. eexists.
    split; [reflexivity|]. split; [apply Hctx|]. cbn [heap].
    split; [eexists; split; [apply lookup_insert_eq | done]|].
    split; [done|]. by intros _.
Qed.

(** C6, as amended.  In the finalize phase of a Delete command, when
    the context is not canonical and dependency verification is neither
    disabled nor suspended, the operation fails with a dependency error if
    some referrer of the target is not being deleted in this context and
    is a blocking reference, and the error lists every such referrer;
    with no such referrer the object is removed from the schema.  When the
    context is canonical, or verification is disabled or suspended, the
    referrers are not looked at and the object is removed. *)
Theorem _delete_finalize_dependency_check self schema st c o t :
  heap st !! self = Some c → scls c = Some o →
  last (stack (context st)) = Some t →
  (context_canonical st = false →
   disable_dep_verification (context st) = false →
   _delete_finalize self schema st =
     (match blocking_refs st (original_schema t) schema o with
      | [] => Ok (schema_delete schema o)
      | _ :: _ =>
          Raise (dependency_error (original_schema t) o
                   (map (get_verbosename (original_schema t))
                      (blocking_refs st (original_schema t) schema o)))
      end, st))
  ∧ (context_canonical st = true
     ∨ disable_dep_verification (context st) = true →
     _delete_finalize self schema st = (Ok (schema_delete schema o), st))
  ∧ (∀ r, r ∈ blocking_refs st (original_schema t) schema o ↔
          r ∈ get_referrers schema o ∧ is_deleting st r = false
          ∧ is_blocking_ref (original_schema t) r o = true).
Proof.
  intros Hc Hscls Hlast. split; [|split].
  - intros Hcan Hdis. unfold _delete_finalize, self_scls. msimpl.
    rewrite (deref'_eq _ _ _ Hc). msimpl. rewrite Hscls. msimpl.
    rewrite Hcan, Hdis. cbn [negb andb]. msimpl.
    unfold current. rewrite Hlast. msimpl.
    destruct (blocking_refs st (original_schema t) schema o); by msimpl.
  - intros Hor. unfold _delete_finalize, self_scls. msimpl.
    rewrite (deref'_eq _ _ _ Hc). msimpl. rewrite Hscls. msimpl.
    replace (negb (context_canonical st)
             && negb (disable_dep_verification (context st))) with false.
    { by msimpl. }
    destruct Hor as [-> | ->]; [done|]. by rewrite andb_false_r.
  - intros r. unfold blocking_refs. rewrite list_elem_of_filter.
    rewrite andb_true_iff, negb_true_iff. tauto.
Qed.

End ShortCircuits.

Lemma DeleteObject_apply_if_unused_witness :
  ∃ st', DeleteObject_apply 1 pets_schema (below_root (delete_pet false))
         = (Ok pets_schema, st')
         ∧ ∃ p, heap st' !! 0 = Some p ∧ (1 ∉ ops p).
Proof.
  destruct (DeleteObject_apply_if_unused 1 pets_schema
              (below_root (delete_pet false)) (delete_pet false) 10)
    as (st' & Happly & _ & Hparent & _).
  - reflexivity.
  - reflexivity.
  - reflexivity.
  - reflexivity.
  - reflexivity.
  - discriminate.
  - intros t [= <-]. eexists. reflexivity.
  - exists st'. split; [exact Happly|].
    destruct (Hparent _ eq_refl) as (p & Hp & Hops & _). by exists p.
Defined.

Lemma CreateObject_apply_if_not_exists_witness :
  ∃ st', CreateObject_apply 1 pets_schema (below_root create_pet)
         = (Ok pets_schema, st')
         ∧ ∃ p, heap st' !! 0 = Some p ∧ (1 ∉ ops p).
Proof.
  destruct (CreateObject_apply_if_not_exists 1 pets_schema
              (below_root create_pet) create_pet 10)
    as [(st' & Happly & _ & _ & Hparent & _) _].
  - reflexivity.
  - reflexivity.
  - reflexivity.
  - reflexivity.
  - intros t [= <-]. eexists. reflexivity.
  - exists st'. split; [exact Happly|].
    destruct (Hparent _ eq_refl eq_refl) as (p & Hp & Hops & _). by exists p.
Defined.

(** C5, as stated, fails: a Create node with [create_if_not_exists] set
    (and [sdl_alter_if_exists] unset) whose name is in the schema keeps
    the Create class at dispatch, and applying the resulting command
    applies no other command: nothing is delegated to an Alter. *)
Lemma create_if_not_exists_is_no_alter :
  create_if_not_exists create_pet_node = true
  ∧ schema_get pets_schema (node_classname create_pet_node) = Some 10
  ∧ (command_for_ast_node CreateObject create_pet_node pets_schema
       (below_root create_pet)).1 = Ok CreateObject
  ∧ (command_for_ast_node CreateObject create_pet_node pets_schema
       (below_root create_pet)).1 ≠ Ok AlterObject
  ∧ ls_applied <$> (CreateObject_apply 1 pets_schema
                      (below_root create_pet)).1 = Ok [].
Proof.
  split; [reflexivity|]. split; [vm_compute; reflexivity|].
  split; [vm_compute; reflexivity|]. split; [vm_compute; discriminate|].
  vm_compute. reflexivity.
Qed.

Lemma _delete_finalize_dependency_check_witness :
  _delete_finalize 1 pets_schema (inside (delete_pet false))
  = (Raise (SchemaError
       "cannot drop object 'default::Pet' because other objects in the schema depend on it"
       "object 'default::Owner' depends on default::Pet"),
     inside (delete_pet false)).
Proof.
  destruct (_delete_finalize_dependency_check 1 pets_schema
              (inside (delete_pet false)) (delete_pet false) 10
              (mkToken pets_schema 1 (Some 10))) as [Hcheck _].
  - reflexivity.
  - reflexivity.
  - reflexivity.
  - rewrite Hcheck by reflexivity. reflexivity.
Defined.

(** C6, as stated, fails: with dependency verification enabled and a
    blocking referrer that is not being deleted, a canonical Delete
    command removes the object without an error. *)
Lemma canonical_delete_skips_dependency_check :
  disable_dep_verification (context (inside (delete_pet true))) = false
  ∧ blocking_refs (inside (delete_pet true)) pets_schema pets_schema 10 = [11]
  ∧ (_delete_finalize 1 pets_schema (inside (delete_pet true))).1
    = Ok (schema_delete pets_schema 10).
Proof. repeat split; vm_compute; reflexivity. Qed.

(** ** The rename cascade *)

Section HeapFrames.
Implicit Types (h : Heap) (self command : ref).

Lemma unchanged_on_refl h : unchanged_on h h.
Proof. by intros r c. Qed.

Lemma unchanged_on_trans h1 h2 h3 :
  unchanged_on h1 h2 → unchanged_on h2 h3 → unchanged_on h1 h3.
Proof. intros H12 H23 r c Hr. by apply H23, H12. Qed.

Lemma unchanged_on_insert_fresh h0 h r c :
  h0 !! r = None → unchanged_on h0 h → unchanged_on h0 (<[r := c]> h).
Proof.
  intros Hr H0 x cx Hx. rewrite lookup_insert_ne; [by apply H0|].
  intros ->. congruence.
Qed.

Lemma unchanged_on_others h0 h h' r :
  h0 !! r = None → unchanged_on h0 h →
  (∀ x, x ≠ r → h' !! x = h !! x) → unchanged_on h0 h'.
Proof.
  intros Hr H0 Hoth x cx Hx. rewrite Hoth; [by apply H0|].
  intros ->. congruence.
Qed.

Lemma fresh_lookup h : h !! fresh (dom h) = None.
Proof. apply not_elem_of_dom, is_fresh. Qed.

Lemma alloc_eq c h :
  alloc c h = (Ok (fresh (dom h)), <[fresh (dom h) := c]> h).
Proof. reflexivity. Qed.

Lemma update_cmd_others r f h x :
  x ≠ r → (update_cmd r f h).2 !! x = h !! x.
Proof.
  intros Hx. rewrite update_cmd_eq. destruct (h !! r); [|done].
  simpl. by rewrite lookup_insert_ne.
Qed.

Lemma for_each_others {A} (f : A → M Heap unit) (l : list A) self h x :
  (∀ a h', (f a h').2 !! x = h' !! x) →
  (for_each f l h).2 !! x = h !! x.
Proof.
  intros Hf. revert h. induction l as [|a l IH]; intros h; [done|].
  simpl. rewrite bind_eq. pose proof (Hf a h) as Ha.
  destruct (f a h) as [[[]|e|] h1]; simpl in Ha |- *; [|done..].
  by rewrite IH.
Qed.

(** [add] changes the command it is called on and no other. *)
Lemma add_others fuel self command h x :
  x ≠ self → (add fuel self command h).2 !! x = h !! x.
Proof.
  intros Hx. revert command h.
  induction fuel as [|fuel IH]; intros command h; [done|].
  rewrite add_eq. destruct (h !! command) as [c|]; [|done].
  destruct (isinstance c CommandGroup).
  { apply (for_each_others _ _ self). intros a h'. apply IH. }
  destruct (isinstance c AlterObjectProperty).
  - rewrite bind_eq.
    pose proof (update_cmd_others self
                  (with_attrs (<[property c := command]>)) h x Hx) as H1.
    destruct (update_cmd self _ h) as [[[]|e|] h1]; simpl in H1 |- *;
      [|done..].
    by rewrite update_cmd_others.
  - by apply update_cmd_others.
Qed.

Lemma update_others fuel self commands h x :
  x ≠ self → (update fuel self commands h).2 !! x = h !! x.
Proof.
  intros Hx. apply (for_each_others _ _ self). intros a h'.
  by apply add_others.
Qed.

(** Adding a command that is neither a group nor a setter appends it to
    [ops]. *)
Lemma add_plain fuel self command h c s :
  h !! command = Some c → h !! self = Some s →
  isinstance c CommandGroup = false →
  isinstance c AlterObjectProperty = false →
  add (S fuel) self command h
  = (Ok tt, <[self := with_ops (oset_add command) s]> h).
Proof.
  intros Hc Hs Hg Hk. by rewrite add_eq, Hc, Hg, Hk, update_cmd_eq, Hs.
Qed.

End HeapFrames.

Section SetAttribute.
Implicit Types (h : Heap) (self : ref).

Lemma with_values_id o ov v :
  old_value o = ov → new_value o = v →
  with_values ov v (source o) o = o.
Proof. destruct o. simpl. by intros <- <-. Qed.

(** The first [set_attribute_value] of an attribute allocates its
    setter and adds it to the command. *)
Lemma set_attribute_value_fresh h self c a v ov :
  h !! self = Some c → _attrs c !! a = None → ov ≠ VNone →
  set_attribute_value self a v ov false h
  = (Ok tt,
     <[self := with_ops (oset_add (fresh (dom h)))
                 (with_attrs (<[a := fresh (dom h)]>) c)]>
       (<[fresh (dom h) :=
            mkCommand AlterObjectProperty false [] [] ∅ "" None false false
              "" a ov v None]> h)).
Proof.
  intros Hc Ha Hov. unfold set_attribute_value, get_attribute_set_cmd.
  msimpl. unfold deref. rewrite Hc. msimpl. rewrite Ha.
  msimpl. rewrite alloc_eq. msimpl.
  rewrite decide_False by done.
  rewrite update_cmd_eq, lookup_insert_eq, insert_insert_eq. msimpl.
  cbn [with_values cls canonical ops before_ops _attrs classname scls
         if_not_exists if_unused new_name property old_value new_value
         source].
  assert (Hne : fresh (dom h) ≠ self).
  { intros Heq. pose proof (fresh_lookup h) as Hf. rewrite Heq in Hf.
    congruence. }
  erewrite add_setter; cycle 1.
  { by rewrite lookup_insert_ne. }
  { apply lookup_insert_eq. }
  { reflexivity. }
  reflexivity.
Qed.

(** A later [set_attribute_value] updates the values of the setter. *)
Lemma set_attribute_value_existing h self c a r0 o v ov :
  h !! self = Some c → _attrs c !! a = Some r0 → h !! r0 = Some o →
  ov ≠ VNone →
  set_attribute_value self a v ov false h
  = (Ok tt, <[r0 := with_values ov v (source o) o]> h).
Proof.
  intros Hc Ha Ho Hov. unfold set_attribute_value, get_attribute_set_cmd.
  msimpl. unfold deref. rewrite Hc. msimpl. rewrite Ha.
  msimpl. rewrite update_cmd_eq, Ho. msimpl.
  rewrite decide_False by done.
  by rewrite update_cmd_eq, lookup_insert_eq, insert_insert_eq.
Qed.

Lemma set_attribute_value_stuck h self c a r0 v ov r h' :
  h !! self = Some c → _attrs c !! a = Some r0 → h !! r0 = None →
  set_attribute_value self a v ov false h = (r, h') → r = Stuck.
Proof.
  intros Hc Ha Ho. unfold set_attribute_value, get_attribute_set_cmd.
  msimpl. unfold deref. rewrite Hc. msimpl. rewrite Ha.
  msimpl. rewrite update_cmd_eq, Ho. by intros [= <- <-].
Qed.

Lemma name_recorded_idem h self c :
  h !! self = Some c → name_recorded h self →
  set_attribute_value self "name" (VStr (new_name c)) (VStr (classname c))
    false h = (Ok tt, h).
Proof.
  intros Hc (c' & r0 & o & Hc' & Ha & Ho & Hnew & Hold).
  assert (c' = c) as -> by congruence.
  erewrite set_attribute_value_existing; [|done..].
  by rewrite with_values_id, insert_id.
Qed.

(** After [set_attribute_value] of the name: the name is recorded, every
    earlier command is still there with its flags, and [self] keeps its
    fields other than the sub-command sets and the values. *)
Lemma set_attribute_value_name h self c h1 :
  h !! self = Some c →
  set_attribute_value self "name" (VStr (new_name c)) (VStr (classname c))
    false h = (Ok tt, h1) →
  name_recorded h1 self
  ∧ (∀ r cr, h !! r = Some cr →
       ∃ cr', h1 !! r = Some cr' ∧ canonical cr' = canonical cr
              ∧ scls cr' = scls cr)
  ∧ (∀ r, h !! r = None → h1 !! r = None ∨ r = fresh (dom h)).
Proof.
  intros Hc Hsav. destruct (_attrs c !! "name") as [r0|] eqn:Ha.
  - destruct (h !! r0) as [o|] eqn:Ho.
    2:{ by apply (set_attribute_value_stuck _ _ _ _ _ _ _ _ _ Hc Ha Ho)
          in Hsav. }
    erewrite set_attribute_value_existing in Hsav; [|done..].
    injection Hsav as <-. split; [|split].
    + destruct (decide (r0 = self)) as [->|Hne].
      * assert (o = c) as -> by congruence.
        eexists _, self, _. rewrite lookup_insert_eq.
        split; [done|]. by split.
      * exists c, r0, (with_values (VStr (classname c)) (VStr (new_name c))
                         (source o) o).
        rewrite lookup_insert_ne, lookup_insert_eq by done. done.
    + intros r cr Hr. destruct (decide (r = r0)) as [->|Hne].
      * rewrite lookup_insert_eq. eexists. split; [done|].
        assert (cr = o) as -> by congruence. done.
      * rewrite lookup_insert_ne by done. by exists cr.
    + intros r Hr. left. rewrite lookup_insert_ne; [done|]. congruence.
  - erewrite set_attribute_value_fresh in Hsav; [|done..].
    injection Hsav as <-.
    assert (Hne : fresh (dom h) ≠ self).
    { intros Heq. pose proof (fresh_lookup h) as Hf. rewrite Heq in Hf.
      congruence. }
    split; [|split].
    + eexists _, (fresh (dom h)), _. rewrite lookup_insert_eq.
      split; [done|]. cbn [with_ops with_attrs _attrs].
      rewrite lookup_insert_eq. split; [done|].
      rewrite lookup_insert_ne, lookup_insert_eq by done. done.
    + intros r cr Hr. destruct (decide (r = self)) as [->|Hrs].
      * rewrite lookup_insert_eq. eexists. split; [done|].
        assert (cr = c) as -> by congruence. done.
      * rewrite lookup_insert_ne by done.
        rewrite lookup_insert_ne; [by exists cr|].
        intros <-. pose proof (fresh_lookup h). congruence.
    + intros r Hr. destruct (decide (r = fresh (dom h))) as [->|Hrf];
        [by right|left].
      rewrite lookup_insert_ne by congruence.
      by rewrite lookup_insert_ne.
Qed.

End SetAttribute.

Section RenameCascade.
Context {Schema : Type} `{!SchemaStore Schema} `{!Externals Schema}.
Implicit Types (st : State Schema) (schema : Schema) (self : ref).

Lemma bind_ok {S A B} (m : M S A) (k : A → M S B) s b s2 :
  bind m k s = (Ok b, s2) →
  ∃ a s1, m s = (Ok a, s1) ∧ k a s1 = (Ok b, s2).
Proof.
  rewrite bind_eq. destruct (m s) as [[a|e|] s1]; [|done..]. by exists a, s1.
Qed.

Lemma on_heap_ok {A} (m : M Heap A) st a st' :
  on_heap m st = (Ok a, st') →
  ∃ h', m (heap st) = (Ok a, h') ∧ st' = mkState h' (context st).
Proof.
  rewrite on_heap_eq. destruct (m (heap st)) as [r h'].
  intros [= -> <-]. by exists h'.
Qed.

Lemma with_context_ok {A} t (body : M (State Schema) A) st a st' :
  with_context t body st = (Ok a, st') →
  ∃ st2, body (with_stack (λ s, s ++ [t]) st) = (Ok a, st2)
         ∧ st' = with_stack pop_stack st2.
Proof.
  unfold with_context, push. msimpl. unfold finally.
  destruct (body _) as [r st2]. intros [= -> <-]. by exists st2.
Qed.

Lemma deref'_ok r st c st' :
  deref' r st = (Ok c, st') → st' = st ∧ heap st !! r = Some c.
Proof.
  unfold deref'. rewrite on_heap_eq. unfold deref.
  destruct (heap st !! r); [|done]. intros [= -> <-]. by destruct st.
Qed.

Lemma cascade_frame_refl st : cascade_frame st st.
Proof. split; [done | apply unchanged_on_refl]. Qed.

Lemma cascade_frame_trans st1 st2 st3 :
  cascade_frame st1 st2 → cascade_frame st2 st3 → cascade_frame st1 st3.
Proof.
  intros [H1 H2] [H3 H4]. split; [congruence|].
  by eapply unchanged_on_trans.
Qed.

Lemma is_alter_unchanged h h' x :
  unchanged_on h h' → is_alter h x → is_alter h' x.
Proof. intros Hu (cx & Hx & Hk). exists cx. split; [by apply Hu | done]. Qed.

Lemma collect_frame {A} (f : A → M (State Schema) ref) (l : list A)
    st cmds st' :
  (∀ x st0 a st1, f x st0 = (Ok a, st1) →
     cascade_frame st0 st1 ∧ is_alter (heap st1) a) →
  collect f l st = (Ok cmds, st') →
  cascade_frame st st' ∧ Forall (is_alter (heap st')) cmds.
Proof.
  intros Hf. revert st cmds st'.
  induction l as [|x l IH]; intros st cmds st' Hrun.
  - injection Hrun as <- <-. split; [apply cascade_frame_refl | constructor].
  - simpl in Hrun. apply bind_ok in Hrun as (a & st1 & Hx & Hrun).
    apply bind_ok in Hrun as (ys & st2 & Hl & Hrun).
    injection Hrun as <- <-.
    destruct (Hf _ _ _ _ Hx) as [F1 A1]. destruct (IH _ _ _ Hl) as [F2 A2].
    split; [by eapply cascade_frame_trans|]. constructor; [|done].
    eapply is_alter_unchanged; [apply F2 | done].
Qed.

(** [add] keeps the class of the command it is called on. *)
Lemma add_keeps_class fuel self command h s :
  h !! self = Some s →
  ∃ s', (add fuel self command h).2 !! self = Some s' ∧ cls s' = cls s.
Proof.
  revert command h s. induction fuel as [|fuel IH]; intros command h s Hs.
  { by exists s. }
  rewrite add_eq. destruct (h !! command) as [c|]; [|by exists s].
  destruct (isinstance c CommandGroup).
  { generalize (get_subcommands c). intros l. revert h s Hs.
    induction l as [|x l IHl]; intros h s Hs; [by exists s|].
    simpl. rewrite bind_eq. destruct (IH x h s Hs) as (s1 & Hs1 & Hk1).
    destruct (add fuel self x h) as [[[]|e|] h1]; simpl in Hs1;
      [|by exists s1..].
    destruct (IHl h1 s1 Hs1) as (s2 & Hs2 & Hk2). exists s2.
    split; [done | congruence]. }
  destruct (isinstance c AlterObjectProperty).
  - rewrite bind_eq, update_cmd_eq, Hs, update_cmd_eq, lookup_insert_eq,
      insert_insert_eq. simpl. rewrite lookup_insert_eq. by eexists.
  - rewrite update_cmd_eq, Hs. simpl. rewrite lookup_insert_eq. by eexists.
Qed.

Lemma unchanged_on_None h0 h r :
  unchanged_on h0 h → h !! r = None → h0 !! r = None.
Proof.
  intros Hu Hr. destruct (h0 !! r) as [c|] eqn:H0; [|done].
  apply Hu in H0. congruence.
Qed.

Lemma RenameObject_canonicalize_frame fuel self schema o st cmds st' :
  RenameObject_canonicalize fuel self schema o st = (Ok cmds, st') →
  cascade_frame st st'
  ∧ get_value st' ("renamecanon", self) = VBool true
  ∧ Forall (is_alter (heap st')) cmds.
Proof.
  revert self o st cmds st'.
  induction fuel as [|fuel IH]; intros self o st cmds st' Hrun; [done|].
  simpl in Hrun. apply bind_ok in Hrun as (cs & st1 & Hloop & Hrun).
  apply bind_ok in Hrun as ([] & st2 & Hstore & Hret).
  injection Hret as <- <-. injection Hstore as <-.
  apply collect_frame in Hloop as [F A].
  { split; [|split].
    - destruct F as [F1 F2]. by split.
    - unfold get_value, with_values_store. simpl.
      by rewrite lookup_insert_eq.
    - done. }
  clear Hloop. clear dependent st. clear dependent st1.
  intros ref_ st alter st' Hbody.
  apply bind_ok in Hbody as (c & st0 & Hc & Hbody).
  apply deref'_ok in Hc as [-> Hc].
  apply bind_ok in Hbody as (a & st1 & Ha & Hbody).
  apply on_heap_ok in Ha as (h1 & Ha & ->). rewrite alloc_eq in Ha.
  injection Ha as <- <-.
  apply bind_ok in Hbody as (r & st2 & Hr & Hbody).
  apply on_heap_ok in Hr as (h2 & Hr & ->). rewrite alloc_eq in Hr.
  injection Hr as <- <-. cbn [heap context] in Hbody.
  set (h0 := heap st) in *. set (a := fresh (dom h0)) in *.
  set (initA := init_delta_command AlterObject _ _) in *.
  set (h1 := <[a := initA]> h0) in *. set (r := fresh (dom h1)) in *.
  set (initR := init_delta_command RenameObject _ _) in *.
  set (h2 := <[r := initR]> h1) in *.
  assert (Ha0 : h0 !! a = None) by apply fresh_lookup.
  assert (Hr1 : h1 !! r = None) by apply fresh_lookup.
  assert (U1 : unchanged_on h0 h1)
    by (apply unchanged_on_insert_fresh; [done | apply unchanged_on_refl]).
  assert (Hr0 : h0 !! r = None) by by eapply unchanged_on_None.
  assert (U2 : unchanged_on h0 h2) by by apply unchanged_on_insert_fresh.
  assert (Har : a ≠ r).
  { intros Heq. unfold h1 in Hr1. rewrite <- Heq, lookup_insert_eq in Hr1.
    done. }
  apply bind_ok in Hbody as ([] & st3 & Hsav & Hbody).
  apply on_heap_ok in Hsav as (h3 & Hsav & ->).
  erewrite set_attribute_value_fresh in Hsav;
    [|apply lookup_insert_eq|done|done].
  injection Hsav as <-. cbn [heap context] in Hbody.
  set (r0 := fresh (dom h2)) in *.
  assert (Hr02 : h2 !! r0 = None) by apply fresh_lookup.
  assert (Hr00 : h0 !! r0 = None) by by eapply unchanged_on_None.
  assert (Har0 : a ≠ r0).
  { intros Heq. unfold h2, h1 in Hr02.
    rewrite <- Heq, lookup_insert_ne, lookup_insert_eq in Hr02 by done.
    done. }
  set (h3 := <[r := _]> (<[r0 := _]> h2)) in *.
  assert (U3 : unchanged_on h0 h3)
    by (do 2 (apply unchanged_on_insert_fresh; [done|]); done).
  assert (Ha3 : h3 !! a = Some initA).
  { unfold h3, h2, h1.
    rewrite !lookup_insert_ne by done. apply lookup_insert_eq. }
  apply bind_ok in Hbody as ([] & st4 & Hwith & Hbody).
  apply with_context_ok in Hwith as (st3b & Hwith & ->).
  apply bind_ok in Hwith as (sub & st3a & Hsub & Hupd).
  apply IH in Hsub as ([S1 S2] & _ & _).
  apply on_heap_ok in Hupd as (h3b & Hupd & ->).
  cbn [heap context with_stack stack] in *.
  assert (U4 : unchanged_on h0 h3b).
  { eapply (unchanged_on_others h0 (heap st3a) h3b r); [done| |].
    - by eapply unchanged_on_trans.
    - intros x Hx. pose proof (update_others 1 r sub (heap st3a) x Hx) as Ho.
      by rewrite Hupd in Ho. }
  assert (Ha4 : h3b !! a = Some initA).
  { pose proof (update_others 1 r sub (heap st3a) a Har) as Ho.
    rewrite Hupd in Ho. simpl in Ho. rewrite Ho. by apply S2. }
  apply bind_ok in Hbody as ([] & st5 & Hcan & Hbody).
  apply on_heap_ok in Hcan as (h5 & Hcan & ->).
  cbn [heap context with_stack stack] in *.
  rewrite update_cmd_eq, Ha4 in Hcan.
  injection Hcan as <-.
  apply bind_ok in Hbody as ([] & st6 & Hadd & Hret).
  apply on_heap_ok in Hadd as (h6 & Hadd & ->).
  injection Hret as <- <-. cbn [heap context with_stack stack] in *.
  set (h5 := <[a := with_canonical true initA]> h3b) in *.
  change (add 1 a r h5 = (Ok tt, h6)) in Hadd.
  split; [split|].
  - rewrite S1, pop_stack_push. done.
  - eapply (unchanged_on_others h0 h5 h6 a); [done| |].
    + by apply unchanged_on_insert_fresh.
    + intros x Hx. pose proof (add_others 1 a r h5 x Hx) as Ho.
      by rewrite Hadd in Ho.
  - destruct (add_keeps_class 1 a r h5 (with_canonical true initA))
      as (s' & Hs' & Hk); [apply lookup_insert_eq|].
    rewrite Hadd in Hs'. by exists s'.
Qed.

Lemma state_eta st : mkState (heap st) (context st) = st.
Proof. by destruct st. Qed.

Lemma with_ops_with_ops f g s :
  with_ops f (with_ops g s) = with_ops (f ∘ g) s.
Proof. by destruct s. Qed.

(** Adding Alter commands appends them to [ops] and changes nothing
    else. *)
Lemma update_alters n self cmds h s :
  Forall (is_alter h) cmds → h !! self = Some s →
  ∃ f, update (S n) self cmds h = (Ok tt, <[self := with_ops f s]> h).
Proof.
  revert h s. induction cmds as [|x cmds IH]; intros h s Hall Hs.
  - exists id. unfold update. simpl. unfold ret.
    rewrite insert_id; [done|]. rewrite Hs. by destruct s.
  - inversion Hall as [|? ? (cx & Hx & Hk) Hrest]; subst.
    unfold update. cbn [for_each]. rewrite bind_eq.
    rewrite (add_plain n self x h cx s Hx Hs)
      by (unfold isinstance; by rewrite Hk).
    set (h' := <[self := with_ops (oset_add x) s]> h).
    destruct (IH h' (with_ops (oset_add x) s)) as (f & Hf).
    + eapply Forall_impl; [exact Hrest|]. intros y (cy & Hy & Hky).
      destruct (decide (y = self)) as [->|Hne].
      * eexists. unfold h'. rewrite lookup_insert_eq. split; [done|].
        simpl. congruence.
      * exists cy. unfold h'. by rewrite lookup_insert_ne.
    + apply lookup_insert_eq.
    + exists (f ∘ oset_add x). unfold update in Hf. rewrite Hf.
      unfold h'. by rewrite insert_insert_eq, with_ops_with_ops.
Qed.

Lemma context_canonical_ext st st' :
  stack (context st') = stack (context st) →
  (∀ t, t ∈ stack (context st) →
     ∃ c c', heap st !! op t = Some c ∧ heap st' !! op t = Some c'
             ∧ canonical c' = canonical c) →
  context_canonical st' = context_canonical st.
Proof.
  unfold context_canonical. intros ->.
  induction (stack (context st)) as [|t l IH]; intros Hall; [done|].
  simpl. destruct (Hall t) as (c & c' & -> & -> & ->); [by left|].
  f_equal. apply IH. intros t' Ht'. apply Hall. by right.
Qed.

(** C8.  The block of [_rename_begin] that builds the rename cascade is
    guarded by the entry [('renamecanon', command)] of the context's
    value store, which [_canonicalize] sets: once the block has run for a
    command, running it again for that command in the same context
    leaves the store of commands and the context exactly as they are, so
    the cascade is built at most once per command. *)
Theorem rename_cascade_once fuel fuel' self schema schema' st st1 :
  stack_valid st →
  rename_cascade fuel self schema st = (Ok tt, st1) →
  rename_cascade fuel' self schema' st1 = (Ok tt, st1)
  ∧ (context_canonical st = false →
     truthy (get_value st1 ("renamecanon", self)) = true).
Proof.
  intros Hvalid Hrun. unfold rename_cascade in Hrun.
  apply bind_ok in Hrun as (st0 & st0' & Hget & Hrun).
  injection Hget as <- <-.
  destruct (context_canonical st) eqn:Hcan.
  { injection Hrun as <-. split; [|done].
    unfold rename_cascade. msimpl. by rewrite Hcan. }
  apply bind_ok in Hrun as (c & st0 & Hc & Hrun).
  apply deref'_ok in Hc as [-> Hc].
  apply bind_ok in Hrun as ([] & sta & Hsav & Hrun).
  apply on_heap_ok in Hsav as (h1 & Hsav & ->).
  destruct (set_attribute_value_name _ _ _ _ Hc Hsav)
    as (Hrec & Hkept & _).
  apply bind_ok in Hrun as (st0 & st0' & Hget & Hrun).
  injection Hget as <- <-.
  set (sta := mkState h1 (context st)) in *.
  (* what a second run needs of the state it starts from *)
  assert (Hagain : ∀ st2,
    context_canonical st2 = false →
    name_recorded (heap st2) self →
    truthy (get_value st2 ("renamecanon", self)) = true →
    rename_cascade fuel' self schema' st2 = (Ok tt, st2)).
  { intros st2 Hcan2 Hrec2 Hguard2. unfold rename_cascade. msimpl.
    rewrite Hcan2. destruct Hrec2 as (c2 & r0 & o2 & Hc2 & Hrest).
    msimpl. rewrite (deref'_eq _ _ _ Hc2). msimpl.
    rewrite on_heap_eq.
    rewrite (name_recorded_idem (heap st2) self c2 Hc2)
      by (by exists c2, r0, o2).
    msimpl. rewrite state_eta. by rewrite Hguard2. }
  assert (Hcana : context_canonical sta = false).
  { rewrite <- Hcan. apply context_canonical_ext; [done|].
    intros t Ht. destruct (Hvalid t Ht) as [ct Hct].
    destruct (Hkept _ _ Hct) as (ct' & Hct' & Hk & _). by exists ct, ct'. }
  destruct (truthy (get_value sta ("renamecanon", self))) eqn:Hguard.
  { injection Hrun as <-. split; [|done]. by apply Hagain. }
  apply bind_ok in Hrun as (o & st0 & Hscls & Hrun).
  unfold self_scls in Hscls.
  apply bind_ok in Hscls as (ca & st0' & Hca & Hscls).
  apply deref'_ok in Hca as [-> Hca].
  destruct (scls ca); [|done]. injection Hscls as <- <-.
  apply bind_ok in Hrun as (cmds & stb & Hcanon & Hupd).
  apply RenameObject_canonicalize_frame in Hcanon
    as ([Hstack Hunch] & Hset & Halters).
  apply on_heap_ok in Hupd as (hc & Hupd & ->).
  destruct (update_alters 0 self cmds (heap stb) ca Halters)
    as (f & Hf); [by apply Hunch|].
  rewrite Hf in Hupd. injection Hupd as <-.
  assert (Hguard1 : truthy (get_value
            (mkState (<[self := with_ops f ca]> (heap stb)) (context stb))
            ("renamecanon", self)) = true).
  { unfold get_value in Hset |- *. cbn [context]. by rewrite Hset. }
  change (h1 !! self = Some ca) in Hca.
  split; [|done]. apply Hagain; [| |done].
  - rewrite <- Hcana. apply context_canonical_ext; [done|].
    intros t Ht. cbn [context heap] in Ht |- *.
    destruct (Hvalid t Ht) as [ct Hct].
    destruct (Hkept _ _ Hct) as (ct' & Hct' & Hk & _).
    destruct (decide (op t = self)) as [Heq|Hne].
    + rewrite Heq in *. rewrite lookup_insert_eq. exists ct', (with_ops f ca).
      split; [done|]. split; [done|].
      assert (ct' = ca) as -> by congruence. done.
    + rewrite lookup_insert_ne by done. exists ct', ct'.
      split; [done|]. split; [by apply Hunch | done].
  - destruct Hrec as (c1 & r0 & o1 & Hc1 & Hattr & Ho1 & Hnew & Hold).
    cbn [heap] in *. assert (c1 = ca) as -> by congruence.
    destruct (decide (r0 = self)) as [->|Hne].
    + assert (o1 = ca) as -> by congruence.
      exists (with_ops f ca), self, (with_ops f ca).
      rewrite lookup_insert_eq. done.
    + exists (with_ops f ca), r0, o1.
      rewrite lookup_insert_eq, lookup_insert_ne by done.
      split; [done|]. split; [done|]. split; [by apply Hunch | done].
Qed.

End RenameCascade.

Lemma rename_cascade_once_witness :
  ∃ st1, rename_cascade 2 1 owner_schema renaming_state = (Ok tt, st1)
         ∧ rename_cascade 2 1 owner_schema st1 = (Ok tt, st1).
Proof.
  assert (Hok : (rename_cascade 2 1 owner_schema renaming_state).1 = Ok tt)
    by (vm_compute; reflexivity).
  destruct (rename_cascade 2 1 owner_schema renaming_state) as [r st1] eqn:E.
  simpl in Hok. subst r. exists st1. split; [reflexivity|].
  apply (rename_cascade_once 2 2 1 owner_schema owner_schema
           renaming_state st1); [|exact E].
  intros t Ht. apply list_elem_of_singleton in Ht as ->.
  eexists. reflexivity.
Defined.

(** The first run adds the setter of the name and one Alter command for
    the owned property to the Rename command. *)
Example rename_cascade_builds_commands :
  (ops <$> heap (rename_cascade 2 1 owner_schema renaming_state).2 !! 1)
  = Some [2; 3].
Proof. vm_compute. reflexivity. Qed.

(** ** Stable sorting *)

Section StableSort.
Context {A : Type} (lt : A → A → bool).
Hypothesis lt_asym : ∀ a b, lt a b = true → lt b a = false.
Hypothesis le_trans :
  ∀ a b c, lt b a = false → lt c b = false → lt c a = false.

Lemma insert_sorted_perm x l : insert_sorted lt x l ≡ₚ x :: l.
Proof using Type.
  induction l as [|y l IH]; simpl; [done|].
  destruct (lt y x); [|done]. rewrite IH. apply Permutation_swap.
Qed.

Lemma stable_sort_perm l : stable_sort lt l ≡ₚ l.
Proof using Type.
  induction l as [|x l IH]; simpl; [done|].
  by rewrite insert_sorted_perm, IH.
Qed.

Lemma insert_sorted_sorted x l :
  StronglySorted (λ a b, lt b a = false) l →
  StronglySorted (λ a b, lt b a = false) (insert_sorted lt x l).
Proof using lt_asym le_trans.
  induction 1 as [|y l Hl IH Hy]; simpl.
  - repeat constructor.
  - destruct (lt y x) eqn:Hyx.
    + constructor; [done|]. rewrite insert_sorted_perm.
      constructor; [by apply lt_asym | done].
    + constructor; [by constructor|]. constructor; [done|].
      eapply Forall_impl; [exact Hy|]. intros z Hz. simpl in Hz.
      by apply (le_trans x y z).
Qed.

Lemma stable_sort_sorted l :
  StronglySorted (λ a b, lt b a = false) (stable_sort lt l).
Proof using lt_asym le_trans.
  induction l as [|x l IH]; simpl; [constructor|].
  by apply insert_sorted_sorted.
Qed.

End StableSort.

Lemma StronglySorted_impl {A} (R R' : A → A → Prop) l :
  (∀ a b, R a b → R' a b) → StronglySorted R l → StronglySorted R' l.
Proof.
  intros HR. induction 1 as [|x l Hl IH Hx]; constructor; [done|].
  eapply Forall_impl; [exact Hx|]. intros y. apply HR.
Qed.

(** ** The order of names *)

Lemma str_lt_trans a b c : str_lt a b → str_lt b c → str_lt a c.
Proof.
  unfold str_lt. intros Hab Hbc.
  apply OrderedTypeEx.String_as_OT.cmp_lt.
  eapply OrderedTypeEx.String_as_OT.lt_trans;
    by apply OrderedTypeEx.String_as_OT.cmp_lt.
Qed.

Lemma str_lt_irrefl a : ¬ str_lt a a.
Proof.
  unfold str_lt. intros Hlt.
  assert (Heq : String.compare a a = Eq)
    by by apply OrderedTypeEx.String_as_OT.cmp_eq.
  congruence.
Qed.

Lemma str_trichotomy a b : str_lt a b ∨ a = b ∨ str_lt b a.
Proof.
  unfold str_lt. destruct (String.compare a b) eqn:Hc.
  - right. left. by apply String.compare_eq_iff.
  - by left.
  - right. right. by rewrite String.compare_antisym, Hc.
Qed.

Lemma str_lt_asym a b : str_lt a b → ¬ str_lt b a.
Proof. intros Hab Hba. by apply (str_lt_irrefl a), (str_lt_trans a b a). Qed.

Lemma ltb_str_lt a b : String.ltb a b = true ↔ str_lt a b.
Proof.
  unfold String.ltb, str_lt. by destruct (String.compare a b).
Qed.

Lemma ltb_false_str_le a b : String.ltb a b = false ↔ str_le b a.
Proof.
  rewrite <- not_true_iff_false, ltb_str_lt. unfold str_le. split.
  - intros Hn. destruct (str_trichotomy a b) as [?|[->|?]]; tauto.
  - intros [Hlt| ->]; [by apply str_lt_asym | apply str_lt_irrefl].
Qed.

Lemma str_le_trans a b c : str_le a b → str_le b c → str_le a c.
Proof.
  intros [Hab| ->] [Hbc| ->]; [left|by left|by left|by right].
  by apply (str_lt_trans a b c).
Qed.

(** ** The modelled topological sort *)

Lemma assoc_Some {A} (l : list (nat * A)) o v :
  assoc l o = Some v → o ∈ map fst l.
Proof.
  induction l as [|[k w] l IH]; simpl; [done|].
  destruct (decide (k = o)) as [->|Hne]; [by left|].
  intros Hl. right. by apply IH.
Qed.

Lemma assoc_is_Some {A} (l : list (nat * A)) o :
  o ∈ map fst l → is_Some (assoc l o).
Proof.
  induction l as [|[k w] l IH]; simpl; [by intros ?%elem_of_nil|].
  intros [->|Hin]%elem_of_cons; [by rewrite decide_True|].
  destruct (decide (k = o)); [done | by apply IH].
Qed.

Lemma foldl_keeps {A B} (f : list A → B → list A) (P : list A → Prop)
    (l : list B) acc :
  (∀ acc b, P acc → P (f acc b)) → P acc → P (foldl f acc l).
Proof.
  intros Hf. revert acc. induction l as [|b l IH]; intros acc Hacc; [done|].
  simpl. by apply IH, Hf.
Qed.

Lemma topo_visit_mono fuel graph visiting sorted item z :
  z ∈ sorted → z ∈ topo_visit fuel graph visiting sorted item.
Proof.
  revert visiting sorted item.
  induction fuel as [|fuel IH]; intros visiting sorted item Hz; [done|].
  simpl. case_decide; [done|].
  destruct (assoc graph item) as [deps|]; [|done].
  apply elem_of_app. left.
  apply (foldl_keeps _ (λ acc, z ∈ acc)); [|done].
  intros acc d Hacc. by apply IH.
Qed.

Lemma topo_visit_items fuel graph visiting sorted item z :
  z ∈ topo_visit fuel graph visiting sorted item →
  z ∈ sorted ∨ z ∈ map fst graph.
Proof.
  revert visiting sorted item.
  induction fuel as [|fuel IH]; intros visiting sorted item; [by left|].
  simpl. case_decide; [by left|].
  destruct (assoc graph item) as [deps|] eqn:Hitem; [|by left].
  rewrite elem_of_app, list_elem_of_singleton.
  intros [Hz| ->]; [|right; by eapply assoc_Some].
  revert Hz.
  apply (foldl_keeps _ (λ acc, z ∈ acc → z ∈ sorted ∨ z ∈ map fst graph));
    [|by left].
  intros acc d Hacc Hz. apply IH in Hz as [Hz|Hz]; [by apply Hacc | by right].
Qed.

(** The modelled sort returns exactly the items of the graph. *)
Lemma dfs_topological_sort_items graph z :
  z ∈ dfs_topological_sort graph ↔ z ∈ map fst graph.
Proof.
  unfold dfs_topological_sort.
  set (visit := λ acc (e : nat * list nat),
                  topo_visit (S (length graph)) graph [] acc e.1).
  assert (Hsub : ∀ l acc, z ∈ foldl visit acc l → z ∈ acc ∨ z ∈ map fst graph).
  { induction l as [|e l IH]; intros acc; [by left|]. simpl.
    intros [Hz|Hz]%IH; [|by right]. by apply topo_visit_items in Hz. }
  assert (Hsup : ∀ l acc,
            (z ∈ acc ∨ (z ∈ map fst l ∧ z ∈ map fst graph)) →
            z ∈ foldl visit acc l).
  { induction l as [|e l IH]; intros acc.
    - intros [Hz|[Hz _]]; [done | by apply elem_of_nil in Hz].
    - simpl. intros [Hz|[[->|Hz]%elem_of_cons Hg]].
      + apply IH. left. by apply topo_visit_mono.
      + apply IH. left. unfold visit. simpl. case_decide as Hin.
        * by destruct Hin as [?|?%elem_of_nil].
        * destruct (assoc_is_Some _ _ Hg) as [deps ->].
          apply elem_of_app. right. by left.
      + apply IH. by right. }
  split.
  - intros [Hz|Hz]%Hsub; [by apply elem_of_nil in Hz | done].
  - intros Hz. apply Hsup. by right.
Qed.

(** ** The object diffing engine *)

Section DeltaObjectsFacts.
Context {Schema : Type} `{!SchemaStore Schema} `{!Topological}.
Implicit Types (old new : list nat) (sclass : SchemaClass)
  (guidance : option DeltaGuidance) (old_schema new_schema : Schema)
  (cm : list (nat * (Q * nat))).

Lemma Qlt_bool_iff (a b : Q) : Qlt_bool a b = true ↔ (a < b)%Q.
Proof.
  unfold Qlt_bool. rewrite negb_true_iff, <- not_true_iff_false, Qle_bool_iff.
  split; [apply Qnot_le_lt | apply Qlt_not_le].
Qed.

Lemma alter_loop_alters cm order alters :
  alter_loop cm order = Ok alters →
  Forall (λ c, ∃ y x, c = AlterDelta y x) alters.
Proof.
  revert alters. induction order as [|x order IH]; intros alters; simpl.
  - intros [= <-]. constructor.
  - destruct (map_lookup cm x) as [[s y]|]; [|done].
    destruct (alter_loop cm order) as [rest| |]; [|done..].
    destruct (Qlt_bool 0.6 s && Qlt_bool s 1); intros [= <-]; [|by apply IH].
    constructor; [by exists y, x | by apply IH].
Qed.

Lemma alter_loop_order cm order alters :
  alter_loop cm order = Ok alters →
  alters_of alters = filter (λ x, to_alter cm x = true) order.
Proof.
  revert alters. induction order as [|x order IH]; intros alters; simpl.
  - by intros [= <-].
  - destruct (map_lookup cm x) as [[s y]|] eqn:Hl; [|done].
    destruct (alter_loop cm order) as [rest| |]; [|done..].
    destruct (Qlt_bool 0.6 s && Qlt_bool s 1) eqn:Hs; intros [= <-].
    + rewrite filter_cons_True by (unfold to_alter; by rewrite Hl).
      simpl. f_equal. by apply IH.
    + rewrite filter_cons_False
        by (unfold to_alter; rewrite Hl, Hs; discriminate).
      by apply IH.
Qed.

Lemma alters_of_creates l : alters_of (map CreateDelta l) = [].
Proof. unfold alters_of. by induction l. Qed.

Lemma alters_of_deletes l : alters_of (map DeleteDelta l) = [].
Proof. unfold alters_of. by induction l. Qed.

Lemma deletes_of_creates l : deletes_of (map CreateDelta l) = [].
Proof. unfold deletes_of. by induction l. Qed.

Lemma deletes_of_deletes l : deletes_of (map DeleteDelta l) = l.
Proof. unfold deletes_of. induction l; simpl; [done | by f_equal]. Qed.

Lemma deletes_of_alters alters :
  Forall (λ c, ∃ y x, c = AlterDelta y x) alters → deletes_of alters = [].
Proof.
  unfold deletes_of. induction 1 as [|c l (y & x & ->) _ IH]; [done|].
  simpl. done.
Qed.

Lemma bases_first_filter schema (P : nat → Prop) `{!∀ x, Decision (P x)} l :
  bases_first schema l → bases_first schema (filter P l).
Proof.
  induction l as [|d l IH]; [done|]. intros [Hd Hl].
  rewrite filter_cons. destruct (decide (P d)); [|by apply IH].
  split; [|by apply IH]. rewrite Forall_forall in Hd |- *.
  intros b Hb. apply Hd. by apply list_elem_of_filter in Hb as [_ ?].
Qed.

(** C2, as amended.  The Delete commands that [delta_objects] produces
    for the unmatched old objects are those objects in the order of
    [_sort_by_inheritance] over the old schema (for an inheritance-capable
    class), less the banned deletions; the Alter commands likewise follow
    [_sort_by_inheritance] over the new schema: one sort orders both.  So
    when that topological sort puts bases before derived objects, the
    Delete commands come bases first as well, not in the reverse order. *)
Theorem delete_order_follows_inheritance_sort
    old new sclass guidance old_schema new_schema cmds :
  delta_objects old new sclass guidance old_schema new_schema = Ok cmds →
  let changed := changed_objects old new old_schema new_schema in
  let cm := comparison_map changed.1 changed.2 sclass guidance
              old_schema new_schema in
  let deleted := deleted_objects cm changed.1 in
  deletes_of cmds
  = filter (λ y, not_banned (banned_deletions <$> guidance) sclass
                   (get_name old_schema y) = true)
      (if inheriting sclass then _sort_by_inheritance old_schema deleted
       else deleted)
  ∧ (inheriting sclass = true → cm ≠ [] →
     alters_of cmds
     = filter (λ x, to_alter cm x = true)
         (_sort_by_inheritance new_schema (map fst cm)))
  ∧ (inheriting sclass = true →
     bases_first old_schema (_sort_by_inheritance old_schema deleted) →
     bases_first old_schema (deletes_of cmds)).
Proof.
  unfold delta_objects.
  destruct (changed_objects old new old_schema new_schema) as [old' new'].
  cbn [fst snd].
  set (cm := comparison_map old' new' sclass guidance old_schema new_schema).
  destruct (alter_loop cm (alter_order sclass new_schema cm))
    as [alters| |] eqn:Halters; [|done..].
  intros [= <-]. pose proof (alter_loop_order _ _ _ Halters) as Horder.
  apply alter_loop_alters in Halters.
  assert (Heq : deletes_of
            (map CreateDelta
               (filter (λ x, not_banned (banned_creations <$> guidance) sclass
                               (get_name new_schema x) = true)
                  (created_objects cm new'))
             ++ alters
             ++ map DeleteDelta
                  (filter (λ y, not_banned (banned_deletions <$> guidance)
                                  sclass (get_name old_schema y) = true)
                     (deleted_order sclass old_schema
                        (deleted_objects cm old'))))
          = filter (λ y, not_banned (banned_deletions <$> guidance) sclass
                           (get_name old_schema y) = true)
              (deleted_order sclass old_schema (deleted_objects cm old'))).
  { unfold deletes_of. rewrite !omap_app.
    fold (deletes_of alters). rewrite (deletes_of_alters _ Halters).
    rewrite (deletes_of_creates _ : omap _ (map CreateDelta _) = []).
    apply (deletes_of_deletes _). }
  split; [exact Heq|]. split.
  - intros Hinh Hcm. unfold alters_of. rewrite !omap_app.
    fold (alters_of alters). rewrite Horder.
    rewrite (alters_of_creates _ : omap _ (map CreateDelta _) = []).
    rewrite (alters_of_deletes _ : omap _ (map DeleteDelta _) = []).
    rewrite app_nil_r. cbn [app]. unfold alter_order.
    destruct cm; [done|]. by rewrite Hinh.
  - intros Hinh Hsorted. rewrite Heq.
    apply bases_first_filter. unfold deleted_order. by rewrite Hinh.
Qed.

End DeltaObjectsFacts.

Lemma delete_order_follows_inheritance_sort_witness :
  bases_first base_and_derived (deletes_of [DeleteDelta 1; DeleteDelta 2]).
Proof.
  apply (delete_order_follows_inheritance_sort [2; 1] [] inheriting_class
           None base_and_derived empty_schema
           [DeleteDelta 1; DeleteDelta 2]).
  - vm_compute. reflexivity.
  - reflexivity.
  - vm_compute. repeat split; repeat constructor. inversion 1.
Defined.

(** C2, as stated, fails: the derived type is listed first among the old
    objects, and still the Delete of the base comes before the Delete of
    the type derived from it. *)
Lemma base_deleted_before_derived :
  delta_objects [2; 1] [] inheriting_class None base_and_derived empty_schema
  = Ok [DeleteDelta 1; DeleteDelta 2]
  ∧ 1 ∈ get_bases base_and_derived 2
  ∧ ¬ derived_first base_and_derived
        (deletes_of [DeleteDelta 1; DeleteDelta 2]).
Proof.
  split; [vm_compute; reflexivity|]. split; [vm_compute; by left|].
  intros [Hfirst _]. inversion Hfirst as [|? ? Hnot _]. apply Hnot.
  vm_compute. by left.
Qed.

(** ** The sorted similarity matrix and the greedy matching *)

Section MatchingFacts.
Context {Schema : Type} `{!SchemaStore Schema} `{!Topological}.
Implicit Types (old new : list nat) (sclass : SchemaClass)
  (guidance : option DeltaGuidance) (old_schema new_schema : Schema)
  (cm : list (nat * (Q * nat))) (v w : nat * nat * Q).

Lemma key_lt_false_iff old_schema new_schema v w :
  key_lt (matrix_key old_schema new_schema w)
         (matrix_key old_schema new_schema v) = false
  ↔ triple_le old_schema new_schema v w.
Proof.
  unfold key_lt, matrix_key, triple_le.
  destruct v as [[xv yv] sv], w as [[xw yw] sw]. cbn [fst snd].
  set (nv := get_name new_schema xv). set (nw := get_name new_schema xw).
  set (mv := get_name old_schema yv). set (mw := get_name old_schema yw).
  destruct (Qeq_bool (1 - sw) (1 - sv)) eqn:Hq.
  - apply Qeq_bool_iff in Hq. assert (Hs : (sv == sw)%Q) by lra.
    destruct (String.eqb_spec nw nv) as [Heq|Hne].
    + rewrite ltb_false_str_le. split.
      * intros Hle. right. split; [done|]. right. by split.
      * intros [Hlt|[_ [Hlt|[_ Hle]]]]; [lra| |done].
        rewrite Heq in Hlt. by apply str_lt_irrefl in Hlt.
    + rewrite ltb_false_str_le. split.
      * intros [Hlt|Heq]; [|congruence]. right. split; [done|]. by left.
      * intros [Hlt|[_ [Hlt|[Heq _]]]]; [lra|by left|congruence].
  - assert (Hneq : ¬ (sv == sw)%Q).
    { intros Hs. apply Qeq_bool_neq in Hq. apply Hq. lra. }
    rewrite <- not_true_iff_false, Qlt_bool_iff. split.
    + intros Hn. left. lra.
    + intros [Hlt|[Hs _]]; [lra | done].
Qed.

Lemma triple_le_total old_schema new_schema v w :
  triple_le old_schema new_schema v w ∨ triple_le old_schema new_schema w v.
Proof.
  unfold triple_le.
  destruct (Qlt_le_dec v.2 w.2) as [Hlt|Hle]; [right; by left|].
  destruct (Qlt_le_dec w.2 v.2) as [Hlt|Hle']; [left; by left|].
  assert (Hs : (v.2 == w.2)%Q) by lra.
  destruct (str_trichotomy (get_name new_schema v.1.1)
              (get_name new_schema w.1.1)) as [Hn|[Hn|Hn]].
  - left. right. split; [done | by left].
  - destruct (str_trichotomy (get_name old_schema v.1.2)
                (get_name old_schema w.1.2)) as [Hm|[Hm|Hm]].
    + left. right. split; [done|]. right. split; [done | by left].
    + left. right. split; [done|]. right. split; [done | by right].
    + right. right. split; [lra|]. right. split; [done | by left].
  - right. right. split; [lra | by left].
Qed.

Lemma triple_le_trans old_schema new_schema u v w :
  triple_le old_schema new_schema u v →
  triple_le old_schema new_schema v w →
  triple_le old_schema new_schema u w.
Proof.
  unfold triple_le. intros [Huv|[Huv Nuv]] [Hvw|[Hvw Nvw]].
  - left. lra.
  - left. lra.
  - left. lra.
  - right. split; [lra|].
    destruct Nuv as [Hn1|[Hn1 Hm1]], Nvw as [Hn2|[Hn2 Hm2]].
    + left. by eapply str_lt_trans.
    + left. by rewrite <- Hn2.
    + left. by rewrite Hn1.
    + right. split; [congruence|]. by eapply str_le_trans.
Qed.

Lemma full_matrix_sorted old new sclass guidance old_schema new_schema :
  StronglySorted (triple_le old_schema new_schema)
    (full_matrix old new sclass guidance old_schema new_schema).
Proof.
  unfold full_matrix.
  eapply StronglySorted_impl; [|apply stable_sort_sorted].
  - intros v w Hvw. apply key_lt_false_iff. exact Hvw.
  - intros a b Hab. apply key_lt_false_iff.
    destruct (triple_le_total old_schema new_schema a b) as [Hle|Hle];
      [done|].
    apply key_lt_false_iff in Hle. congruence.
  - intros a b c Hab Hbc. apply key_lt_false_iff.
    eapply triple_le_trans; by apply key_lt_false_iff.
Qed.

Lemma elem_of_map {A B} (f : A → B) (l : list A) (b : B) :
  b ∈ map f l ↔ ∃ a, f a = b ∧ a ∈ l.
Proof.
  rewrite list_elem_of_In, in_map_iff. by setoid_rewrite list_elem_of_In.
Qed.

Lemma greedy_match_spec (fm : list (nat * nat * Q)) (seen_x seen_y : list nat) :
  let cm := greedy_match fm seen_x seen_y in
  NoDup (map fst cm)
  ∧ (∀ x, x ∈ map fst cm → x ∉ seen_x)
  ∧ NoDup (map (λ e, e.2.2) cm)
  ∧ (∀ y, y ∈ map (λ e, e.2.2) cm → y ∉ seen_y)
  ∧ sublist (map (λ e, (e.1, e.2.2, e.2.1)) cm) fm
  ∧ (∀ x y s, (x, y, s) ∈ fm →
       x ∈ seen_x ∨ y ∈ seen_y
       ∨ x ∈ map fst cm ∨ y ∈ map (λ e, e.2.2) cm).
Proof.
  revert seen_x seen_y.
  induction fm as [|[[x y] s] fm IH]; intros seen_x seen_y; simpl.
  { split; [constructor|]. split; [by intros ? ?%elem_of_nil|].
    split; [constructor|]. split; [by intros ? ?%elem_of_nil|].
    split; [constructor|]. by intros ? ? ? ?%elem_of_nil. }
  destruct (decide ((x ∉ seen_x) ∧ (y ∉ seen_y))) as [[Hx Hy]|Hno].
  - destruct (IH (x :: seen_x) (y :: seen_y))
      as (N1 & F1 & N2 & F2 & Sub & Cov).
    simpl. repeat split.
    + constructor; [|done]. intros Hin. apply (F1 x Hin). by left.
    + intros x' [->|Hin]%elem_of_cons; [done|].
      intros Hs. apply (F1 x' Hin). by right.
    + constructor; [|done]. intros Hin. apply (F2 y Hin). by left.
    + intros y' [->|Hin]%elem_of_cons; [done|].
      intros Hs. apply (F2 y' Hin). by right.
    + by apply sublist_skip.
    + intros x' y' s' [[= -> -> ->]|Hin]%elem_of_cons.
      * right. right. left. by left.
      * destruct (Cov x' y' s' Hin) as [Hc|[Hc|[Hc|Hc]]].
        -- apply elem_of_cons in Hc as [->|Hc]; [|by left].
           right. right. left. by left.
        -- apply elem_of_cons in Hc as [->|Hc]; [|by right; left].
           right. right. right. by left.
        -- right. right. left. by right.
        -- right. right. right. by right.
  - destruct (IH seen_x seen_y) as (N1 & F1 & N2 & F2 & Sub & Cov).
    repeat split; try done.
    + by apply sublist_cons.
    + intros x' y' s' [[= -> -> ->]|Hin]%elem_of_cons;
        [|by apply (Cov x' y' s')].
      destruct (decide (x ∈ seen_x)) as [?|Hx]; [by left|].
      destruct (decide (y ∈ seen_y)) as [?|Hy]; [by right; left|].
      by destruct Hno.
Qed.

Lemma elem_of_pairs (new old : list nat) x y :
  (x, y) ∈ (x ← new; y ← old; [(x, y)]) ↔ x ∈ new ∧ y ∈ old.
Proof.
  rewrite list_elem_of_bind. split.
  - intros (x' & Hin & Hx). apply list_elem_of_bind in Hin as (y' & Hin & Hy).
    apply list_elem_of_singleton in Hin as [= -> ->]. done.
  - intros [Hx Hy]. exists x. split; [|done].
    apply list_elem_of_bind. exists y. split; [|done]. by left.
Qed.

Lemma bind_Permutation_pointwise {A B} (f g : A → list B) (l : list A) :
  (∀ a, f a ≡ₚ g a) → l ≫= f ≡ₚ l ≫= g.
Proof.
  intros Hfg. induction l as [|a l IH]; [done|]. simpl.
  by rewrite (Hfg a), IH.
Qed.

Lemma pairs_Permutation (new1 new2 old1 old2 : list nat) :
  new1 ≡ₚ new2 → old1 ≡ₚ old2 →
  (x ← new1; y ← old1; [(x, y)]) ≡ₚ (x ← new2; y ← old2; [(x, y)]).
Proof.
  intros Hnew Hold. rewrite Hnew. apply bind_Permutation_pointwise.
  intros x. by rewrite Hold.
Qed.

Lemma full_matrix_Permutation old new sclass guidance old_schema new_schema :
  full_matrix old new sclass guidance old_schema new_schema
  ≡ₚ map (λ p, (p.1, p.2,
                similarity_of sclass guidance old_schema new_schema p.1 p.2))
       (x ← new; y ← old; [(x, y)]).
Proof.
  unfold full_matrix. rewrite stable_sort_perm.
  apply Permutation_map, stable_sort_perm.
Qed.

(** The sorted matrix, and so the matching, depends on the changed objects
    as sets only, not on the order they are enumerated in, when names
    identify the objects of each side: the sort keys then leave no tie. *)
Lemma full_matrix_order_independent
    old1 old2 new1 new2 sclass guidance old_schema new_schema :
  old1 ≡ₚ old2 → new1 ≡ₚ new2 →
  (∀ x x', x ∈ new1 → x' ∈ new1 →
     get_name new_schema x = get_name new_schema x' → x = x') →
  (∀ y y', y ∈ old1 → y' ∈ old1 →
     get_name old_schema y = get_name old_schema y' → y = y') →
  full_matrix old1 new1 sclass guidance old_schema new_schema
  = full_matrix old2 new2 sclass guidance old_schema new_schema.
Proof.
  intros Hold Hnew Hinj_new Hinj_old.
  apply (StronglySorted_unique_strong (triple_le old_schema new_schema));
    [|apply full_matrix_sorted..|].
  - intros v w Hv Hw Hvw Hwv.
    rewrite full_matrix_Permutation in Hv, Hw.
    apply elem_of_map in Hv as ([xv yv] & <- & Hv).
    apply elem_of_map in Hw as ([xw yw] & <- & Hw).
    apply elem_of_pairs in Hv as [Hxv Hyv].
    apply elem_of_pairs in Hw as [Hxw Hyw].
    rewrite <- Hnew in Hxw. rewrite <- Hold in Hyw.
    unfold triple_le in Hvw, Hwv. cbn [fst snd] in *.
    assert (Hnames : get_name new_schema xv = get_name new_schema xw
                     ∧ get_name old_schema yv = get_name old_schema yw).
    { destruct Hvw as [Hlt|[Heq [Hn|[Hn Hm]]]],
               Hwv as [Hlt'|[Heq' [Hn'|[Hn' Hm']]]]; try lra.
      - by destruct (str_lt_asym _ _ Hn).
      - rewrite Hn' in Hn. by destruct (str_lt_irrefl _ Hn).
      - rewrite Hn in Hn'. by destruct (str_lt_irrefl _ Hn').
      - split; [done|].
        destruct Hm as [Hm|Hm], Hm' as [Hm'|Hm']; try done.
        by destruct (str_lt_asym _ _ Hm). }
    destruct Hnames as [Hn Hm].
    rewrite (Hinj_new xv xw Hxv Hxw Hn), (Hinj_old yv yw Hyv Hyw Hm). done.
  - rewrite !full_matrix_Permutation. apply Permutation_map.
    by apply pairs_Permutation.
Qed.


Lemma NoDup_map_inj {A B} (f : A → B) (l : list A) a a' :
  NoDup (map f l) → a ∈ l → a' ∈ l → f a = f a' → a = a'.
Proof.
  induction l as [|b l IH]; simpl; [by intros _ ?%elem_of_nil|].
  intros [Hnot Hnd]%NoDup_cons [->|Ha]%elem_of_cons [->|Ha']%elem_of_cons Hf.
  - done.
  - destruct Hnot. apply elem_of_map. exists a'. by split.
  - destruct Hnot. apply elem_of_map. exists a. by split.
  - by apply IH.
Qed.

Lemma map_lookup_elem cm x s y :
  NoDup (map fst cm) → (x, (s, y)) ∈ cm → map_lookup cm x = Some (s, y).
Proof.
  induction cm as [|[k e] cm IH]; simpl; [by intros _ ?%elem_of_nil|].
  intros [Hnot Hnd]%NoDup_cons [[= <- <-]|Hin]%elem_of_cons.
  - by rewrite decide_True.
  - rewrite decide_False; [by apply IH|]. intros ->. apply Hnot.
    apply elem_of_map. by exists (x, (s, y)).
Qed.

Lemma map_lookup_Some cm x (e : Q * nat) :
  map_lookup cm x = Some e → (x, e) ∈ cm.
Proof.
  induction cm as [|[k e'] cm IH]; simpl; [done|].
  destruct (decide (k = x)) as [->|Hne].
  - intros [= ->]. by left.
  - intros Hl. right. by apply IH.
Qed.

Lemma alter_loop_elem cm order alters y x :
  alter_loop cm order = Ok alters →
  AlterDelta y x ∈ alters ↔
    x ∈ order ∧ ∃ s, map_lookup cm x = Some (s, y)
                     ∧ (0.6 < s)%Q ∧ (s < 1)%Q.
Proof.
  revert alters. induction order as [|x0 order IH]; intros alters; simpl.
  { intros [= <-]. split; [by intros ?%elem_of_nil|].
    by intros [?%elem_of_nil _]. }
  destruct (map_lookup cm x0) as [[s0 y0]|] eqn:Hl; [|done].
  destruct (alter_loop cm order) as [rest| |]; [|done..].
  specialize (IH rest eq_refl).
  destruct (Qlt_bool 0.6 s0 && Qlt_bool s0 1) eqn:Hs; intros [= <-].
  - apply andb_true_iff in Hs as [H1%Qlt_bool_iff H2%Qlt_bool_iff].
    rewrite !elem_of_cons, IH. split.
    + intros [[= -> ->]|[Hin Hx]]; [|by split; [right|]].
      split; [by left|]. by exists s0.
    + intros [[->|Hin] Hx]; [|by right].
      destruct Hx as (s & Hs & _). left. congruence.
  - rewrite IH, elem_of_cons. split; [intros [? ?]; by split; [right|]|].
    intros [[->|Hin] Hx]; [|done].
    destruct Hx as (s & Hs' & H1%Qlt_bool_iff & H2%Qlt_bool_iff).
    rewrite Hl in Hs'. injection Hs' as <- <-.
    by rewrite H1, H2 in Hs.
Qed.

Lemma comparison_map_elem old new sclass guidance old_schema new_schema
    x y s :
  (x, (s, y)) ∈ comparison_map old new sclass guidance old_schema new_schema →
  x ∈ new ∧ y ∈ old.
Proof.
  intros Hin. unfold comparison_map in Hin.
  destruct (greedy_match_spec
              (full_matrix old new sclass guidance old_schema new_schema)
              [] []) as (_ & _ & _ & _ & Sub & _).
  assert (Hfm : (x, y, s) ∈ full_matrix old new sclass guidance
                               old_schema new_schema).
  { eapply elem_of_sublist; [|exact Sub].
    apply elem_of_map. by exists (x, (s, y)). }
  unfold full_matrix in Hfm. rewrite stable_sort_perm in Hfm.
  apply elem_of_map in Hfm as ([x' y'] & [= -> -> _] & Hp).
  rewrite stable_sort_perm in Hp. by apply elem_of_pairs in Hp.
Qed.

Lemma delta_elems (cs ds : list nat) alters :
  Forall (λ c, ∃ y x, c = AlterDelta y x) alters →
  let cmds := map CreateDelta cs ++ alters ++ map DeleteDelta ds in
  (∀ x, CreateDelta x ∈ cmds ↔ x ∈ cs)
  ∧ (∀ y, DeleteDelta y ∈ cmds ↔ y ∈ ds)
  ∧ (∀ y x, AlterDelta y x ∈ cmds ↔ AlterDelta y x ∈ alters).
Proof.
  intros Halters cmds. unfold cmds. rewrite Forall_forall in Halters.
  split; [|split].
  - intros x. rewrite !elem_of_app, !elem_of_map. split.
    + intros [(x' & [= ->] & Hin)|[Hin|(y' & [=] & _)]]; [done|].
      by destruct (Halters _ Hin) as (? & ? & [=]).
    + intros Hin. left. by exists x.
  - intros y. rewrite !elem_of_app, !elem_of_map. split.
    + intros [(x' & [=] & _)|[Hin|(y' & [= ->] & Hin)]]; [|done].
      by destruct (Halters _ Hin) as (? & ? & [=]).
    + intros Hin. right. right. by exists y.
  - intros y x. rewrite !elem_of_app, !elem_of_map. split.
    + by intros [(x' & [=] & _)|[Hin|(y' & [=] & _)]].
    + intros Hin. right. by left.
Qed.

Lemma matched_new_elem cm x s y :
  NoDup (map fst cm) → (x, (s, y)) ∈ cm →
  x ∈ matched_new cm ↔ (0.6 < s)%Q.
Proof.
  intros Hnd Hin. unfold matched_new. rewrite elem_of_map. split.
  - intros (e & He & [Hs He']%list_elem_of_filter).
    assert (e = (x, (s, y))) as ->
      by by apply (NoDup_map_inj fst cm).
    by apply Qlt_bool_iff.
  - intros Hs. exists (x, (s, y)). split; [done|].
    apply list_elem_of_filter. split; [|done]. by apply Qlt_bool_iff.
Qed.

Lemma matched_old_elem cm x s y :
  NoDup (map (λ e, e.2.2) cm) → (x, (s, y)) ∈ cm →
  y ∈ matched_old cm ↔ (0.6 < s)%Q.
Proof.
  intros Hnd Hin. unfold matched_old. rewrite elem_of_map. split.
  - intros (e & He & [Hs He']%list_elem_of_filter).
    assert (e = (x, (s, y))) as ->
      by by apply (NoDup_map_inj (λ e, e.2.2) cm).
    by apply Qlt_bool_iff.
  - intros Hs. exists (x, (s, y)). split; [done|].
    apply list_elem_of_filter. split; [|done]. by apply Qlt_bool_iff.
Qed.

(** C3.  For a matched pair (new [x], old [y]) of similarity [s], given
    that the inheritance sort returns exactly the objects it is given:
    the pair becomes an Alter command exactly when 0.6 < s < 1.0; with
    s <= 0.6 (so at exactly 0.6) the new object is created and the old one
    deleted, each unless banned by the guidance; and with s >= 1.0 (so at
    exactly 1.0) the pair yields no Alter, and no Create or Delete of its
    objects either. *)
Theorem alter_iff_similarity_strictly_between
    old new sclass guidance old_schema new_schema cmds x y s :
  let changed := changed_objects old new old_schema new_schema in
  let cm := comparison_map changed.1 changed.2 sclass guidance
              old_schema new_schema in
  delta_objects old new sclass guidance old_schema new_schema = Ok cmds →
  (x, (s, y)) ∈ cm →
  (inheriting sclass = true →
   ∀ z, z ∈ _sort_by_inheritance new_schema (map fst cm) ↔ z ∈ map fst cm) →
  (inheriting sclass = true →
   ∀ z, z ∈ _sort_by_inheritance old_schema (deleted_objects cm changed.1)
        ↔ z ∈ deleted_objects cm changed.1) →
  (AlterDelta y x ∈ cmds ↔ (0.6 < s)%Q ∧ (s < 1)%Q)
  ∧ ((s <= 0.6)%Q →
     (CreateDelta x ∈ cmds ↔
        not_banned (banned_creations <$> guidance) sclass
          (get_name new_schema x) = true)
     ∧ (DeleteDelta y ∈ cmds ↔
          not_banned (banned_deletions <$> guidance) sclass
            (get_name old_schema y) = true))
  ∧ ((1 <= s)%Q →
     (AlterDelta y x ∉ cmds) ∧ (CreateDelta x ∉ cmds)
     ∧ (DeleteDelta y ∉ cmds)).
Proof.
  unfold delta_objects.
  destruct (changed_objects old new old_schema new_schema) as [old' new'].
  cbn [fst snd].
  set (cm := comparison_map old' new' sclass guidance old_schema new_schema).
  intros Hrun Hin Hnew Hold.
  destruct (alter_loop cm (alter_order sclass new_schema cm))
    as [alters| |] eqn:Hloop; [|done..].
  injection Hrun as <-.
  destruct (greedy_match_spec
              (full_matrix old' new' sclass guidance old_schema new_schema)
              [] []) as (N1 & _ & N2 & _ & _ & _).
  fold (comparison_map old' new' sclass guidance old_schema new_schema)
    in N1, N2. fold cm in N1, N2.
  pose proof (map_lookup_elem cm x s y N1 Hin) as Hlk.
  destruct (comparison_map_elem _ _ _ _ _ _ _ _ _ Hin) as [Hx Hy].
  destruct (delta_elems
              (filter (λ x, not_banned (banned_creations <$> guidance) sclass
                              (get_name new_schema x) = true)
                 (created_objects cm new'))
              (filter (λ y, not_banned (banned_deletions <$> guidance) sclass
                              (get_name old_schema y) = true)
                 (deleted_order sclass old_schema (deleted_objects cm old')))
              alters (alter_loop_alters _ _ _ Hloop)) as (Hc & Hd & Ha).
  rewrite Hc, Hd, Ha, (alter_loop_elem _ _ _ _ _ Hloop).
  rewrite !list_elem_of_filter.
  assert (Hord : x ∈ alter_order sclass new_schema cm).
  { assert (Hk : x ∈ map fst cm)
      by (apply elem_of_map; by exists (x, (s, y))).
    unfold alter_order. destruct cm as [|e cm']; [by apply elem_of_nil in Hin|].
    destruct (inheriting sclass) eqn:Hi; [by apply Hnew | done]. }
  assert (Hdel : y ∈ deleted_order sclass old_schema (deleted_objects cm old')
                 ↔ ¬ (0.6 < s)%Q).
  { unfold deleted_order.
    assert (Hd0 : y ∈ deleted_objects cm old' ↔ ¬ (0.6 < s)%Q).
    { unfold deleted_objects. rewrite list_elem_of_filter.
      rewrite (matched_old_elem cm x s y N2 Hin). tauto. }
    destruct (inheriting sclass) eqn:Hi; [by rewrite Hold | done]. }
  assert (Hcre : x ∈ created_objects cm new' ↔ ¬ (0.6 < s)%Q).
  { unfold created_objects. rewrite list_elem_of_filter.
    rewrite (matched_new_elem cm x s y N1 Hin). tauto. }
  rewrite Hcre, Hdel. split; [|split].
  - split.
    + intros (_ & s' & Hs' & H1 & H2). by simplify_eq.
    + intros [H1 H2]. split; [done|]. by exists s.
  - intros Hle. split; (split; [tauto|]); intros Hnb; (split; [done|]); lra.
  - intros Hge. split; [|split].
    + intros (_ & s' & Hs' & H1 & H2). simplify_eq. lra.
    + intros [_ Hn]. apply Hn. lra.
    + intros [_ Hn]. apply Hn. lra.
Qed.

End MatchingFacts.

Example delta_objects_threshold :
  comparison_map [1; 2; 5] [3; 4; 6] inheriting_class None scored_old
    scored_new
  = [(6, (1%Q, 5)); (4, (0.7%Q, 2)); (3, (0.6%Q, 1))]
  ∧ delta_objects [1; 2; 5] [3; 4; 6] inheriting_class None scored_old
      scored_new
    = Ok [CreateDelta 3; AlterDelta 2 4; DeleteDelta 1].
Proof. split; vm_compute; reflexivity. Qed.

Lemma alter_iff_similarity_strictly_between_witness :
  CreateDelta 3 ∈ [CreateDelta 3; AlterDelta 2 4; DeleteDelta 1]
  ∧ DeleteDelta 1 ∈ [CreateDelta 3; AlterDelta 2 4; DeleteDelta 1].
Proof.
  destruct (alter_iff_similarity_strictly_between [1; 2; 5] [3; 4; 6]
              inheriting_class None scored_old scored_new
              [CreateDelta 3; AlterDelta 2 4; DeleteDelta 1] 3 1 0.6%Q)
    as (_ & Hboundary & _).
  - vm_compute. reflexivity.
  - vm_compute. right. right. left.
  - intros _ z. vm_compute. split; exact (λ Hz, Hz).
  - intros _ z. vm_compute. split; exact (λ Hz, Hz).
  - destruct Hboundary as [Hcreate Hdelete]; [vm_compute; discriminate|].
    split; [by apply Hcreate | by apply Hdelete].
Defined.

(** * More properties of the engine *)

(** ** The attribute accessors *)

Section AttributeAPI.
Implicit Types (h : Heap) (self : ref) (a b : string).

Lemma get_attribute_value_eq self a h :
  get_attribute_value self a h =
    match h !! self with
    | None => (Stuck, h)
    | Some s =>
        match _attrs s !! a with
        | None => (Ok VNone, h)
        | Some op =>
            match h !! op with
            | None => (Stuck, h)
            | Some o => (Ok (new_value o), h)
            end
        end
    end.
Proof.
  unfold get_attribute_value, get_attribute_set_cmd. rewrite bind_eq.
  unfold deref at 1. destruct (h !! self) as [s|]; [|done].
  destruct (_attrs s !! a) as [op|]; [|done].
  rewrite bind_eq. unfold deref. by destruct (h !! op).
Qed.

Lemma get_orig_attribute_value_eq self a h :
  get_orig_attribute_value self a h =
    match h !! self with
    | None => (Stuck, h)
    | Some s =>
        match _attrs s !! a with
        | None => (Ok VNone, h)
        | Some op =>
            match h !! op with
            | None => (Stuck, h)
            | Some o => (Ok (old_value o), h)
            end
        end
    end.
Proof.
  unfold get_orig_attribute_value, get_attribute_set_cmd. rewrite bind_eq.
  unfold deref at 1. destruct (h !! self) as [s|]; [|done].
  destruct (_attrs s !! a) as [op|]; [|done].
  rewrite bind_eq. unfold deref. by destruct (h !! op).
Qed.

Lemma get_local_attribute_value_eq self a h :
  get_local_attribute_value self a h =
    match h !! self with
    | None => (Stuck, h)
    | Some s =>
        match _attrs s !! a with
        | None => (Ok VNone, h)
        | Some op =>
            match h !! op with
            | None => (Stuck, h)
            | Some o =>
                (Ok (if decide (source o = Some "inheritance") then VNone
                     else new_value o), h)
            end
        end
    end.
Proof.
  unfold get_local_attribute_value, get_attribute_set_cmd. rewrite bind_eq.
  unfold deref at 1. destruct (h !! self) as [s|]; [|done].
  destruct (_attrs s !! a) as [op|]; [|done].
  rewrite bind_eq. unfold deref. destruct (h !! op) as [o|]; [|done].
  by destruct (decide (source o = Some "inheritance")).
Qed.

(** [set_attribute_value] on an attribute that has a setter writes to
    that setter. *)
Lemma set_attribute_value_Some h self s a r0 o v ov inh :
  h !! self = Some s → _attrs s !! a = Some r0 → h !! r0 = Some o →
  set_attribute_value self a v ov inh h
  = (Ok tt, <[r0 := written v ov inh o]> h).
Proof.
  intros Hs Ha Ho. unfold set_attribute_value, get_attribute_set_cmd.
  msimpl. unfold deref. rewrite Hs. msimpl. rewrite Ha.
  msimpl. rewrite update_cmd_eq, Ho. msimpl. unfold written.
  destruct inh, (decide (ov = VNone)) as [->|Hov]; msimpl;
    rewrite ?update_cmd_eq, ?lookup_insert_eq, ?insert_insert_eq; msimpl;
    rewrite ?update_cmd_eq, ?lookup_insert_eq, ?insert_insert_eq; msimpl;
    try done.
Qed.

(** The first [set_attribute_value] of an attribute allocates its setter
    and adds it to the command. *)
Lemma set_attribute_value_None h self s a v ov inh :
  h !! self = Some s → _attrs s !! a = None →
  set_attribute_value self a v ov inh h
  = (Ok tt,
     <[self := with_ops (oset_add (fresh (dom h)))
                 (with_attrs (<[a := fresh (dom h)]>) s)]>
       (<[fresh (dom h) :=
            mkCommand AlterObjectProperty false [] [] ∅ "" None false false
              "" a ov v (if inh then Some "inheritance" else None)]> h)).
Proof.
  intros Hs Ha. unfold set_attribute_value, get_attribute_set_cmd.
  msimpl. unfold deref. rewrite Hs. msimpl. rewrite Ha.
  msimpl. rewrite alloc_eq. msimpl.
  assert (Hne : fresh (dom h) ≠ self).
  { intros Heq. pose proof (fresh_lookup h) as Hf. rewrite Heq in Hf.
    congruence. }
  destruct inh, (decide (ov = VNone)) as [->|Hov]; msimpl;
    rewrite ?update_cmd_eq, ?lookup_insert_eq, ?insert_insert_eq; msimpl;
    rewrite ?update_cmd_eq, ?lookup_insert_eq, ?insert_insert_eq; msimpl;
    cbn [with_values cls canonical ops before_ops _attrs classname scls
           if_not_exists if_unused new_name property old_value new_value
           source];
    (erewrite add_setter; cycle 1;
     [by rewrite lookup_insert_ne | apply lookup_insert_eq | reflexivity
     | reflexivity]).
Qed.

Lemma fresh_ne h r : is_Some (h !! r) → r ≠ fresh (dom h).
Proof.
  intros [c Hc] ->. pose proof (fresh_lookup h). congruence.
Qed.

(** X1.  [set_attribute_value] followed by the getters: the attribute
    is then set, [get_attribute_value] returns the value just written,
    [get_orig_attribute_value] the original value when one was given, and
    [get_local_attribute_value] returns None for a value marked as
    inherited, and the value itself for a first, not inherited, write. *)
Theorem set_attribute_value_then_get h self s a v ov inh :
  h !! self = Some s →
  (∀ op, _attrs s !! a = Some op → is_Some (h !! op)) →
  ∃ h' s',
    set_attribute_value self a v ov inh h = (Ok tt, h')
    ∧ h' !! self = Some s' ∧ has_attribute_value s' a = true
    ∧ get_attribute_value self a h' = (Ok v, h')
    ∧ (ov ≠ VNone → get_orig_attribute_value self a h' = (Ok ov, h'))
    ∧ (inh = true → get_local_attribute_value self a h' = (Ok VNone, h'))
    ∧ (inh = false → _attrs s !! a = None →
       get_local_attribute_value self a h' = (Ok v, h')).
Proof.
  intros Hs Halloc. destruct (_attrs s !! a) as [r0|] eqn:Ha.
  - destruct (Halloc r0 eq_refl) as [o Ho].
    rewrite (set_attribute_value_Some _ _ _ _ _ _ _ _ _ Hs Ha Ho).
    assert (∃ s', <[r0 := written v ov inh o]> h !! self = Some s'
                          ∧ _attrs s' = _attrs s) as (s' & Hs' & Hat).
    { destruct (decide (r0 = self)) as [->|Hne].
      - rewrite lookup_insert_eq. eexists. split; [done|].
        assert (o = s) as -> by congruence. done.
      - rewrite lookup_insert_ne by done. by exists s. }
    exists (<[r0 := written v ov inh o]> h), s'.
    split; [done|]. split; [done|].
    split; [unfold has_attribute_value; rewrite Hat, Ha;
            by apply bool_decide_eq_true_2|].
    rewrite get_attribute_value_eq, get_orig_attribute_value_eq,
      get_local_attribute_value_eq, Hs', Hat, Ha, lookup_insert_eq.
    split; [done|]. split; [|split].
    + intros Hov. cbn [written with_values old_value].
      by rewrite decide_False.
    + intros ->. cbn [written with_values source]. by rewrite decide_True.
    + done.
  - rewrite (set_attribute_value_None _ _ _ _ _ _ _ Hs Ha).
    eexists _, _. split; [reflexivity|].
    split; [apply lookup_insert_eq|].
    split; [unfold has_attribute_value; cbn [with_ops with_attrs _attrs];
            rewrite lookup_insert_eq; by apply bool_decide_eq_true_2|].
    assert (Hne : fresh (dom h) ≠ self)
      by (apply not_eq_sym, fresh_ne; by rewrite Hs).
    rewrite get_attribute_value_eq, get_orig_attribute_value_eq,
      get_local_attribute_value_eq, lookup_insert_eq.
    cbn [with_ops with_attrs _attrs].
    rewrite lookup_insert_eq, lookup_insert_ne, lookup_insert_eq by done.
    cbn [new_value old_value source].
    split; [done|]. split; [done|]. split.
    + intros ->. by rewrite decide_True.
    + intros -> _. by rewrite decide_False.
Qed.

(** X2.  Writing one attribute leaves every other attribute of the
    command as it reads: its value, its original value and its local
    value. *)
Theorem set_attribute_value_other_attribute h self a b v ov inh :
  a ≠ b → attrs_sound h self →
  let h' := (set_attribute_value self a v ov inh h).2 in
  ∀ w,
    ((get_attribute_value self b h).1 = Ok w →
     (get_attribute_value self b h').1 = Ok w)
    ∧ ((get_orig_attribute_value self b h).1 = Ok w →
       (get_orig_attribute_value self b h').1 = Ok w)
    ∧ ((get_local_attribute_value self b h).1 = Ok w →
       (get_local_attribute_value self b h').1 = Ok w).
Proof.
  intros Hab Hsound h' w.
  destruct (h !! self) as [s|] eqn:Hs.
  2:{ rewrite get_attribute_value_eq, get_orig_attribute_value_eq,
        get_local_attribute_value_eq, Hs. done. }
  (* the entry of [b] and the values of its setter are as before *)
  assert (Hkeep : ∃ s', h' !! self = Some s' ∧ _attrs s' !! b = _attrs s !! b
            ∧ ∀ r o, _attrs s !! b = Some r → h !! r = Some o →
                ∃ o', h' !! r = Some o' ∧ new_value o' = new_value o
                      ∧ old_value o' = old_value o ∧ source o' = source o).
  { unfold h'. destruct (_attrs s !! a) as [r0|] eqn:Ha.
    - destruct (Hsound s a r0 Hs Ha) as [_ (o0 & Ho0 & Hk0 & Hp0)].
      rewrite (set_attribute_value_Some _ _ _ _ _ _ _ _ _ Hs Ha Ho0).
      cbn [snd].
      assert (∃ s', <[r0 := written v ov inh o0]> h !! self = Some s'
                            ∧ _attrs s' = _attrs s) as (s' & Hs' & Hat).
      { destruct (decide (r0 = self)) as [->|Hne].
        - rewrite lookup_insert_eq. eexists. split; [done|].
          assert (o0 = s) as -> by congruence. done.
        - rewrite lookup_insert_ne by done. by exists s. }
      exists s'. split; [done|]. split; [by rewrite Hat|].
      intros r o Hb Ho. exists o. rewrite lookup_insert_ne; [done|].
      intros <-. destruct (Hsound s b r0 Hs Hb) as [_ (o1 & Ho1 & _ & Hp1)].
      congruence.
    - rewrite (set_attribute_value_None _ _ _ _ _ _ _ Hs Ha). cbn [snd].
      eexists. split; [apply lookup_insert_eq|].
      cbn [with_ops with_attrs _attrs].
      split; [by rewrite lookup_insert_ne|].
      intros r o Hb Ho. destruct (decide (r = self)) as [->|Hne].
      + rewrite lookup_insert_eq. eexists. split; [done|].
        assert (o = s) as -> by congruence. done.
      + rewrite lookup_insert_ne by done.
        rewrite lookup_insert_ne
          by (apply not_eq_sym, fresh_ne; by rewrite Ho).
        by exists o. }
  destruct Hkeep as (s' & Hs' & Hb & Hval).
  rewrite !get_attribute_value_eq, !get_orig_attribute_value_eq,
    !get_local_attribute_value_eq, Hs, Hs', Hb.
  destruct (_attrs s !! b) as [r|] eqn:Hr; [|done].
  destruct (h !! r) as [o|] eqn:Ho; [|done].
  destruct (Hval r o eq_refl Ho) as (o' & -> & -> & -> & ->). done.
Qed.

(** X3.  A later [set_attribute_value] overwrites the value only: an
    'inheritance' source stays when the later call passes
    [inherited=False], so [get_local_attribute_value] keeps returning None
    though [get_attribute_value] returns the new value; and without an
    [orig_value] the original value recorded earlier stays. *)
Theorem set_attribute_value_keeps_source h self s a r0 o v :
  h !! self = Some s → _attrs s !! a = Some r0 → h !! r0 = Some o →
  ∃ h', set_attribute_value self a v VNone false h = (Ok tt, h')
    ∧ get_attribute_value self a h' = (Ok v, h')
    ∧ get_orig_attribute_value self a h' = (Ok (old_value o), h')
    ∧ (source o = Some "inheritance" →
       get_local_attribute_value self a h' = (Ok VNone, h')).
Proof.
  intros Hs Ha Ho.
  rewrite (set_attribute_value_Some _ _ _ _ _ _ _ _ _ Hs Ha Ho).
  eexists. split; [reflexivity|].
  assert (∃ s', <[r0 := written v VNone false o]> h !! self = Some s'
                        ∧ _attrs s' = _attrs s) as (s' & Hs' & Hat).
  { destruct (decide (r0 = self)) as [->|Hne].
    - rewrite lookup_insert_eq. eexists. split; [done|].
      assert (o = s) as -> by congruence. done.
    - rewrite lookup_insert_ne by done. by exists s. }
  rewrite get_attribute_value_eq, get_orig_attribute_value_eq,
    get_local_attribute_value_eq, Hs', Hat, Ha, lookup_insert_eq.
  split; [done|]. split; [done|].
  intros Hsrc. cbn [written with_values source]. by rewrite decide_True.
Qed.

Lemma discard_attribute_eq self a h :
  discard_attribute self a h =
    match h !! self with
    | None => (Stuck, h)
    | Some s =>
        match _attrs s !! a with
        | Some op => discard self op h
        | None => (Ok tt, h)
        end
    end.
Proof.
  unfold discard_attribute, get_attribute_set_cmd. rewrite bind_eq.
  unfold deref. destruct (h !! self) as [s|]; [|done].
  by destruct (_attrs s !! a).
Qed.

(** X4.  [discard_attribute] on a command whose table is sound never
    raises: the attribute is gone afterwards, its setter is in neither
    sub-command set, the other attributes keep their setters, and with no
    setter for the attribute nothing changes. *)
Theorem discard_attribute_removes h self s a :
  h !! self = Some s → attrs_sound h self →
  ∃ h' s',
    discard_attribute self a h = (Ok tt, h')
    ∧ h' !! self = Some s'
    ∧ has_attribute_value s' a = false
    ∧ get_attribute_value self a h' = (Ok VNone, h')
    ∧ (∀ op, _attrs s !! a = Some op → (op ∉ ops s') ∧ (op ∉ before_ops s'))
    ∧ (∀ b, b ≠ a → _attrs s' !! b = _attrs s !! b)
    ∧ (_attrs s !! a = None → h' = h).
Proof.
  intros Hs Hsound. rewrite discard_attribute_eq, Hs.
  destruct (_attrs s !! a) as [op|] eqn:Ha.
  - destruct (Hsound s a op Hs Ha) as [_ (c & Hc & Hk & Hp)].
    rewrite discard_eq, Hc, Hs. cbv zeta. rewrite Hk, Hp, Ha.
    eexists _, _. split; [reflexivity|].
    split; [apply lookup_insert_eq|].
    split; [unfold has_attribute_value;
            cbn [with_attrs with_before_ops with_ops _attrs];
            rewrite lookup_delete_eq; apply bool_decide_eq_false_2;
            by intros [? ?]|].
    split.
    { rewrite get_attribute_value_eq, lookup_insert_eq.
      cbn [with_attrs with_before_ops with_ops _attrs].
      by rewrite lookup_delete_eq. }
    split.
    { intros ? [= <-]. cbn [with_attrs with_before_ops with_ops ops before_ops].
      split; apply not_elem_of_oset_discard. }
    split; [|done].
    intros b Hb. cbn [with_attrs with_before_ops with_ops _attrs].
    by rewrite lookup_delete_ne.
  - exists h, s. split; [done|]. split; [done|].
    split; [unfold has_attribute_value; rewrite Ha;
            apply bool_decide_eq_false_2; by intros [? ?]|].
    split; [by rewrite get_attribute_value_eq, Hs, Ha|].
    split; [done|]. by split.
Qed.

Lemma set_attribute_value_no_self h self a v ov inh :
  h !! self = None → set_attribute_value self a v ov inh h = (Stuck, h).
Proof.
  intros Hs. unfold set_attribute_value. rewrite bind_eq. unfold deref.
  by rewrite Hs.
Qed.

(** Rewriting a command in place, with its class, attribute name,
    [ops] and table as they were, keeps the table of [self] in sync. *)
Lemma attrs_in_sync_insert_same h self r o o' :
  h !! r = Some o → cls o' = cls o → property o' = property o →
  ops o' = ops o → _attrs o' = _attrs o →
  attrs_in_sync h self → attrs_in_sync (<[r := o']> h) self.
Proof.
  intros Ho Hk Hp Hops Hat [Hsound Hcomplete].
  pose proof (same_kinds_insert h r o o' Ho Hk Hp) as Hsame.
  assert (Hself : ∀ s0, <[r := o']> h !! self = Some s0 →
            ∃ s, h !! self = Some s ∧ ops s0 = ops s ∧ _attrs s0 = _attrs s).
  { intros s0. destruct (decide (r = self)) as [->|Hne].
    - rewrite lookup_insert_eq. intros [= <-]. by exists o.
    - rewrite lookup_insert_ne by done. intros Hs0. by exists s0. }
  split.
  - intros s0 p c Hs0 Hpc. destruct (Hself s0 Hs0) as (s & Hs & Ho' & Ha').
    rewrite Ho'. rewrite Ha' in Hpc.
    destruct (Hsound s p c Hs Hpc) as [Hin Hset]. split; [done|].
    by apply Hsame.
  - intros s0 c p Hs0 Hin Hset. destruct (Hself s0 Hs0) as (s & Hs & Ho' & Ha').
    rewrite Ha'. rewrite Ho' in Hin. apply (Hcomplete s c p Hs Hin).
    by apply Hsame.
Qed.

(** X5.  The attribute accessors keep the table and the setters of
    [ops] in exact correspondence: when every table entry is a setter of
    [ops] filed under its name and every setter of [ops] is the table entry
    of its name, the same holds after [set_attribute_value] and after
    [discard_attribute]. *)
Theorem attribute_accessors_keep_sync h self a v ov inh :
  attrs_in_sync h self →
  attrs_in_sync (set_attribute_value self a v ov inh h).2 self
  ∧ attrs_in_sync (discard_attribute self a h).2 self.
Proof.
  intros Hsync. pose proof Hsync as [Hsound Hcomplete].
  destruct (h !! self) as [s|] eqn:Hs.
  2:{ by rewrite set_attribute_value_no_self, discard_attribute_eq, Hs. }
  split.
  - destruct (_attrs s !! a) as [r0|] eqn:Ha.
    + destruct (Hsound s a r0 Hs Ha) as [_ (o & Ho & _)].
      rewrite (set_attribute_value_Some _ _ _ _ _ _ _ _ _ Hs Ha Ho).
      by apply (attrs_in_sync_insert_same h self r0 o).
    + rewrite (set_attribute_value_None _ _ _ _ _ _ _ Hs Ha). cbn [snd].
      set (r := fresh (dom h)).
      set (o := mkCommand _ _ _ _ _ _ _ _ _ _ _ _ _ _).
      assert (Hne : r ≠ self)
        by (apply not_eq_sym, fresh_ne; by rewrite Hs).
      (* a setter of the new store other than [r] was one before *)
      assert (Hold : ∀ c p, c ≠ r →
                is_setter (<[self := with_ops (oset_add r)
                                       (with_attrs (<[a := r]>) s)]>
                             (<[r := o]> h)) c p ↔ is_setter h c p).
      { intros c p Hc. unfold is_setter.
        destruct (decide (c = self)) as [->|Hcs].
        - rewrite lookup_insert_eq, Hs.
          split; intros (cc & [= <-] & Hk & Hp); eexists; (split; [done|]);
            by split.
        - by rewrite !lookup_insert_ne by done. }
      assert (Hnew : ∀ p, is_setter (<[self := with_ops (oset_add r)
                                         (with_attrs (<[a := r]>) s)]>
                                       (<[r := o]> h)) r p ↔ p = a).
      { intros p. unfold is_setter.
        rewrite lookup_insert_ne, lookup_insert_eq by done. split.
        - by intros (cc & [= <-] & _ & <-).
        - intros ->. by exists o. }
      split.
      * intros s0 p c. rewrite lookup_insert_eq. intros [= <-].
        cbn [with_ops with_attrs _attrs ops]. rewrite elem_of_oset_add.
        destruct (decide (p = a)) as [->|Hpa].
        -- rewrite lookup_insert_eq. intros [= <-]. split; [by right|].
           by apply Hnew.
        -- rewrite lookup_insert_ne by done. intros Hpc.
           destruct (Hsound s p c Hs Hpc) as [Hin Hset].
           split; [by left|]. apply Hold; [|done].
           destruct Hset as (cc & Hcc & _). apply fresh_ne. by rewrite Hcc.
      * intros s0 c p. rewrite lookup_insert_eq. intros [= <-].
        cbn [with_ops with_attrs _attrs ops]. rewrite elem_of_oset_add.
        intros Hin Hset. destruct (decide (c = r)) as [->|Hcr].
        -- apply Hnew in Hset as ->. by rewrite lookup_insert_eq.
        -- destruct Hin as [Hin|?]; [|done]. apply Hold in Hset; [|done].
           pose proof (Hcomplete s c p Hs Hin Hset) as Hpc.
           rewrite lookup_insert_ne; [done|]. intros <-. congruence.
  - rewrite discard_attribute_eq, Hs.
    destruct (_attrs s !! a) as [op|] eqn:Ha; [|done].
    destruct (Hsound s a op Hs Ha) as [_ (c & Hc & Hk & Hp)]. split.
    + by apply discard_sound.
    + apply (discard_complete self op c h Hc); [|done].
      intros s0 Hs0 _. assert (s0 = s) as -> by congruence.
      by rewrite Hp.
Qed.

Lemma oset_discard_idemp x l :
  oset_discard x (oset_discard x l) = oset_discard x l.
Proof.
  unfold oset_discard. induction l as [|y l IH]; [done|].
  rewrite filter_cons. destruct (decide (y ≠ x)) as [Hy|Hy]; [|done].
  rewrite filter_cons, decide_True by done. by rewrite IH.
Qed.

(** X6.  [discard] is idempotent on a command that is not a
    set-attribute command, and is not on one that is: whatever the first
    [discard] of a set-attribute command did, a second one raises KeyError
    for its attribute name; in both cases the second call leaves the store
    as the first left it. *)
Theorem discard_twice h self command c :
  is_Some (h !! self) → h !! command = Some c →
  discard self command (discard self command h).2
  = (if isinstance c AlterObjectProperty
     then Raise (KeyError (property c)) else Ok tt,
     (discard self command h).2).
Proof.
  intros [s Hs] Hc. rewrite (discard_eq self command h), Hc, Hs. cbv zeta.
  set (s1 := with_before_ops (oset_discard command)
               (with_ops (oset_discard command) s)).
  assert (Hidem : ∀ g, with_before_ops (oset_discard command)
                    (with_ops (oset_discard command) (with_attrs g s1))
                  = with_attrs g s1).
  { intros g. unfold s1, with_before_ops, with_ops, with_attrs. simpl.
    by rewrite !oset_discard_idemp. }
  assert (Hid : with_attrs (λ m, m) s1 = s1) by done.
  (* the second call, on a store where [self] holds [with_attrs g s1] *)
  assert (Hsecond : ∀ g,
            (isinstance c AlterObjectProperty = true →
             g (_attrs s) !! property c = None) →
            discard self command (<[self := with_attrs g s1]> h)
            = (if isinstance c AlterObjectProperty
               then Raise (KeyError (property c)) else Ok tt,
               <[self := with_attrs g s1]> h)).
  { intros g Hnone. rewrite discard_eq, lookup_insert_eq.
    assert (∃ c', <[self := with_attrs g s1]> h !! command = Some c'
                  ∧ isinstance c' AlterObjectProperty
                    = isinstance c AlterObjectProperty
                  ∧ property c' = property c)
      as (c' & -> & Hk & Hp).
    { destruct (decide (command = self)) as [->|Hne].
      - rewrite lookup_insert_eq. eexists. split; [done|].
        assert (c = s) as -> by congruence. done.
      - rewrite lookup_insert_ne by done. by exists c. }
    cbv zeta. rewrite Hk, Hp, Hidem, !insert_insert_eq.
    destruct (isinstance c AlterObjectProperty) eqn:Hset; [|done].
    cbn [with_attrs with_before_ops with_ops _attrs s1].
    by rewrite (Hnone eq_refl). }
  destruct (isinstance c AlterObjectProperty) eqn:Hk.
  - destruct (_attrs s !! property c) as [x|] eqn:Hx; cbn [snd].
    + apply Hsecond. intros _. apply lookup_delete_eq.
    + rewrite <- Hid. apply Hsecond. by intros _.
  - cbn [snd]. rewrite <- Hid. apply Hsecond. intros [=].
Qed.

End AttributeAPI.

Lemma with_inherited_name_sync : attrs_in_sync with_inherited_name 0.
Proof.
  split.
  - intros s p c Hs. unfold with_inherited_name in Hs.
    rewrite lookup_insert_eq in Hs. injection Hs as <-.
    cbn [with_attrs with_ops _attrs ops].
    intros [<- <-]%lookup_singleton_Some. split; [by left|].
    by exists inherited_setter.
  - intros s c p Hs. unfold with_inherited_name in Hs.
    rewrite lookup_insert_eq in Hs. injection Hs as <-.
    cbn [with_attrs with_ops _attrs ops].
    intros ->%list_elem_of_singleton (cc & Hcc & _ & <-).
    unfold with_inherited_name in Hcc.
    rewrite lookup_insert_ne, lookup_insert_eq in Hcc by done.
    injection Hcc as <-. apply lookup_singleton_eq.
Qed.

Lemma set_attribute_value_then_get_witness :
  ∃ h', set_attribute_value 0 "name" (VStr "default::Pet") VNone false
          two_setters = (Ok tt, h')
        ∧ get_attribute_value 0 "name" h' = (Ok (VStr "default::Pet"), h').
Proof.
  destruct (set_attribute_value_then_get two_setters 0
              (new_command ObjectCommand) "name" (VStr "default::Pet")
              VNone false) as (h' & s' & Hset & _ & _ & Hget & _).
  - reflexivity.
  - intros op Hop. vm_compute in Hop. discriminate.
  - by exists h'.
Defined.

Lemma set_attribute_value_other_attribute_witness :
  (get_attribute_value 0 "name"
     (set_attribute_value 0 "is_abstract" (VBool true) VNone false
        with_inherited_name).2).1
  = Ok (VStr "default::Pet").
Proof.
  apply (set_attribute_value_other_attribute with_inherited_name 0
           "is_abstract" "name" (VBool true) VNone false).
  - discriminate.
  - apply with_inherited_name_sync.
  - reflexivity.
Defined.

Lemma set_attribute_value_keeps_source_witness :
  ∃ h', set_attribute_value 0 "name" (VStr "default::Animal") VNone false
          with_inherited_name = (Ok tt, h')
        ∧ get_attribute_value 0 "name" h' = (Ok (VStr "default::Animal"), h')
        ∧ get_local_attribute_value 0 "name" h' = (Ok VNone, h').
Proof.
  destruct (set_attribute_value_keeps_source with_inherited_name 0
              (with_attrs (λ _, {["name" := 1]})
                 (with_ops (λ _, [1]) (new_command ObjectCommand)))
              "name" 1 inherited_setter (VStr "default::Animal"))
    as (h' & Hset & Hget & _ & Hlocal).
  - reflexivity.
  - reflexivity.
  - reflexivity.
  - exists h'. split; [exact Hset|]. split; [exact Hget|]. by apply Hlocal.
Defined.

Lemma discard_attribute_removes_witness :
  ∃ h', discard_attribute 0 "name" with_inherited_name = (Ok tt, h')
        ∧ get_attribute_value 0 "name" h' = (Ok VNone, h').
Proof.
  destruct (discard_attribute_removes with_inherited_name 0
              (with_attrs (λ _, {["name" := 1]})
                 (with_ops (λ _, [1]) (new_command ObjectCommand))) "name")
    as (h' & s' & Hdiscard & _ & _ & Hget & _).
  - reflexivity.
  - apply with_inherited_name_sync.
  - by exists h'.
Defined.

Lemma attribute_accessors_keep_sync_witness :
  attrs_in_sync (set_attribute_value 0 "is_abstract" (VBool true) VNone
                   false with_inherited_name).2 0.
Proof.
  apply (attribute_accessors_keep_sync with_inherited_name 0 "is_abstract"
           (VBool true) VNone false).
  apply with_inherited_name_sync.
Defined.

Lemma discard_twice_witness :
  discard 0 1 (discard 0 1 with_inherited_name).2
  = (Raise (KeyError "name"), (discard 0 1 with_inherited_name).2).
Proof.
  apply (discard_twice with_inherited_name 0 1 inherited_setter).
  - by eexists.
  - reflexivity.
Defined.

(** ** Prerequisites and counts *)

Section Prerequisites.
Implicit Types (h : Heap) (self command : ref).

Lemma add_prerequisites_loop self l h s :
  h !! self = Some s →
  for_each (λ x, update_cmd self (with_before_ops (oset_add x))) l h
  = (Ok tt,
     <[self := with_before_ops (λ b, foldl (λ acc x, oset_add x acc) b l) s]>
       h).
Proof.
  revert h s. induction l as [|x l IH]; intros h s Hs.
  - cbn [for_each foldl]. unfold ret. f_equal. symmetry.
    apply insert_id. by destruct s.
  - cbn [for_each foldl]. rewrite bind_eq, update_cmd_eq, Hs.
    rewrite (IH _ (with_before_ops (oset_add x) s)) by apply lookup_insert_eq.
    by rewrite insert_insert_eq.
Qed.

(** X7.  [add_prerequisite] changes [before_ops] only: [ops] and the
    attribute table stay as they are, so a set-attribute command added as
    a prerequisite does not become the setter of its attribute.  A group is
    spliced one level deep: its sub-commands are added as they are, in
    order, after the prerequisites already there. *)
Theorem add_prerequisite_before_ops_only h self command s c :
  h !! self = Some s → h !! command = Some c →
  ∃ s',
    add_prerequisite self command h = (Ok tt, <[self := s']> h)
    ∧ ops s' = ops s ∧ _attrs s' = _attrs s
    ∧ (∀ a, has_attribute_value s' a = has_attribute_value s a)
    ∧ before_ops s'
      = foldl (λ acc x, oset_add x acc) (before_ops s)
          (if isinstance c CommandGroup then get_subcommands c
           else [command])
    ∧ (isinstance c CommandGroup = false → command ∉ before_ops s →
       get_subcommands s' = before_ops s ++ [command] ++ ops s).
Proof.
  intros Hs Hc. unfold add_prerequisite. rewrite bind_eq. unfold deref.
  rewrite Hc. destruct (isinstance c CommandGroup) eqn:Hg.
  - rewrite (add_prerequisites_loop _ _ _ _ Hs). eexists.
    split; [reflexivity|]. by repeat split.
  - rewrite update_cmd_eq, Hs. eexists. split; [reflexivity|].
    repeat split; try done. intros _ Hnot.
    unfold get_subcommands. cbn [with_before_ops before_ops ops].
    unfold oset_add. rewrite decide_False by done. by rewrite <- app_assoc.
Qed.

Lemma count_nonattr_state l n h : (count_nonattr l n h).2 = h.
Proof.
  revert n. induction l as [|r l IH]; intros n; [done|].
  cbn [count_nonattr]. rewrite bind_eq. unfold deref.
  destruct (h !! r); [apply IH | done].
Qed.

Lemma count_nonattr_ext l n h h' :
  (∀ r, r ∈ l → (λ c, isinstance c AlterObjectProperty) <$> h !! r
                = (λ c, isinstance c AlterObjectProperty) <$> h' !! r) →
  (count_nonattr l n h).1 = (count_nonattr l n h').1.
Proof.
  revert n. induction l as [|r l IH]; intros n Hext; [done|].
  cbn [count_nonattr]. rewrite !bind_eq. unfold deref.
  pose proof (Hext r ltac:(by left)) as Hr.
  destruct (h !! r) as [c|], (h' !! r) as [c'|]; try done.
  injection Hr as ->. apply IH. intros r' Hr'. apply Hext. by right.
Qed.

Lemma count_nonattr_allocated l n h m :
  (count_nonattr l n h).1 = Ok m → ∀ r, r ∈ l → is_Some (h !! r).
Proof.
  revert n. induction l as [|r0 l IH]; intros n Hm r; [by intros ?%elem_of_nil|].
  cbn [count_nonattr] in Hm. rewrite bind_eq in Hm. unfold deref in Hm.
  destruct (h !! r0) as [c|] eqn:Hc; [|done].
  intros [->|Hr]%elem_of_cons; [by rewrite Hc | by eapply IH].
Qed.

Lemma count_nonattr_snoc l n h r c :
  h !! r = Some c → isinstance c AlterObjectProperty = true →
  (count_nonattr (l ++ [r]) n h).1 = (count_nonattr l n h).1.
Proof.
  intros Hr Hk. revert n. induction l as [|r0 l IH]; intros n.
  - cbn [app count_nonattr]. rewrite bind_eq. unfold deref.
    by rewrite Hr, Hk.
  - cbn [app count_nonattr]. rewrite !bind_eq. unfold deref.
    destruct (h !! r0); [apply IH | done].
Qed.

Lemma get_nonattr_subcommand_count_eq self h :
  (get_nonattr_subcommand_count self h).1 =
    match h !! self with
    | None => Stuck
    | Some s =>
        match (count_nonattr (ops s) 0 h).1 with
        | Ok count => (count_nonattr (before_ops s) count h).1
        | Raise e => Raise e
        | Stuck => Stuck
        end
    end.
Proof.
  unfold get_nonattr_subcommand_count. rewrite bind_eq. unfold deref.
  destruct (h !! self) as [s|]; [|done]. rewrite bind_eq.
  pose proof (count_nonattr_state (ops s) 0 h) as Hst.
  destruct (count_nonattr (ops s) 0 h) as [[count|e|] h1]; [|done..].
  cbn [fst snd] in *. by subst.
Qed.

(** X8.  Writing an attribute never changes the number of sub-commands
    that are not set-attribute commands. *)
Theorem set_attribute_value_keeps_count h self a v ov inh n :
  (get_nonattr_subcommand_count self h).1 = Ok n →
  (get_nonattr_subcommand_count self
     (set_attribute_value self a v ov inh h).2).1 = Ok n.
Proof.
  rewrite !get_nonattr_subcommand_count_eq.
  destruct (h !! self) as [s|] eqn:Hs; [|done].
  destruct (count_nonattr (ops s) 0 h).1 as [count| |] eqn:Hops; [|done..].
  intros Hbefore.
  destruct (_attrs s !! a) as [r0|] eqn:Ha.
  - destruct (h !! r0) as [o|] eqn:Ho.
    + rewrite (set_attribute_value_Some _ _ _ _ _ _ _ _ _ Hs Ha Ho).
      cbn [snd].
      assert (Hext : ∀ r, (λ c, isinstance c AlterObjectProperty)
                            <$> <[r0 := written v ov inh o]> h !! r
                          = (λ c, isinstance c AlterObjectProperty)
                              <$> h !! r).
      { intros r. destruct (decide (r = r0)) as [->|Hne].
        - by rewrite lookup_insert_eq, Ho.
        - by rewrite lookup_insert_ne. }
      assert (∃ s', <[r0 := written v ov inh o]> h !! self = Some s'
                    ∧ ops s' = ops s ∧ before_ops s' = before_ops s)
        as (s' & -> & -> & ->).
      { destruct (decide (r0 = self)) as [->|Hne].
        - rewrite lookup_insert_eq. eexists. split; [done|].
          assert (o = s) as -> by congruence. done.
        - rewrite lookup_insert_ne by done. by exists s. }
      rewrite (count_nonattr_ext _ _ _ h) by (intros; apply Hext).
      rewrite Hops.
      by rewrite (count_nonattr_ext _ _ _ h) by (intros; apply Hext).
    + (* the setter is not in the store: the call stops at once *)
      assert ((set_attribute_value self a v ov inh h).2 = h) as ->.
      { unfold set_attribute_value, get_attribute_set_cmd. msimpl.
        unfold deref. rewrite Hs. msimpl. rewrite Ha. msimpl.
        by rewrite update_cmd_eq, Ho. }
      by rewrite Hs, Hops.
  - rewrite (set_attribute_value_None _ _ _ _ _ _ _ Hs Ha). cbn [snd].
    set (r := fresh (dom h)).
    set (o := mkCommand _ _ _ _ _ _ _ _ _ _ _ _ _ _).
    rewrite lookup_insert_eq. cbn [with_ops with_attrs ops before_ops].
    assert (Hne : r ≠ self) by (apply not_eq_sym, fresh_ne; by rewrite Hs).
    pose proof (count_nonattr_allocated _ _ _ _ Hops) as Hall.
    pose proof (count_nonattr_allocated _ _ _ _ Hbefore) as Hall'.
    assert (Hext : ∀ x, is_Some (h !! x) →
              (λ c, isinstance c AlterObjectProperty)
                <$> <[self := with_ops (oset_add r)
                               (with_attrs (<[a := r]>) s)]>
                      (<[r := o]> h) !! x
              = (λ c, isinstance c AlterObjectProperty) <$> h !! x).
    { intros x Hx. destruct (decide (x = self)) as [->|Hxs].
      - by rewrite lookup_insert_eq, Hs.
      - rewrite lookup_insert_ne by done.
        by rewrite lookup_insert_ne by (apply not_eq_sym, fresh_ne; done). }
    assert (Hnot : r ∉ ops s).
    { intros Hin. by apply (fresh_ne h r (Hall r Hin)). }
    unfold oset_add. rewrite decide_False by done.
    erewrite count_nonattr_snoc; cycle 1.
    { rewrite lookup_insert_ne by done. apply lookup_insert_eq. }
    { reflexivity. }
    rewrite (count_nonattr_ext _ _ _ h) by (intros x Hx; by apply Hext, Hall).
    rewrite Hops.
    by rewrite (count_nonattr_ext _ _ _ h)
      by (intros x Hx; by apply Hext, Hall').
Qed.

End Prerequisites.

Lemma add_prerequisite_before_ops_only_witness :
  ∃ s', add_prerequisite 0 1 two_setters = (Ok tt, <[0 := s']> two_setters)
        ∧ has_attribute_value s' "name" = false
        ∧ before_ops s' = [1].
Proof.
  destruct (add_prerequisite_before_ops_only two_setters 0 1
              (new_command ObjectCommand) name_setter)
    as (s' & Hadd & _ & _ & Hhas & Hbefore & _).
  - reflexivity.
  - reflexivity.
  - exists s'. split; [exact Hadd|]. split; [by rewrite Hhas|].
    by rewrite Hbefore.
Defined.

Lemma set_attribute_value_keeps_count_witness :
  (get_nonattr_subcommand_count 0
     (set_attribute_value 0 "name" (VStr "default") VNone false
        (heap mixed_root_state)).2).1 = Ok 4.
Proof.
  apply (set_attribute_value_keeps_count (heap mixed_root_state) 0 "name"
           (VStr "default") VNone false 4).
  vm_compute. reflexivity.
Defined.

(** ** The command context *)

Section ContextBlocks.
Context {Schema : Type} `{!SchemaStore Schema} `{!Externals Schema}.
Implicit Types (st : State Schema) (schema : Schema) (self : ref).

Lemma with_stack_pop_push st t :
  with_stack pop_stack (with_stack (λ s, s ++ [t]) st) = st.
Proof.
  unfold with_stack. cbn [heap context stack _values
    disable_dep_verification renames]. rewrite pop_stack_push.
  by destruct st as [h []].
Qed.

Lemma current_push st t :
  current (with_stack (λ s, s ++ [t]) st)
  = (Ok t, with_stack (λ s, s ++ [t]) st).
Proof. unfold current, with_stack. cbn [context stack]. by rewrite last_snoc. Qed.

Lemma top_push st t :
  top (with_stack (λ s, s ++ [t]) st)
  = (Ok (default t (head (stack (context st)))),
     with_stack (λ s, s ++ [t]) st).
Proof.
  unfold top, with_stack. cbn [context stack].
  by destruct (stack (context st)).
Qed.

(** X9.  Inside [with context(token)] the current token is the one
    pushed, the parent token is the token that was current before (None on
    an empty stack) and the top token is the outermost one; after the block
    the context is as it was. *)
Theorem with_context_current_parent (t : CommandContextToken Schema) st :
  with_context t
    (let! cur := current in
     let! outermost := top in
     let! st' := get_state in
     ret (cur, outermost, parent st')) st
  = (Ok (t, default t (head (stack (context st))),
         last (stack (context st))), st).
Proof.
  unfold with_context, push. rewrite bind_eq. unfold modify, finally.
  rewrite bind_eq, current_push. cbv beta iota.
  rewrite bind_eq, top_push. cbv beta iota.
  rewrite bind_eq. unfold get_state, ret.
  by rewrite parent_push, with_stack_pop_push.
Qed.

(** X11.  [suspend_dep_verification] puts the flag back as it found it
    on every exit of its block, whatever the block did; and inside it the
    finalize phase of a Delete command removes the object without looking
    at its referrers, leaving the state as it was. *)
Theorem suspend_dep_verification_restores self schema st c o :
  heap st !! self = Some c → scls c = Some o →
  suspend_dep_verification (_delete_finalize self schema) st
  = (Ok (schema_delete schema o), st)
  ∧ ∀ A (body : M (State Schema) A),
      disable_dep_verification
        (context (suspend_dep_verification body st).2)
      = disable_dep_verification (context st).
Proof.
  intros Hc Hscls. split.
  - unfold suspend_dep_verification. msimpl. unfold finally.
    set (st1 := with_dep_verification true st).
    assert (Hc1 : heap st1 !! self = Some c) by done.
    unfold _delete_finalize, self_scls. msimpl.
    rewrite (deref'_eq _ _ _ Hc1). msimpl. rewrite Hscls. msimpl.
    replace (negb (context_canonical st1)
             && negb (disable_dep_verification (context st1))) with false
      by (by rewrite andb_false_r).
    msimpl. f_equal. by destruct st as [h []].
  - intros A body. unfold suspend_dep_verification. msimpl. unfold finally.
    by destruct (body _).
Qed.


End ContextBlocks.

Lemma suspend_dep_verification_restores_witness :
  suspend_dep_verification (_delete_finalize 1 pets_schema)
    (inside (delete_pet false))
  = (Ok (schema_delete pets_schema 10), inside (delete_pet false)).
Proof.
  apply (suspend_dep_verification_restores 1 pets_schema
           (inside (delete_pet false)) (delete_pet false) 10).
  - reflexivity.
  - reflexivity.
Defined.

(** ** What the lifecycle leaves of the context *)

Section PreservesBasics.
Context {Schema : Type} (Q : relation (CommandContext Schema)) `{!PreOrder Q}.
Implicit Types (st : State Schema).
Local Set Default Proof Using "All".

Lemma preserves_ret {A} (a : A) : preserves Q (ret a).
Proof. intros st. reflexivity. Qed.

Lemma preserves_raise {A} e : preserves Q (raise e : M (State Schema) A).
Proof. intros st. reflexivity. Qed.

Lemma preserves_stuck {A} : preserves Q (stuck : M (State Schema) A).
Proof. intros st. reflexivity. Qed.

Lemma preserves_get_state : preserves Q (get_state : M (State Schema) _).
Proof. intros st. reflexivity. Qed.

Lemma preserves_bind {A B} (m : M (State Schema) A)
    (k : A → M (State Schema) B) :
  preserves Q m → (∀ a, preserves Q (k a)) → preserves Q (bind m k).
Proof.
  intros Hm Hk st. rewrite bind_eq. pose proof (Hm st) as H1.
  destruct (m st) as [[a|e|] st1]; [|done..].
  etrans; [exact H1 | apply Hk].
Qed.

Lemma preserves_on_heap {A} (m : M Heap A) : preserves Q (on_heap m).
Proof.
  intros st. unfold on_heap. destruct (m (heap st)). reflexivity.
Qed.

Lemma preserves_current : preserves Q (current (Schema:=Schema)).
Proof.
  intros st. unfold current. destruct (last _); reflexivity.
Qed.

Lemma preserves_collect {A B} (f : A → M (State Schema) B) (l : list A) :
  (∀ x, preserves Q (f x)) → preserves Q (collect f l).
Proof.
  intros Hf. induction l as [|x l IH]; [apply preserves_ret|].
  cbn [collect]. apply preserves_bind; [apply Hf|]. intros y.
  apply preserves_bind; [apply IH|]. intros ys. apply preserves_ret.
Qed.

End PreservesBasics.

Lemma preserves_weaken {Schema A} (Q Q' : relation (CommandContext Schema))
    (m : M (State Schema) A) :
  (∀ ctx ctx', Q ctx ctx' → Q' ctx ctx') → preserves Q m → preserves Q' m.
Proof. intros Hsub Hm st. apply Hsub, Hm. Qed.

Ltac p_bind :=
  lazymatch goal with |- preserves ?Q _ => apply (preserves_bind Q) end.
Ltac p_ret :=
  lazymatch goal with |- preserves ?Q _ => apply (preserves_ret Q) end.
Ltac p_stuck :=
  lazymatch goal with |- preserves ?Q _ => apply (preserves_stuck Q) end.
Ltac p_get_state :=
  lazymatch goal with |- preserves ?Q _ => apply (preserves_get_state Q) end.
Ltac p_on_heap :=
  lazymatch goal with |- preserves ?Q _ => apply (preserves_on_heap Q) end.
Ltac p_collect :=
  lazymatch goal with |- preserves ?Q _ => apply (preserves_collect Q) end.

Ltac pres_step :=
  lazymatch goal with
  | |- preserves ?Q (ret _) => apply (preserves_ret Q)
  | |- preserves ?Q (raise _) => apply (preserves_raise Q)
  | |- preserves ?Q stuck => apply (preserves_stuck Q)
  | |- preserves ?Q get_state => apply (preserves_get_state Q)
  | |- preserves ?Q (on_heap _) => apply (preserves_on_heap Q)
  | |- preserves ?Q (deref' _) => apply (preserves_on_heap Q)
  | |- preserves ?Q current => apply (preserves_current Q)
  | |- preserves ?Q (bind _ _) => apply (preserves_bind Q); [|intros ?]
  | |- preserves _ (match ?x with _ => _ end) => destruct x
  end.

Section Preserves.
Context {Schema : Type} `{!SchemaStore Schema} `{!Externals Schema}
  `{!AlterExternals Schema}.
Context (R R' : relation (CommandContext Schema)) `{!PreOrder R}
  `{!PreOrder R'}.
Hypothesis Hsub : ∀ ctx ctx', R ctx ctx' → R' ctx ctx'.
Hypothesis Hwith : ∀ A t (body : M (State Schema) A),
  preserves R' body → preserves R (with_context t body).
Hypothesis Hvalues : ∀ ctx v,
  R ctx (mkContext (stack ctx) v (disable_dep_verification ctx) (renames ctx)).
Hypothesis Htop : ∀ o, preserves R' (set_current_scls o).
Hypothesis Hext : externals_preserve R.
Implicit Types (st : State Schema) (schema : Schema) (self : ref).
Local Set Default Proof Using "All".

Lemma preserves_get_subcommands_of self k :
  preserves R (get_subcommands_of self k).
Proof.
  intros st. unfold get_subcommands_of. destruct (heap st !! self); reflexivity.
Qed.

Lemma preserves_apply_all l schema : preserves R (apply_all l schema).
Proof.
  revert schema. induction l as [|r l IH]; intros schema;
    [p_ret|].
  cbn [apply_all]. p_bind; [apply Hext | apply IH].
Qed.

Lemma preserves_apply_others l schema : preserves R (apply_others l schema).
Proof.
  revert schema. induction l as [|r l IH]; intros schema;
    [p_ret|].
  cbn [apply_others]. p_bind; [p_get_state|].
  intros st. destruct (_ || _); [apply IH|].
  p_bind; [apply Hext | apply IH].
Qed.

Lemma preserves_apply_unless skip l schema :
  preserves R (apply_unless skip l schema).
Proof.
  revert schema. induction l as [|r l IH]; intros schema;
    [p_ret|].
  cbn [apply_unless]. p_bind; [p_get_state|].
  intros st. destruct (existsb _ _); [apply IH|].
  p_bind; [apply Hext | apply IH].
Qed.

Lemma preserves_CommandGroup_apply self schema :
  preserves R (CommandGroup_apply self schema).
Proof.
  unfold CommandGroup_apply.
  p_bind; [apply preserves_get_subcommands_of|].
  intros subs. apply preserves_apply_all.
Qed.

Lemma preserves_DeltaRoot_apply self schema :
  preserves R (DeltaRoot_apply self schema).
Proof.
  unfold DeltaRoot_apply. apply Hwith. apply (preserves_weaken R R' _ Hsub).
  repeat first
    [ apply preserves_get_subcommands_of | apply preserves_apply_all
    | apply preserves_apply_others | p_bind; [|intros ?] ].
Qed.

Lemma preserves_get_object self schema : preserves R (get_object self schema).
Proof. unfold get_object, deref'. repeat pres_step. Qed.

Lemma preserves_get_object_default_none self schema :
  preserves R (get_object_default_none self schema).
Proof. unfold get_object_default_none, deref'. repeat pres_step. Qed.

Lemma preserves_CreateObject_apply self schema :
  preserves R (CreateObject_apply self schema).
Proof.
  unfold CreateObject_apply, new_context. apply Hwith.
  p_bind; [p_on_heap|]. intros c.
  p_bind.
  { destruct (if_not_exists c); [|p_ret].
    apply (preserves_weaken R R' _ Hsub), preserves_get_object_default_none. }
  intros [o|].
  - unfold set_scls. repeat pres_step.
  - p_bind;
      [apply (preserves_weaken R R' _ Hsub), Hext|]. intros schema1.
    p_bind; [p_on_heap|]. intros c1.
    p_bind; [apply Htop|]. intros _.
    apply (preserves_weaken R R' _ Hsub).
    unfold _create_innards, _create_finalize, deref'.
    repeat first [ apply preserves_apply_all | pres_step ].
Qed.

Lemma preserves_delete_finalize self schema :
  preserves R (_delete_finalize self schema).
Proof. unfold _delete_finalize, self_scls, deref'. repeat pres_step. Qed.

Lemma preserves_DeleteObject_apply self schema :
  preserves R (DeleteObject_apply self schema).
Proof.
  unfold DeleteObject_apply, new_context, set_scls.
  p_bind; [apply preserves_get_object|]. intros o.
  p_bind; [p_on_heap|]. intros _.
  apply Hwith. apply (preserves_weaken R R' _ Hsub).
  p_bind; [p_on_heap|]. intros c.
  destruct (_ && _).
  - unfold discard_from_parent. repeat pres_step.
  - p_bind; [apply Hext|]. intros schema1.
    p_bind; [|intros ?; apply preserves_delete_finalize].
    unfold _delete_innards.
    p_bind; [apply preserves_get_subcommands_of|].
    intros subs. apply preserves_apply_all.
Qed.

Lemma preserves_AlterObject_apply if_exists self schema :
  preserves R (AlterObject_apply if_exists self schema).
Proof.
  unfold AlterObject_apply, new_context, set_scls.
  p_bind; [p_get_state|]. intros st.
  p_bind.
  { destruct (_ && _); [apply preserves_get_object_default_none|].
    p_bind; [apply preserves_get_object|]. intros o.
    p_ret. }
  intros [o|]; [|repeat pres_step].
  p_bind; [p_on_heap|]. intros _.
  apply Hwith. apply (preserves_weaken R R' _ Hsub).
  unfold AlterObject_alter_begin, AlterObject_alter_innards,
    AlterObject_alter_finalize, deref'.
  p_bind.
  { p_bind; [apply Hext|]. intros _.
    p_bind; [p_on_heap|]. intros c.
    p_bind; [apply preserves_apply_all|]. intros schema1.
    p_bind; [apply preserves_get_subcommands_of|]. intros subs.
    p_bind; [apply preserves_apply_all|]. intros schema2.
    p_bind; [p_get_state|]. intros st2.
    p_bind; [|intros ?; apply Hext].
    destruct (negb _); [apply Hext | p_ret]. }
  intros schema1. p_bind; [|intros ?; apply Hext].
  p_bind; [p_on_heap|]. intros c.
  apply preserves_apply_unless.
Qed.

Lemma preserves_store_value key v :
  preserves R (store_value (Schema:=Schema) key v).
Proof. intros st. apply Hvalues. Qed.

Lemma preserves_RenameObject_canonicalize fuel self schema o :
  preserves R (RenameObject_canonicalize fuel self schema o).
Proof.
  revert self o. induction fuel as [|fuel IH]; intros self o;
    [p_stuck|].
  cbn [RenameObject_canonicalize]. p_bind.
  - p_collect. intros ref_. unfold deref'.
    p_bind; [p_on_heap|]. intros c.
    p_bind; [p_on_heap|]. intros alter.
    p_bind; [p_on_heap|]. intros rename.
    p_bind; [p_on_heap|]. intros _.
    p_bind.
    { unfold new_context. apply Hwith. apply (preserves_weaken R R' _ Hsub).
      p_bind; [apply IH|]. intros sub.
      p_on_heap. }
    intros _. repeat pres_step.
  - intros commands.
    p_bind; [apply preserves_store_value|]. intros _.
    p_ret.
Qed.

Lemma preserves_rename_cascade fuel self schema :
  preserves R (rename_cascade fuel self schema).
Proof.
  unfold rename_cascade, deref', self_scls.
  p_bind; [p_get_state|]. intros st.
  destruct (context_canonical st); [p_ret|].
  p_bind; [p_on_heap|]. intros c.
  p_bind; [p_on_heap|]. intros _.
  p_bind; [p_get_state|]. intros st1.
  destruct (truthy _); [p_ret|].
  p_bind; [repeat pres_step|]. intros o.
  p_bind; [apply preserves_RenameObject_canonicalize|].
  intros commands. p_on_heap.
Qed.

Lemma preserves_rename_begin fuel self schema :
  preserves R (_rename_begin fuel self schema).
Proof.
  unfold _rename_begin, self_scls, deref'.
  p_bind; [apply Hext|]. intros _.
  p_bind; [repeat pres_step|]. intros o.
  p_bind; [apply Hext|]. intros schema1.
  p_bind; [apply preserves_rename_cascade|]. intros _.
  p_bind; [p_on_heap|]. intros c.
  p_bind; [apply preserves_apply_all|]. intros schema2.
  p_ret.
Qed.

(** The phases of [RenameObject.apply] once the rename is recorded. *)
Lemma preserves_rename_phases fuel self schema :
  preserves R
    (let! schema := _rename_begin fuel self schema in
     let! schema := _rename_innards self schema in
     _rename_finalize self schema).
Proof.
  p_bind; [apply preserves_rename_begin|]. intros schema1.
  p_bind; [|intros ?; apply Hext].
  unfold _rename_innards, deref'.
  p_bind; [p_on_heap|]. intros c.
  apply preserves_apply_unless.
Qed.

Lemma preserves_RenameObject_apply fuel self schema :
  (∀ ctx r,
     R ctx (mkContext (stack ctx) (_values ctx)
              (disable_dep_verification ctx) r)) →
  preserves R (RenameObject_apply fuel self schema).
Proof.
  intros Hren. unfold RenameObject_apply, AlterObjectFragment_get_parent_op,
    set_scls, deref'.
  p_bind; [repeat pres_step|]. intros parent_op.
  p_bind; [p_on_heap|]. intros p.
  destruct (scls p) as [o|]; [|p_stuck].
  p_bind; [p_on_heap|]. intros _.
  p_bind; [p_on_heap|]. intros c.
  p_bind; [intros st; apply Hren|]. intros _.
  apply preserves_rename_phases.
Qed.

End Preserves.

Section StackBalance.
Context {Schema : Type} `{!SchemaStore Schema} `{!Externals Schema}
  `{!AlterExternals Schema}.
Implicit Types (st : State Schema) (schema : Schema) (self : ref).

Lemma same_on_stack_below_top (ctx ctx' : CommandContext Schema) :
  same_on stack ctx ctx' → same_below_top ctx ctx'.
Proof. unfold same_on, same_below_top. by intros ->. Qed.

(** A block that changes at most the innermost token leaves, once its
    token is popped, the stack it found. *)
Lemma with_context_restores_stack {A} t (body : M (State Schema) A) :
  preserves same_below_top body → preserves (same_on stack) (with_context t body).
Proof.
  intros Hbody st. unfold with_context, push. rewrite bind_eq.
  unfold modify, finally.
  destruct (Hbody (with_stack (λ s, s ++ [t]) st)) as [_ Hpop].
  destruct (body _) as [r st2]. unfold same_on.
  cbn [snd with_stack context stack] in *. by rewrite Hpop, pop_stack_push.
Qed.

Lemma set_current_scls_below_top o :
  preserves same_below_top (set_current_scls (Schema:=Schema) o).
Proof.
  intros st. unfold set_current_scls. rewrite bind_eq. unfold current.
  destruct (last (stack (context st))) as [t|] eqn:Hlast; [|by split].
  unfold modify. cbn [snd with_stack context stack]. rewrite Hlast.
  assert (Hlen : length (stack (context st)) ≠ 0).
  { destruct (stack (context st)); [done | simpl; lia]. }
  split; cbn [stack].
  - rewrite length_app, length_take. simpl. lia.
  - unfold pop_stack at 1. rewrite length_app, length_take. simpl.
    rewrite take_app_length'; [done|]. rewrite length_take. lia.
Qed.

(** X10.  The [apply] methods are balanced on the context stack: when
    the collaborators leave the stack as they find it, so does each
    [apply], whether it returns or raises. *)
Theorem apply_restores_stack self schema st if_exists fuel :
  externals_preserve (same_on stack) →
  stack (context (CommandGroup_apply self schema st).2) = stack (context st)
  ∧ stack (context (DeltaRoot_apply self schema st).2) = stack (context st)
  ∧ stack (context (CreateObject_apply self schema st).2)
    = stack (context st)
  ∧ stack (context (DeleteObject_apply self schema st).2)
    = stack (context st)
  ∧ stack (context (AlterObject_apply if_exists self schema st).2)
    = stack (context st)
  ∧ stack (context (RenameObject_apply fuel self schema st).2)
    = stack (context st).
Proof.
  intros Hext.
  pose proof (λ A, @with_context_restores_stack A) as Hwith.
  pose proof set_current_scls_below_top as Htop.
  pose proof same_on_stack_below_top as Hsub.
  assert (Hvalues : ∀ (ctx : CommandContext Schema) v,
            same_on stack ctx
              (mkContext (stack ctx) v (disable_dep_verification ctx)
                 (renames ctx))) by done.
  split; [|split; [|split; [|split; [|split]]]].
  - by apply (preserves_CommandGroup_apply (same_on stack) same_below_top).
  - by apply (preserves_DeltaRoot_apply (same_on stack) same_below_top).
  - by apply (preserves_CreateObject_apply (same_on stack) same_below_top).
  - by apply (preserves_DeleteObject_apply (same_on stack) same_below_top).
  - by apply (preserves_AlterObject_apply (same_on stack) same_below_top).
  - by apply (preserves_RenameObject_apply (same_on stack) same_below_top).
Qed.

Lemma with_context_keeps_renames {A} t (body : M (State Schema) A) :
  preserves (same_on renames) body →
  preserves (same_on renames) (with_context t body).
Proof.
  intros Hbody st. unfold with_context, push. rewrite bind_eq.
  unfold modify, finally.
  pose proof (Hbody (with_stack (λ s, s ++ [t]) st)) as Hb.
  destruct (body _) as [r st2]. unfold same_on in *.
  cbn [snd with_stack context renames] in *. done.
Qed.

Lemma set_current_scls_keeps_renames o :
  preserves (same_on renames) (set_current_scls (Schema:=Schema) o).
Proof.
  intros st. unfold set_current_scls. rewrite bind_eq. unfold current.
  by destruct (last (stack (context st))).
Qed.

(** X20.  [RenameObject.apply], run under the token of an object
    command that has its object, records the rename in the context before
    anything else, and no phase removes it: afterwards, on every exit, the
    old name maps to the new one, so a command addressed by the old name
    resolves the new name. *)
Theorem RenameObject_apply_records_rename fuel self schema st t p o c :
  externals_preserve (same_on renames) →
  last (stack (context st)) = Some t → heap st !! op t = Some p →
  isinstance p ObjectCommand = true → scls p = Some o →
  heap st !! self = Some c →
  renames (context (RenameObject_apply fuel self schema st).2)
  = <[classname c := new_name c]> (renames (context st))
  ∧ ∀ d, classname d = classname c →
      resolved_name (RenameObject_apply fuel self schema st).2 d = new_name c.
Proof.
  intros Hext Hlast Hp Hk Hscls Hc.
  assert (Hren : renames (context (RenameObject_apply fuel self schema st).2)
                 = <[classname c := new_name c]> (renames (context st))).
  { assert (Hparent : AlterObjectFragment_get_parent_op self st
                      = (Ok (op t), st)).
    { unfold AlterObjectFragment_get_parent_op. rewrite bind_eq.
      unfold current. rewrite Hlast. cbv beta iota.
      rewrite bind_eq, (deref'_eq _ _ _ Hp). cbv beta iota. by rewrite Hk. }
    unfold RenameObject_apply. rewrite bind_eq, Hparent. cbv beta iota.
    rewrite bind_eq, (deref'_eq _ _ _ Hp). cbv beta iota. rewrite Hscls.
    rewrite bind_eq. unfold set_scls.
    rewrite on_heap_eq, update_cmd_eq, Hc. cbn [fst snd].
    set (st1 := mkState (<[self := with_scls (Some o) c]> (heap st))
                  (context st)).
    assert (Hc1 : heap st1 !! self = Some (with_scls (Some o) c))
      by apply lookup_insert_eq.
    rewrite bind_eq, (deref'_eq _ _ _ Hc1). cbv beta iota.
    rewrite bind_eq. unfold modify at 1. cbv beta iota.
    cbn [with_scls classname new_name].
    pose proof (preserves_rename_phases (same_on renames) (same_on renames)
                  (λ _ _ H, H) (λ A, @with_context_keeps_renames A)
                  ltac:(done) set_current_scls_keeps_renames Hext
                  fuel self schema
                  (with_renames (<[classname c := new_name c]>) st1)) as Hph.
    unfold same_on in Hph. rewrite Hph. done. }
  split; [exact Hren|]. intros d Hd. unfold resolved_name.
  by rewrite Hren, Hd, lookup_insert_eq.
Qed.

(** X19.  The parent command of a fragment is the command of the
    current token, where [ObjectCommand.get_parent_op] takes the token
    below it; so a Rename applied on an empty stack raises KeyError, and
    one applied under a token whose command is not an object command
    raises AssertionError, in both cases before the rename is recorded;
    and on a stack of one token [ObjectCommand.get_parent_op] finds no
    parent. *)
Theorem RenameObject_apply_outside_object_command fuel self schema st :
  (stack (context st) = [] →
   RenameObject_apply fuel self schema st
   = (Raise (KeyError "command context stack is empty"), st))
  ∧ (∀ t p, last (stack (context st)) = Some t → heap st !! op t = Some p →
       isinstance p ObjectCommand = false →
       RenameObject_apply fuel self schema st = (Raise (AssertionError ""), st))
  ∧ (∀ t p, stack (context st) = [t] → heap st !! op t = Some p →
       isinstance p ObjectCommand = true →
       AlterObjectFragment_get_parent_op self st = (Ok (op t), st)
       ∧ get_parent_op self st
         = (Raise (AssertionError "no parent context"), st)).
Proof.
  split; [|split].
  - intros Hempty. unfold RenameObject_apply,
      AlterObjectFragment_get_parent_op. rewrite !bind_eq.
    unfold current. by rewrite Hempty.
  - intros t p Hlast Hp Hk. unfold RenameObject_apply,
      AlterObjectFragment_get_parent_op. rewrite !bind_eq.
    unfold current. rewrite Hlast. cbv beta iota.
    rewrite bind_eq, (deref'_eq _ _ _ Hp). cbv beta iota. by rewrite Hk.
  - intros t p Hstack Hp Hk. split.
    + unfold AlterObjectFragment_get_parent_op. rewrite !bind_eq.
      unfold current. rewrite Hstack. cbn [last]. cbv beta iota.
      rewrite bind_eq, (deref'_eq _ _ _ Hp). cbv beta iota. by rewrite Hk.
    + unfold get_parent_op. rewrite bind_eq. unfold get_state.
      unfold parent. rewrite Hstack. done.
Qed.

(** X18.  [AlterObject.apply] on a name that does not resolve: with
    [if_exists] set and no canonical command on the stack it returns the
    schema unchanged and discards the command from the command of the
    current token (the block of the Alter is not entered, so that is the
    enclosing command), or raises KeyError when the stack is empty; without
    [if_exists], or under a canonical command, the missing object is an
    error. *)
Theorem AlterObject_apply_if_exists self schema st c :
  heap st !! self = Some c → isinstance c AlterObject = true →
  schema_get schema (resolved_name st c) = None →
  (context_canonical st = false →
   ∀ t p, last (stack (context st)) = Some t → heap st !! op t = Some p →
     ∃ st', AlterObject_apply true self schema st = (Ok schema, st')
       ∧ context st' = context st
       ∧ ∃ p', heap st' !! op t = Some p'
               ∧ (self ∉ ops p') ∧ (self ∉ before_ops p'))
  ∧ (context_canonical st = false → stack (context st) = [] →
     AlterObject_apply true self schema st
     = (Raise (KeyError "command context stack is empty"), st))
  ∧ AlterObject_apply false self schema st
    = (Raise (InvalidReferenceError (resolved_name st c)), st)
  ∧ (context_canonical st = true →
     AlterObject_apply true self schema st
     = (Raise (InvalidReferenceError (resolved_name st c)), st)).
Proof.
  intros Hc Hk Hget.
  assert (Hmissing : get_object self schema st
                     = (Raise (InvalidReferenceError (resolved_name st c)), st)).
  { unfold get_object. rewrite bind_eq, (deref'_eq _ _ _ Hc).
    cbv beta iota. rewrite bind_eq. unfold get_state. by rewrite Hget. }
  assert (Hnone : get_object_default_none self schema st = (Ok None, st)).
  { unfold get_object_default_none. rewrite bind_eq, (deref'_eq _ _ _ Hc).
    cbv beta iota. rewrite bind_eq. unfold get_state, ret. by rewrite Hget. }
  assert (Hplain : isinstance c AlterObjectProperty = false).
  { unfold isinstance in *. by destruct (cls c). }
  split; [|split; [|split]].
  - intros Hcan t p Hlast Hp. unfold AlterObject_apply.
    rewrite bind_eq. unfold get_state at 1. cbv beta iota.
    rewrite Hcan. cbn [negb andb]. rewrite bind_eq, Hnone.
    cbv beta iota. rewrite bind_eq. unfold current. rewrite Hlast.
    rewrite bind_eq, on_heap_eq.
    rewrite (discard_plain _ _ _ _ _ Hc Hp Hplain). cbn [fst snd].
    eexists. split; [reflexivity|]. split; [done|].
    eexists. split; [apply lookup_insert_eq|].
    split; apply not_elem_of_oset_discard.
  - intros Hcan Hempty. unfold AlterObject_apply.
    rewrite bind_eq. unfold get_state at 1. cbv beta iota.
    rewrite Hcan. cbn [negb andb]. rewrite bind_eq, Hnone.
    cbv beta iota. rewrite bind_eq. unfold current. by rewrite Hempty.
  - unfold AlterObject_apply. rewrite bind_eq. unfold get_state at 1.
    cbv beta iota. rewrite andb_false_r. by rewrite !bind_eq, Hmissing.
  - intros Hcan. unfold AlterObject_apply. rewrite bind_eq.
    unfold get_state at 1. cbv beta iota. rewrite Hcan. cbn [negb andb].
    by rewrite !bind_eq, Hmissing.
Qed.

End StackBalance.

Lemma apply_restores_stack_witness :
  stack (context (DeleteObject_apply 1 pets_schema
                    (below_root (delete_pet false))).2)
  = stack (context (below_root (delete_pet false))).
Proof.
  apply (apply_restores_stack 1 pets_schema (below_root (delete_pet false))
           false 0).
  intros r schema. repeat split.
Defined.

Lemma RenameObject_apply_records_rename_witness :
  resolved_name (RenameObject_apply 3 1 owner_schema renaming_state).2
    rename_pet
  = "default::Animal".
Proof.
  apply (RenameObject_apply_records_rename 3 1 owner_schema renaming_state
           (mkToken owner_schema 0 (Some 10))
           (with_scls (Some 10)
              (with_ops (λ _, [1]) (new_command AlterObject)))
           10 rename_pet).
  - intros r schema. repeat split.
  - reflexivity.
  - reflexivity.
  - reflexivity.
  - reflexivity.
  - reflexivity.
  - reflexivity.
Defined.

Lemma RenameObject_apply_outside_object_command_witness :
  RenameObject_apply 3 1 pets_schema (below_root rename_pet)
  = (Raise (AssertionError ""), below_root rename_pet).
Proof.
  destruct (RenameObject_apply_outside_object_command 3 1 pets_schema
              (below_root rename_pet)) as (_ & Hassert & _).
  apply (Hassert (mkToken pets_schema 0 None)
           (with_ops (λ _, [1]) (new_command DeltaRoot))); reflexivity.
Defined.

Lemma AlterObject_apply_if_exists_witness :
  ∃ st', AlterObject_apply true 1 pets_schema (below_root alter_ghost)
         = (Ok pets_schema, st')
         ∧ ∃ p', heap st' !! 0 = Some p' ∧ (1 ∉ ops p').
Proof.
  destruct (AlterObject_apply_if_exists 1 pets_schema
              (below_root alter_ghost) alter_ghost) as (Hskip & _).
  - reflexivity.
  - reflexivity.
  - reflexivity.
  - destruct (Hskip eq_refl (mkToken pets_schema 0 None)
                (with_ops (λ _, [1]) (new_command DeltaRoot)))
      as (st' & Happly & _ & p' & Hp' & Hops & _).
    + reflexivity.
    + reflexivity.
    + exists st'. split; [exact Happly|]. by exists p'.
Defined.

(** ** More of [delta_objects] *)

Section DeltaMore.
Context {Schema : Type} `{!SchemaStore Schema} `{!Topological}.
Implicit Types (old new : list nat) (sclass : SchemaClass)
  (guidance : option DeltaGuidance) (old_schema new_schema : Schema)
  (cm : list (nat * (Q * nat))).

Lemma elem_of_OrderedSet (l : list nat) x : x ∈ OrderedSet l ↔ x ∈ l.
Proof.
  unfold OrderedSet.
  assert (Hgen : ∀ acc, x ∈ foldl (λ acc x, oset_add x acc) acc l
                        ↔ x ∈ acc ∨ x ∈ l).
  { induction l as [|y l IH]; intros acc; cbn [foldl].
    - split; [by left|]. by intros [?|?%elem_of_nil].
    - rewrite IH, elem_of_oset_add, elem_of_cons. tauto. }
  rewrite Hgen. split; [by intros [?%elem_of_nil|?] | by right].
Qed.

Lemma filter_all {A} (P : A → Prop) `{!∀ x, Decision (P x)} (l : list A) :
  (∀ x, x ∈ l → P x) → filter P l = l.
Proof.
  induction l as [|x l IH]; intros Hall; [done|].
  rewrite filter_cons_True by (apply Hall; by left).
  rewrite IH; [done|]. intros y Hy. apply Hall. by right.
Qed.

Lemma elem_of_changed_objects old new old_schema new_schema :
  (∀ y, y ∈ (changed_objects old new old_schema new_schema).1 ↔
        y ∈ old ∧ hash_criteria old_schema y
                  ∉ map (hash_criteria new_schema) new)
  ∧ (∀ x, x ∈ (changed_objects old new old_schema new_schema).2 ↔
          x ∈ new ∧ hash_criteria new_schema x
                    ∉ map (hash_criteria old_schema) old).
Proof.
  unfold changed_objects. cbn [fst snd]. split.
  - intros y. rewrite elem_of_OrderedSet, list_elem_of_filter.
    rewrite list_elem_of_filter. split.
    + intros [Hnot Hy]. split; [done|]. intros Hin. apply Hnot.
      split; [done|]. apply elem_of_map. by exists y.
    + intros [Hy Hnot]. split; [|done]. by intros [? _].
  - intros x. rewrite elem_of_OrderedSet, list_elem_of_filter.
    rewrite list_elem_of_filter. split.
    + intros [Hnot Hx]. split; [done|]. intros Hin. apply Hnot.
      split; [|done]. apply elem_of_map. by exists x.
    + intros [Hx Hnot]. split; [|done]. by intros [_ ?].
Qed.

(** The score of a matched pair is the similarity of its objects. *)
Lemma comparison_map_similarity old new sclass guidance old_schema new_schema
    x y s :
  (x, (s, y)) ∈ comparison_map old new sclass guidance old_schema new_schema →
  s = similarity_of sclass guidance old_schema new_schema x y.
Proof.
  intros Hin. unfold comparison_map in Hin.
  destruct (greedy_match_spec
              (full_matrix old new sclass guidance old_schema new_schema)
              [] []) as (_ & _ & _ & _ & Sub & _).
  assert (Hfm : (x, y, s) ∈ full_matrix old new sclass guidance
                               old_schema new_schema).
  { eapply elem_of_sublist; [|exact Sub].
    apply elem_of_map. by exists (x, (s, y)). }
  rewrite full_matrix_Permutation in Hfm.
  by apply elem_of_map in Hfm as ([x' y'] & [= -> -> <-] & _).
Qed.

(** X13.  The guidance is obeyed: no Create command for a banned
    creation, no Delete command for a banned deletion, and no Alter
    command for a banned (old name, new name) pair. *)
Theorem delta_objects_respects_guidance
    old new sclass g old_schema new_schema cmds :
  delta_objects old new sclass (Some g) old_schema new_schema = Ok cmds →
  (∀ x, CreateDelta x ∈ cmds →
     (sclass, get_name new_schema x) ∉ banned_creations g)
  ∧ (∀ y, DeleteDelta y ∈ cmds →
       (sclass, get_name old_schema y) ∉ banned_deletions g)
  ∧ (∀ y x, AlterDelta y x ∈ cmds →
       (sclass, (get_name old_schema y, get_name new_schema x))
       ∉ banned_alters g).
Proof.
  unfold delta_objects.
  destruct (changed_objects old new old_schema new_schema) as [old' new'].
  set (cm := comparison_map old' new' sclass (Some g) old_schema new_schema).
  destruct (alter_loop cm (alter_order sclass new_schema cm))
    as [alters| |] eqn:Hloop; [|done..].
  intros [= <-].
  destruct (delta_elems
              (filter (λ x, not_banned (banned_creations <$> Some g) sclass
                              (get_name new_schema x) = true)
                 (created_objects cm new'))
              (filter (λ y, not_banned (banned_deletions <$> Some g) sclass
                              (get_name old_schema y) = true)
                 (deleted_order sclass old_schema (deleted_objects cm old')))
              alters (alter_loop_alters _ _ _ Hloop)) as (Hc & Hd & Ha).
  split; [|split].
  - intros x. rewrite Hc, list_elem_of_filter. intros [Hnb _].
    by apply bool_decide_eq_true_1 in Hnb.
  - intros y. rewrite Hd, list_elem_of_filter. intros [Hnb _].
    by apply bool_decide_eq_true_1 in Hnb.
  - intros y x. rewrite Ha, (alter_loop_elem _ _ _ _ _ Hloop).
    intros (_ & s & Hs & Hlo & _) Hban.
    apply map_lookup_Some, comparison_map_similarity in Hs.
    unfold similarity_of in Hs. rewrite decide_True in Hs by done.
    subst s. by apply Qlt_bool_iff in Hlo.
Qed.

(** X14.  Objects whose fingerprint occurs on both sides are left
    alone: every object a command creates, alters or deletes is one of the
    given objects whose [hash_criteria] does not occur on the other side;
    so when every fingerprint of each side occurs on the other, the delta
    is empty.  For an inheriting class this is given that the inheritance
    sort of the objects to delete returns no object it was not given. *)
Theorem delta_objects_skips_unchanged
    old new sclass guidance old_schema new_schema cmds :
  let changed := changed_objects old new old_schema new_schema in
  let cm := comparison_map changed.1 changed.2 sclass guidance
              old_schema new_schema in
  delta_objects old new sclass guidance old_schema new_schema = Ok cmds →
  (inheriting sclass = true →
   ∀ z, z ∈ _sort_by_inheritance old_schema (deleted_objects cm changed.1) →
        z ∈ deleted_objects cm changed.1) →
  (∀ x, CreateDelta x ∈ cmds ∨ (∃ y, AlterDelta y x ∈ cmds) →
     x ∈ new ∧ hash_criteria new_schema x
               ∉ map (hash_criteria old_schema) old)
  ∧ (∀ y, DeleteDelta y ∈ cmds ∨ (∃ x, AlterDelta y x ∈ cmds) →
       y ∈ old ∧ hash_criteria old_schema y
                 ∉ map (hash_criteria new_schema) new)
  ∧ ((∀ y, y ∈ old → hash_criteria old_schema y
                       ∈ map (hash_criteria new_schema) new) →
     (∀ x, x ∈ new → hash_criteria new_schema x
                       ∈ map (hash_criteria old_schema) old) →
     cmds = []).
Proof.
  destruct (elem_of_changed_objects old new old_schema new_schema)
    as [Hold Hnew].
  unfold delta_objects.
  destruct (changed_objects old new old_schema new_schema) as [old' new'].
  cbn [fst snd] in Hold, Hnew |- *.
  set (cm := comparison_map old' new' sclass guidance old_schema new_schema).
  intros Hrun Hsort.
  destruct (alter_loop cm (alter_order sclass new_schema cm))
    as [alters| |] eqn:Hloop; [|done..].
  injection Hrun as <-.
  set (cs := filter (λ x, not_banned (banned_creations <$> guidance) sclass
                            (get_name new_schema x) = true)
               (created_objects cm new')).
  set (ds := filter (λ y, not_banned (banned_deletions <$> guidance) sclass
                            (get_name old_schema y) = true)
               (deleted_order sclass old_schema (deleted_objects cm old'))).
  destruct (delta_elems cs ds alters (alter_loop_alters _ _ _ Hloop))
    as (Hc & Hd & Ha).
  assert (Halter : ∀ y x, AlterDelta y x ∈ alters → x ∈ new' ∧ y ∈ old').
  { intros y x. rewrite (alter_loop_elem _ _ _ _ _ Hloop).
    intros (_ & s & Hs & _). apply map_lookup_Some in Hs.
    by apply comparison_map_elem in Hs. }
  assert (Hcreated : ∀ x,
            CreateDelta x ∈ map CreateDelta cs ++ alters ++ map DeleteDelta ds
            ∨ (∃ y, AlterDelta y x
                    ∈ map CreateDelta cs ++ alters ++ map DeleteDelta ds) →
            x ∈ new').
  { intros x [Hx|[y Hx]].
    - apply Hc, list_elem_of_filter in Hx as [_ Hx].
      unfold created_objects in Hx. by apply list_elem_of_filter in Hx as [_ ?].
    - apply Ha, Halter in Hx. by destruct Hx. }
  assert (Hdeleted : ∀ y,
            DeleteDelta y ∈ map CreateDelta cs ++ alters ++ map DeleteDelta ds
            ∨ (∃ x, AlterDelta y x
                    ∈ map CreateDelta cs ++ alters ++ map DeleteDelta ds) →
            y ∈ old').
  { intros y [Hy|[x Hy]].
    - apply Hd, list_elem_of_filter in Hy as [_ Hy].
      unfold deleted_order in Hy.
      destruct (inheriting sclass) eqn:Hi; [apply (Hsort eq_refl) in Hy|];
        unfold deleted_objects in Hy;
        by apply list_elem_of_filter in Hy as [_ ?].
    - apply Ha, Halter in Hy. by destruct Hy. }
  split; [|split].
  - intros x Hx. by apply Hnew, Hcreated.
  - intros y Hy. by apply Hold, Hdeleted.
  - intros Hall_old Hall_new.
    match goal with |- ?l = [] => destruct l as [|c l'] eqn:Hl end; [done|].
    exfalso. destruct c as [x|y x|y].
    + assert (Hx : x ∈ new') by (apply Hcreated; left; rewrite ?Hl; by left).
      apply Hnew in Hx as [Hx Hnot]. by apply Hnot, Hall_new.
    + assert (Hx : x ∈ new')
        by (apply Hcreated; right; exists y; rewrite ?Hl; by left).
      apply Hnew in Hx as [Hx Hnot]. by apply Hnot, Hall_new.
    + assert (Hy : y ∈ old') by (apply Hdeleted; left; rewrite ?Hl; by left).
      apply Hold in Hy as [Hy Hnot]. by apply Hnot, Hall_old.
Qed.

Lemma map_lookup_is_Some cm x :
  x ∈ map fst cm → is_Some (map_lookup cm x).
Proof.
  induction cm as [|[k e] cm IH]; cbn [map fst map_lookup];
    [by intros ?%elem_of_nil|].
  destruct (decide (k = x)) as [->|Hne]; [by eexists|].
  intros [?|Hin]%elem_of_cons; [done | by apply IH].
Qed.

Lemma alter_loop_total cm order :
  Forall (λ z, z ∈ map fst cm) order → ∃ alters, alter_loop cm order = Ok alters.
Proof.
  induction 1 as [|x order Hx _ [alters IH]]; [by exists []|].
  cbn [alter_loop]. destruct (map_lookup_is_Some cm x Hx) as [[s y] ->].
  rewrite IH. destruct (_ && _); by eexists.
Qed.

Lemma alter_loop_KeyError cm order :
  ¬ Forall (λ z, z ∈ map fst cm) order →
  alter_loop cm order = Raise (KeyError "comparison_map").
Proof.
  induction order as [|x order IH]; intros Hnot; [by destruct Hnot|].
  cbn [alter_loop]. destruct (map_lookup cm x) as [[s y]|] eqn:Hl; [|done].
  rewrite IH; [done|]. intros Hall. apply Hnot. constructor; [|done].
  apply map_lookup_Some in Hl. apply elem_of_map. by exists (x, (s, y)).
Qed.

Lemma alter_order_keys sclass new_schema cm :
  (inheriting sclass = true →
   ∀ z, z ∈ _sort_by_inheritance new_schema (map fst cm) → z ∈ map fst cm) →
  Forall (λ z, z ∈ map fst cm) (alter_order sclass new_schema cm).
Proof.
  intros Hsort. unfold alter_order. destruct cm as [|e cm']; [constructor|].
  apply Forall_forall. destruct (inheriting sclass); [by apply Hsort | done].
Qed.

(** X15.  [delta_objects] fails in one way only: [comparison_map[x]]
    raises KeyError when the order it walks holds an object that is not a
    key of the map.  That order is the map's own keys for a class without
    inheritance, so there the diff always returns; for an inheriting class
    it returns when the inheritance sort returns no object it was not
    given, and raises KeyError otherwise. *)
Theorem delta_objects_KeyError
    old new sclass guidance old_schema new_schema :
  let changed := changed_objects old new old_schema new_schema in
  let cm := comparison_map changed.1 changed.2 sclass guidance
              old_schema new_schema in
  (Forall (λ z, z ∈ map fst cm) (alter_order sclass new_schema cm) →
   ∃ cmds,
     delta_objects old new sclass guidance old_schema new_schema = Ok cmds)
  ∧ (¬ Forall (λ z, z ∈ map fst cm) (alter_order sclass new_schema cm) →
     delta_objects old new sclass guidance old_schema new_schema
     = Raise (KeyError "comparison_map"))
  ∧ (inheriting sclass = false →
     ∃ cmds,
       delta_objects old new sclass guidance old_schema new_schema = Ok cmds)
  ∧ ((∀ z, z ∈ _sort_by_inheritance new_schema (map fst cm) →
           z ∈ map fst cm) →
     ∃ cmds,
       delta_objects old new sclass guidance old_schema new_schema = Ok cmds).
Proof.
  unfold delta_objects.
  destruct (changed_objects old new old_schema new_schema) as [old' new'].
  cbn [fst snd].
  set (cm := comparison_map old' new' sclass guidance old_schema new_schema).
  assert (Hok : Forall (λ z, z ∈ map fst cm)
                  (alter_order sclass new_schema cm) →
                ∃ cmds,
                  match alter_loop cm (alter_order sclass new_schema cm) with
                  | Ok alters =>
                      Ok (map CreateDelta
                            (filter (λ x, not_banned
                                            (banned_creations <$> guidance)
                                            sclass (get_name new_schema x)
                                          = true)
                               (created_objects cm new'))
                          ++ alters
                          ++ map DeleteDelta
                               (filter (λ y, not_banned
                                               (banned_deletions <$> guidance)
                                               sclass (get_name old_schema y)
                                             = true)
                                  (deleted_order sclass old_schema
                                     (deleted_objects cm old'))))
                  | other => other
                  end = Ok cmds).
  { intros Hall. destruct (alter_loop_total _ _ Hall) as [alters ->].
    by eexists. }
  split; [exact Hok|]. split; [|split].
  - intros Hnot. by rewrite (alter_loop_KeyError _ _ Hnot).
  - intros Hinh. apply Hok, alter_order_keys. by rewrite Hinh.
  - intros Hsort. apply Hok, alter_order_keys. by intros _.
Qed.

(** X16.  The Alter commands pair old and new objects one to one, and
    apart from the Create and Delete commands: an altered new object is not
    created, an altered old object is not deleted, no new object is the
    target of two Alter commands and no old object the source of two.  For
    an inheriting class this is given that the inheritance sort returns no
    object it was not given. *)
Theorem delta_objects_alters_one_to_one
    old new sclass guidance old_schema new_schema cmds :
  let changed := changed_objects old new old_schema new_schema in
  let cm := comparison_map changed.1 changed.2 sclass guidance
              old_schema new_schema in
  delta_objects old new sclass guidance old_schema new_schema = Ok cmds →
  (inheriting sclass = true →
   ∀ z, z ∈ _sort_by_inheritance old_schema (deleted_objects cm changed.1) →
        z ∈ deleted_objects cm changed.1) →
  (∀ y x, AlterDelta y x ∈ cmds →
     (CreateDelta x ∉ cmds) ∧ (DeleteDelta y ∉ cmds))
  ∧ (∀ y y' x, AlterDelta y x ∈ cmds → AlterDelta y' x ∈ cmds → y = y')
  ∧ (∀ y x x', AlterDelta y x ∈ cmds → AlterDelta y x' ∈ cmds → x = x').
Proof.
  unfold delta_objects.
  destruct (changed_objects old new old_schema new_schema) as [old' new'].
  cbn [fst snd].
  set (cm := comparison_map old' new' sclass guidance old_schema new_schema).
  destruct (alter_loop cm (alter_order sclass new_schema cm))
    as [alters| |] eqn:Hloop; [|done..].
  intros [= <-] Hsort.
  set (cs := filter (λ x, not_banned (banned_creations <$> guidance) sclass
                            (get_name new_schema x) = true)
               (created_objects cm new')).
  set (ds := filter (λ y, not_banned (banned_deletions <$> guidance) sclass
                            (get_name old_schema y) = true)
               (deleted_order sclass old_schema (deleted_objects cm old'))).
  destruct (delta_elems cs ds alters (alter_loop_alters _ _ _ Hloop))
    as (Hc & Hd & Ha).
  destruct (greedy_match_spec
              (full_matrix old' new' sclass guidance old_schema new_schema)
              [] []) as (N1 & _ & N2 & _ & _ & _).
  fold (comparison_map old' new' sclass guidance old_schema new_schema)
    in N1, N2. fold cm in N1, N2.
  assert (Hpair : ∀ y x,
            AlterDelta y x
            ∈ map CreateDelta cs ++ alters ++ map DeleteDelta ds →
            ∃ s, (x, (s, y)) ∈ cm ∧ (0.6 < s)%Q).
  { intros y x. rewrite Ha, (alter_loop_elem _ _ _ _ _ Hloop).
    intros (_ & s & Hs & Hlo & _). exists s. split; [|done].
    by apply map_lookup_Some. }
  split; [|split].
  - intros y x Hyx. destruct (Hpair y x Hyx) as (s & Hin & Hlo). split.
    + rewrite Hc. unfold cs, created_objects. rewrite !list_elem_of_filter.
      intros (_ & Hnot & _). apply Hnot.
      by apply (matched_new_elem cm x s y N1 Hin).
    + rewrite Hd. unfold ds. rewrite list_elem_of_filter. intros [_ Hy].
      assert (Hdel : y ∈ deleted_objects cm old').
      { unfold deleted_order in Hy.
        destruct (inheriting sclass); [by apply (Hsort eq_refl) | done]. }
      unfold deleted_objects in Hdel.
      apply list_elem_of_filter in Hdel as [Hnot _]. apply Hnot.
      by apply (matched_old_elem cm x s y N2 Hin).
  - intros y y' x Hy Hy'.
    destruct (Hpair y x Hy) as (s & Hin & _).
    destruct (Hpair y' x Hy') as (s' & Hin' & _).
    pose proof (NoDup_map_inj fst cm _ _ N1 Hin Hin' eq_refl). congruence.
  - intros y x x' Hx Hx'.
    destruct (Hpair y x Hx) as (s & Hin & _).
    destruct (Hpair y x' Hx') as (s' & Hin' & _).
    pose proof (NoDup_map_inj (λ e, e.2.2) cm _ _ N2 Hin Hin' eq_refl).
    congruence.
Qed.

Lemma pairs_nil_r (new : list nat) :
  (x ← new; y ← ([] : list nat); [(x, y)]) = [].
Proof. induction new as [|x new IH]; [done|]. simpl. exact IH. Qed.

(** X17.  With nothing on one side there is nothing to match: from no
    old objects the delta is one Create command for each new object, once,
    in the order given, less the banned creations; to no new objects it is
    one Delete command for each old object, in the order given or, for an
    inheriting class, in the order of the inheritance sort, less the
    banned deletions. *)
Theorem delta_objects_one_side_empty
    old new sclass guidance old_schema new_schema :
  ((inheriting sclass = true → _sort_by_inheritance old_schema [] = []) →
   delta_objects [] new sclass guidance old_schema new_schema
   = Ok (map CreateDelta
           (filter (λ x, not_banned (banned_creations <$> guidance) sclass
                           (get_name new_schema x) = true)
              (OrderedSet new))))
  ∧ delta_objects old [] sclass guidance old_schema new_schema
    = Ok (map DeleteDelta
            (filter (λ y, not_banned (banned_deletions <$> guidance) sclass
                            (get_name old_schema y) = true)
               (deleted_order sclass old_schema (OrderedSet old)))).
Proof.
  assert (Hnil_l : changed_objects [] new old_schema new_schema
                   = ([], OrderedSet new)).
  { unfold changed_objects. cbn [map]. rewrite !filter_nil.
    by rewrite (filter_all _ new) by (intros x _; apply not_elem_of_nil). }
  assert (Hnil_r : changed_objects old [] old_schema new_schema
                   = (OrderedSet old, [])).
  { unfold changed_objects. cbn [map]. rewrite filter_nil.
    assert (Hun : filter (λ k, k ∈ ([] : list nat))
                    (map (hash_criteria old_schema) old) = []).
    { induction old as [|y old IH]; [done|]. cbn [map].
      by rewrite filter_cons_False by apply not_elem_of_nil. }
    rewrite Hun.
    by rewrite (filter_all _ old) by (intros x _; apply not_elem_of_nil). }
  assert (Hcreated : ∀ l, created_objects [] l = l).
  { intros l. unfold created_objects.
    apply filter_all. intros x _. apply not_elem_of_nil. }
  assert (Hdeleted : ∀ l, deleted_objects [] l = l).
  { intros l. unfold deleted_objects.
    apply filter_all. intros x _. apply not_elem_of_nil. }
  split.
  - intros Hsort. unfold delta_objects. rewrite Hnil_l.
    assert (Hcm : comparison_map [] (OrderedSet new) sclass guidance
                    old_schema new_schema = []).
    { unfold comparison_map, full_matrix. by rewrite pairs_nil_r. }
    rewrite Hcm. cbn [alter_order alter_loop].
    rewrite Hcreated, Hdeleted. unfold deleted_order.
    destruct (inheriting sclass) eqn:Hi.
    + rewrite (Hsort eq_refl), filter_nil. cbn [map]. by rewrite !app_nil_r.
    + rewrite filter_nil. cbn [map]. by rewrite !app_nil_r.
  - unfold delta_objects. rewrite Hnil_r.
    assert (Hcm : comparison_map (OrderedSet old) [] sclass guidance
                    old_schema new_schema = []) by done.
    rewrite Hcm. cbn [alter_order alter_loop].
    rewrite Hcreated, Hdeleted, filter_nil. done.
Qed.

End DeltaMore.

Lemma delta_objects_respects_guidance_witness :
  (inheriting_class, ("default::B", "default::B2")) ∈ banned_alters ban_some
  ∧ (inheriting_class, get_name scored_new 4) ∉ banned_creations ban_some.
Proof.
  destruct (delta_objects_respects_guidance [1; 2; 5] [3; 4; 6]
              inheriting_class ban_some scored_old scored_new
              [CreateDelta 4; DeleteDelta 2]) as (Hcreate & _ & _).
  - vm_compute. reflexivity.
  - split; [by left|]. apply Hcreate. by left.
Defined.

Lemma delta_objects_skips_unchanged_witness :
  3 ∈ [3; 4; 6]
  ∧ hash_criteria scored_new 3 ∉ map (hash_criteria scored_old) [1; 2; 5].
Proof.
  destruct (delta_objects_skips_unchanged [1; 2; 5] [3; 4; 6]
              inheriting_class None scored_old scored_new
              [CreateDelta 3; AlterDelta 2 4; DeleteDelta 1])
    as (Hnew & _ & _).
  - vm_compute. reflexivity.
  - intros _ z. vm_compute. exact (λ Hz, Hz).
  - apply Hnew. left. by left.
Defined.

Lemma delta_objects_KeyError_witness :
  ∃ cmds, delta_objects [1; 2; 5] [3; 4; 6] inheriting_class None scored_old
            scored_new = Ok cmds.
Proof.
  destruct (delta_objects_KeyError [1; 2; 5] [3; 4; 6] inheriting_class None
              scored_old scored_new) as (Hok & _).
  apply Hok. vm_compute. repeat constructor.
Defined.

Lemma delta_objects_alters_one_to_one_witness :
  (CreateDelta 4 ∉ [CreateDelta 3; AlterDelta 2 4; DeleteDelta 1])
  ∧ (DeleteDelta 2 ∉ [CreateDelta 3; AlterDelta 2 4; DeleteDelta 1]).
Proof.
  destruct (delta_objects_alters_one_to_one [1; 2; 5] [3; 4; 6]
              inheriting_class None scored_old scored_new
              [CreateDelta 3; AlterDelta 2 4; DeleteDelta 1])
    as (Hapart & _ & _).
  - vm_compute. reflexivity.
  - intros _ z. vm_compute. exact (λ Hz, Hz).
  - apply Hapart. right. by left.
Defined.

Lemma delta_objects_one_side_empty_witness :
  delta_objects [] [3; 4; 3] inheriting_class None scored_old scored_new
  = Ok [CreateDelta 3; CreateDelta 4].
Proof.
  destruct (delta_objects_one_side_empty [] [3; 4; 3] inheriting_class None
              scored_old scored_new) as (Hcreates & _).
  rewrite Hcreates; reflexivity.
Defined.

(** ** Groups are spliced *)

Section Groups.
Implicit Types (h : Heap) (self command : ref).

Lemma same_classes_refl h : same_classes h h.
Proof. by intros r. Qed.

Lemma same_classes_trans h1 h2 h3 :
  same_classes h1 h2 → same_classes h2 h3 → same_classes h1 h3.
Proof. intros H12 H23 r. by rewrite H23, H12. Qed.

Lemma same_classes_insert h self s s' :
  h !! self = Some s → cls s' = cls s → same_classes h (<[self := s']> h).
Proof.
  intros Hs Hk r. destruct (decide (r = self)) as [->|Hne].
  - rewrite lookup_insert_eq, Hs. simpl. by rewrite Hk.
  - by rewrite lookup_insert_ne.
Qed.

(** One field update of [self] that adds at most a command that is not
    a group to [ops] keeps [ops] free of groups. *)
Lemma no_group_insert h self s s' :
  h !! self = Some s → cls s' = cls s → no_group_in_ops h self →
  (∀ c, c ∈ ops s' →
     c ∈ ops s ∨ ∃ cc, h !! c = Some cc ∧ isinstance cc CommandGroup = false) →
  no_group_in_ops (<[self := s']> h) self.
Proof.
  intros Hs Hk Hno Hops s0 c cc. rewrite lookup_insert_eq. intros [= <-] Hin.
  pose proof (same_classes_insert h self s s' Hs Hk c) as Hc.
  intros Hcc. rewrite Hcc in Hc. cbn [fmap option_fmap option_map] in Hc.
  destruct (h !! c) as [cc0|] eqn:Hc0; [|done]. injection Hc as Hc.
  unfold isinstance. rewrite Hc. fold (isinstance cc0 CommandGroup).
  destruct (Hops c Hin) as [Hold|(cc1 & Hcc1 & Hg)].
  - by apply (Hno s c cc0).
  - congruence.
Qed.

Lemma for_each_no_group {A} (f : A → M Heap unit) (l : list A) self h :
  (∀ x h', no_group_in_ops h' self →
     no_group_in_ops (f x h').2 self ∧ same_classes h' (f x h').2) →
  no_group_in_ops h self →
  no_group_in_ops (for_each f l h).2 self
  ∧ same_classes h (for_each f l h).2.
Proof.
  intros Hf. revert h. induction l as [|x l IH]; intros h Hh; simpl.
  - split; [done | apply same_classes_refl].
  - rewrite bind_eq. destruct (Hf x h Hh) as [Hx1 Hx2].
    destruct (f x h) as [r h1]. simpl in Hx1, Hx2.
    destruct r as [u|e|]; [|by split..].
    destruct (IH h1 Hx1) as [Hl1 Hl2]. split; [done|].
    by eapply same_classes_trans.
Qed.

Lemma add_no_group fuel self command h :
  no_group_in_ops h self →
  no_group_in_ops (add fuel self command h).2 self
  ∧ same_classes h (add fuel self command h).2.
Proof.
  revert command h. induction fuel as [|fuel IH]; intros command h Hh.
  { simpl. split; [done | apply same_classes_refl]. }
  rewrite add_eq.
  destruct (h !! command) as [c|] eqn:Hc;
    [|split; [done | apply same_classes_refl]].
  destruct (isinstance c CommandGroup) eqn:Hg.
  { apply for_each_no_group; [|done]. intros x h' Hh'. by apply IH. }
  assert (Hgoal : ∀ s s', h !! self = Some s → cls s' = cls s →
            ops s' = oset_add command (ops s) →
            no_group_in_ops (<[self := s']> h) self
            ∧ same_classes h (<[self := s']> h)).
  { intros s s' Hs Hk Hops. split; [|by eapply same_classes_insert].
    eapply no_group_insert; [done..|]. intros c0. rewrite Hops.
    rewrite elem_of_oset_add. intros [?| ->]; [by left|]. right. by exists c. }
  destruct (h !! self) as [s|] eqn:Hs.
  2:{ destruct (isinstance c AlterObjectProperty);
        [rewrite bind_eq|]; rewrite update_cmd_eq, Hs;
        (split; [done | apply same_classes_refl]). }
  destruct (isinstance c AlterObjectProperty).
  - rewrite bind_eq, update_cmd_eq, Hs, update_cmd_eq, lookup_insert_eq,
      insert_insert_eq. by apply (Hgoal s).
  - rewrite update_cmd_eq, Hs. by apply (Hgoal s).
Qed.

Lemma discard_no_group self command h :
  no_group_in_ops h self →
  no_group_in_ops (discard self command h).2 self.
Proof.
  intros Hh. rewrite discard_eq.
  destruct (h !! command) as [c|]; [|done].
  destruct (h !! self) as [s|] eqn:Hs; [|done]. cbv zeta.
  assert (Hgoal : ∀ s', cls s' = cls s →
            ops s' = oset_discard command (ops s) →
            no_group_in_ops (<[self := s']> h) self).
  { intros s' Hk Hops. eapply no_group_insert; [done..|]. intros c0.
    rewrite Hops, elem_of_oset_discard. intros [? _]. by left. }
  destruct (isinstance c AlterObjectProperty);
    [destruct (_attrs s !! property c)|]; by apply Hgoal.
Qed.

Lemma replace_all_no_group fuel self commands h :
  no_group_in_ops h self →
  no_group_in_ops (replace_all fuel self commands h).2 self.
Proof.
  intros Hh. unfold replace_all. rewrite bind_eq, update_cmd_eq.
  destruct (h !! self) as [s|] eqn:Hs; [|done].
  rewrite bind_eq, update_cmd_eq, lookup_insert_eq, insert_insert_eq.
  apply for_each_no_group.
  - intros x h' Hh'. by apply add_no_group.
  - eapply no_group_insert; [done..|]. intros c0. cbn [with_attrs with_ops ops].
    by intros ?%elem_of_nil.
Qed.

(** X21.  Command groups are spliced in, never nested: when [ops] holds
    no command group, it holds none after any sequence of [add],
    [discard] and [replace_all] calls, whatever is added, groups of groups
    included. *)
Theorem ops_never_nests_groups fuel self ks h :
  no_group_in_ops h self → no_group_in_ops (run_calls fuel self ks h) self.
Proof.
  revert h. induction ks as [|k ks IH]; intros h Hh; [done|].
  cbn [run_calls]. apply IH. destruct k; cbn [call].
  - by apply add_no_group.
  - by apply discard_no_group.
  - by apply replace_all_no_group.
Qed.

End Groups.

Lemma ops_never_nests_groups_witness :
  no_group_in_ops (run_calls 3 0 [CallAdd 5] nested_groups) 0.
Proof.
  apply (ops_never_nests_groups 3 0 [CallAdd 5] nested_groups).
  intros s c cc Hs Hin. unfold nested_groups in Hs.
  rewrite lookup_insert_eq in Hs. injection Hs as <-.
  by apply elem_of_nil in Hin.
Defined.

(** The Create command at the bottom of the nested groups is what ends
    up in [ops]. *)
Example add_splices_nested_groups :
  ops <$> run_calls 3 0 [CallAdd 5] nested_groups !! 0 = Some [7].
Proof. vm_compute. reflexivity. Qed.

(** ** Canonical blocks and missing objects *)

Section CanonicalBlocks.
Context {Schema : Type} `{!SchemaStore Schema} `{!Externals Schema}.
Implicit Types (st : State Schema) (schema : Schema) (self : ref).

Lemma context_canonical_app st (l : list (CommandContextToken Schema)) :
  context_canonical (with_stack (λ s, s ++ l) st)
  = context_canonical st
    || existsb (λ t, match heap st !! op t with
                     | Some c => canonical c
                     | None => false
                     end) l.
Proof.
  unfold context_canonical, with_stack. cbn [heap context stack].
  by rewrite existsb_app.
Qed.

(** X22.  Whatever runs inside the block of a canonical command runs in
    a canonical context, however many tokens are pushed on top of it:
    there the rename cascade is not built and the name attribute is not
    written, and the finalize phase of a Delete command removes its object
    without looking at the referrers. *)
Theorem canonical_block_is_canonical st t c inner fuel self schema :
  heap st !! op t = Some c → canonical c = true →
  let st1 := with_stack (λ s, s ++ t :: inner) st in
  context_canonical st1 = true
  ∧ rename_cascade fuel self schema st1 = (Ok tt, st1)
  ∧ ∀ d o, heap st !! self = Some d → scls d = Some o →
      _delete_finalize self schema st1 = (Ok (schema_delete schema o), st1).
Proof.
  intros Hc Hcan st1.
  assert (Hcanonical : context_canonical st1 = true).
  { unfold st1. rewrite context_canonical_app. cbn [existsb].
    rewrite Hc, Hcan. by rewrite orb_true_r. }
  split; [done|]. split.
  - unfold rename_cascade. rewrite bind_eq. unfold get_state.
    by rewrite Hcanonical.
  - intros d o Hd Ho. unfold _delete_finalize, self_scls. msimpl.
    assert (Hd1 : heap st1 !! self = Some d) by done.
    rewrite (deref'_eq _ _ _ Hd1). msimpl. rewrite Ho. msimpl.
    rewrite Hcanonical. by msimpl.
Qed.

(** X23.  [DeleteObject.apply] on a name that does not resolve raises
    the reference error of [get_object], for the name as renamed in this
    context, before it records anything on the command or pushes its
    token: the state is as it was. *)
Theorem DeleteObject_apply_missing_object self schema st c :
  heap st !! self = Some c →
  schema_get schema (resolved_name st c) = None →
  DeleteObject_apply self schema st
  = (Raise (InvalidReferenceError (resolved_name st c)), st)
  ∧ ∀ new, renames (context st) !! classname c = Some new →
      resolved_name st c = new.
Proof.
  intros Hc Hget. split.
  - assert (Hmissing : get_object self schema st
                       = (Raise (InvalidReferenceError (resolved_name st c)),
                          st)).
    { unfold get_object. rewrite bind_eq, (deref'_eq _ _ _ Hc).
      cbv beta iota. rewrite bind_eq. unfold get_state. by rewrite Hget. }
    unfold DeleteObject_apply. by rewrite bind_eq, Hmissing.
  - intros new Hnew. unfold resolved_name. by rewrite Hnew.
Qed.

End CanonicalBlocks.

Lemma canonical_block_is_canonical_witness :
  rename_cascade 2 1 owner_schema
    (with_stack (λ s, s ++ [mkToken owner_schema 1 (Some 10)])
       (inside (delete_pet true)))
  = (Ok tt,
     with_stack (λ s, s ++ [mkToken owner_schema 1 (Some 10)])
       (inside (delete_pet true))).
Proof.
  apply (canonical_block_is_canonical (inside (delete_pet true))
           (mkToken owner_schema 1 (Some 10)) (delete_pet true) [] 2 1
           owner_schema).
  - reflexivity.
  - reflexivity.
Defined.

Lemma DeleteObject_apply_missing_object_witness :
  DeleteObject_apply 1 empty_schema (below_root (delete_pet false))
  = (Raise (InvalidReferenceError "default::Pet"),
     below_root (delete_pet false)).
Proof.
  apply (DeleteObject_apply_missing_object 1 empty_schema
           (below_root (delete_pet false)) (delete_pet false)).
  - reflexivity.
  - reflexivity.
Defined.

(** ** The phases of [AlterObject.apply] *)

Section AlterPhases.
Context {Schema : Type} `{!SchemaStore Schema} `{!Externals Schema}
  `{!AlterExternals Schema}.
Implicit Types (st : State Schema) (schema : Schema) (self : ref).




End AlterPhases.


(** The Rename, a prerequisite and a fragment, is applied twice; the
    set-attribute command is not applied. *)
Example AlterObject_apply_applies_fragment_twice :
  ls_applied <$> (AlterObject_apply false 1 pets_schema altering_state).1
  = Ok [2; 2; 3] :> outcome (list nat).
Proof. vm_compute. reflexivity. Qed.

(** ** What the rename cascade builds *)

Section RenameBuilds.
Context {Schema : Type} `{!SchemaStore Schema} `{!Externals Schema}.
Implicit Types (st : State Schema) (schema : Schema) (self : ref).

Lemma cascaded_unchanged h h' schema new ref_ a :
  unchanged_on h h' →
  cascaded h schema new ref_ a → cascaded h' schema new ref_ a.
Proof.
  intros Hu (ca & r & cr & Ha & H1 & H2 & H3 & H4 & H5 & Hr & H6).
  exists ca, r, cr. split; [by apply Hu|]. do 5 (split; [done|]).
  split; [by apply Hu | done].
Qed.

Lemma cascaded_is_alter h schema new ref_ a :
  cascaded h schema new ref_ a → is_alter h a.
Proof. intros (ca & r & cr & Ha & Hk & _). by exists ca. Qed.

Lemma collect_total {A} (f : A → M (State Schema) ref)
    (P : Heap → A → ref → Prop) (l : list A) st :
  (∀ h h' x a, unchanged_on h h' → P h x a → P h' x a) →
  (∀ x st0, x ∈ l → cascade_frame st st0 →
     ∃ a st1, f x st0 = (Ok a, st1) ∧ cascade_frame st0 st1
              ∧ P (heap st1) x a) →
  ∃ ys st', collect f l st = (Ok ys, st') ∧ cascade_frame st st'
            ∧ Forall2 (P (heap st')) l ys.
Proof.
  intros Hmono Hf.
  assert (Hgen : ∀ st0, cascade_frame st st0 →
            ∃ ys st', collect f l st0 = (Ok ys, st') ∧ cascade_frame st0 st'
                      ∧ Forall2 (P (heap st')) l ys).
  { induction l as [|x l IH]; intros st0 F0.
    - exists [], st0. split; [done|]. split; [apply cascade_frame_refl|].
      constructor.
    - destruct (Hf x st0) as (a & st1 & Hx & F1 & Px); [by left | done|].
      destruct (IH (λ y st2 Hy, Hf y st2 (proj2 (elem_of_cons _ _ _) (or_intror Hy))) st1)
        as (ys & st' & Hl & F2 & Pl).
      { by eapply cascade_frame_trans. }
      exists (a :: ys), st'. cbn [collect].
      rewrite bind_eq, Hx. cbv beta iota. rewrite bind_eq, Hl.
      split; [done|]. split; [by eapply cascade_frame_trans|].
      constructor; [|done]. apply (Hmono (heap st1)); [apply F2 | done]. }
  apply Hgen, cascade_frame_refl.
Qed.

(** X25.  The rename cascade, given fuel for the depth of ownership,
    returns: for each object the renamed object owns, in order, it has
    built one canonical Alter command of that object whose only
    sub-command is the Rename of the object to its name requalified with
    the new name of the owner; the stack and every command that was in
    the store are as before. *)
Theorem RenameObject_canonicalize_builds fuel self schema o st c :
  heap st !! self = Some c → owns_within fuel schema o →
  ∃ cmds st',
    RenameObject_canonicalize fuel self schema o st = (Ok cmds, st')
    ∧ cascade_frame st st'
    ∧ Forall2 (cascaded (heap st') schema (new_name c))
        (owned_refs schema o) cmds.
Proof.
  revert self o st c.
  induction fuel as [|fuel IH]; intros self o st c Hc Hown; [done|].
  cbn [owns_within] in Hown. cbn [RenameObject_canonicalize].
  rewrite bind_eq.
  match goal with
  | |- context [collect ?f ?l ?s] =>
      destruct (collect_total f (λ h, cascaded h schema (new_name c)) l s)
        as (cmds & st1 & Hrun & F & Hall)
  end.
  { intros h h' x a. apply cascaded_unchanged. }
  2:{ rewrite Hrun. cbv beta iota. rewrite bind_eq.
      unfold store_value, modify. cbv beta iota. unfold ret.
      eexists _, _. split; [reflexivity|]. split; [|done].
      destruct F as [F1 F2]. by split. }
  intros ref_ st0 Hin [F1 F2].
  rewrite Forall_forall in Hown. specialize (Hown ref_ Hin).
  assert (Hc0 : heap st0 !! self = Some c) by by apply F2.
  rewrite bind_eq, (deref'_eq _ _ _ Hc0). cbv beta iota.
  rewrite bind_eq, on_heap_eq, alloc_eq. cbn [fst snd].
  rewrite bind_eq, on_heap_eq, alloc_eq. cbn [fst snd heap context].
  set (h0 := heap st0). set (a := fresh (dom h0)).
  set (initA := init_delta_command AlterObject _ _).
  set (h1 := <[a := initA]> h0). set (r := fresh (dom h1)).
  set (initR := init_delta_command RenameObject _ _).
  set (h2 := <[r := initR]> h1).
  rewrite bind_eq, on_heap_eq. cbn [heap context].
  assert (Ha0 : h0 !! a = None) by apply fresh_lookup.
  assert (Hr1 : h1 !! r = None) by apply fresh_lookup.
  assert (Har : a ≠ r).
  { intros Heq. unfold h1 in Hr1. rewrite <- Heq, lookup_insert_eq in Hr1.
    done. }
  erewrite set_attribute_value_fresh; cycle 1.
  { apply lookup_insert_eq. }
  { apply lookup_empty. }
  { discriminate. }
  cbn [fst snd].
  set (r0 := fresh (dom h2)).
  assert (Hr02 : h2 !! r0 = None) by apply fresh_lookup.
  assert (Har0 : a ≠ r0).
  { intros Heq. unfold h2, h1 in Hr02.
    rewrite <- Heq, lookup_insert_ne, lookup_insert_eq in Hr02 by done.
    done. }
  set (cR := with_ops (oset_add r0) (with_attrs (<["name" := r0]>) initR)).
  set (setter := mkCommand AlterObjectProperty _ _ _ _ _ _ _ _ _ _ _ _ _).
  set (h3 := <[r := cR]> (<[r0 := setter]> h2)).
  assert (U3 : unchanged_on h0 h3).
  { unfold h3, h2, h1. intros x cx Hx.
    assert (x ≠ a) by (intros ->; congruence).
    assert (x ≠ r).
    { intros ->. unfold h1 in Hr1. rewrite lookup_insert_ne in Hr1 by done.
      congruence. }
    assert (x ≠ r0).
    { intros ->. unfold h2, h1 in Hr02.
      rewrite !lookup_insert_ne in Hr02 by done. congruence. }
    by rewrite !lookup_insert_ne by done. }
  assert (Ha3 : h3 !! a = Some initA).
  { unfold h3, h2, h1.
    rewrite !lookup_insert_ne by done. apply lookup_insert_eq. }
  rewrite bind_eq. unfold new_context, with_context. rewrite bind_eq.
  unfold push, modify. cbv beta iota. unfold finally.
  set (st3p := with_stack _ (mkState h3 (context st0))).
  rewrite bind_eq.
  destruct (IH r ref_ st3p cR) as (sub & st3a & Hsub & [S1 S2] & Hsubs);
    [apply lookup_insert_eq | done |].
  rewrite Hsub. cbv beta iota. rewrite on_heap_eq.
  destruct (update_alters 0 r sub (heap st3a) cR) as (f & Hf).
  { eapply Forall2_Forall_r; [exact Hsubs|]. apply Forall_forall.
    intros ref' _ x. apply cascaded_is_alter. }
  { apply S2. apply lookup_insert_eq. }
  rewrite Hf. cbn [fst snd].
  set (h3b := <[r := with_ops f cR]> (heap st3a)).
  assert (Ha3b : h3b !! a = Some initA).
  { unfold h3b. rewrite lookup_insert_ne by done. by apply S2. }
  assert (Hx0 : ∀ x cx, h0 !! x = Some cx → x ≠ a ∧ x ≠ r).
  { intros x cx Hx. split; intros ->; [congruence|].
    unfold h1 in Hr1. rewrite lookup_insert_ne in Hr1 by done. congruence. }
  rewrite bind_eq, on_heap_eq. cbn [heap with_stack].
  rewrite update_cmd_eq, Ha3b. cbn [fst snd].
  rewrite bind_eq, on_heap_eq. cbn [heap].
  erewrite add_plain; cycle 1.
  { rewrite lookup_insert_ne by done. apply lookup_insert_eq. }
  { apply lookup_insert_eq. }
  { reflexivity. }
  { reflexivity. }
  cbn [fst snd]. unfold ret. eexists _, _. split; [reflexivity|].
  split; [split|].
  - unfold with_stack. cbn [context stack heap]. rewrite S1.
    unfold st3p, with_stack. cbn [context stack]. by rewrite pop_stack_push.
  - intros x cx Hx. cbn [heap]. destruct (Hx0 x cx Hx) as [Hxa Hxr].
    rewrite insert_insert_eq, lookup_insert_ne by done.
    unfold h3b. rewrite lookup_insert_ne by done. by apply S2, U3.
  - exists (with_ops (oset_add r) (with_canonical true initA)), r,
      (with_ops f cR).
    cbn [heap]. rewrite insert_insert_eq, lookup_insert_eq.
    rewrite lookup_insert_ne by (by apply not_eq_sym).
    unfold h3b. rewrite lookup_insert_eq. done.
Qed.

End RenameBuilds.

Lemma RenameObject_canonicalize_builds_witness :
  ∃ cmds st',
    RenameObject_canonicalize 2 1 owner_schema 10 renaming_state
    = (Ok cmds, st')
    ∧ length cmds = 1.
Proof.
  destruct (RenameObject_canonicalize_builds 2 1 owner_schema 10
              renaming_state rename_pet)
    as (cmds & st' & Hrun & _ & Hall).
  - reflexivity.
  - cbv. repeat constructor.
  - exists cmds, st'. split; [exact Hrun|].
    apply Forall2_length in Hall. rewrite <- Hall. reflexivity.
Defined.

(** ** The AST-node registry *)

Section Registry.
Implicit Types (mapping : gmap string CmdClass) (cls : CmdClass).

Lemma register_astnodes_keeps cls astnodes mapping n c :
  mapping !! n = Some c →
  (register_astnodes cls astnodes mapping).2 !! n = Some c.
Proof.
  revert mapping. induction astnodes as [|a l IH]; intros mapping Hn; [done|].
  cbn [register_astnodes]. destruct (mapping !! a) eqn:Ha; [done|].
  apply IH. rewrite lookup_insert_ne; [done|congruence].
Qed.

Lemma register_astnodes_ok cls astnodes mapping :
  (register_astnodes cls astnodes mapping).1 = inr tt
  ↔ NoDup astnodes ∧ ∀ n, n ∈ astnodes → mapping !! n = None.
Proof.
  revert mapping. induction astnodes as [|a l IH]; intros mapping.
  - cbn. split; [|done]. intros _. split; [constructor|].
    by intros n ?%elem_of_nil.
  - cbn [register_astnodes]. destruct (mapping !! a) eqn:Ha.
    + cbn. split; [done|]. intros [_ Hnone].
      rewrite Hnone in Ha by left. done.
    + rewrite IH. rewrite NoDup_cons. split.
      * intros [Hnd Hnone].
        assert (a ∉ l) as Hal.
        { intros Hin. specialize (Hnone a Hin).
          by rewrite lookup_insert_eq in Hnone. }
        repeat split; try done.
        intros n [->|Hn]%elem_of_cons; [done|].
        specialize (Hnone n Hn).
        rewrite lookup_insert_ne in Hnone; [done|]. by intros ->.
      * intros [[Hal Hnd] Hnone]. split; [done|]. intros n Hn.
        rewrite lookup_insert_ne by (by intros ->).
        apply Hnone. by right.
Qed.

Lemma register_astnodes_result cls astnodes mapping :
  (register_astnodes cls astnodes mapping).1 = inr tt →
  ∀ n, (register_astnodes cls astnodes mapping).2 !! n
       = if decide (n ∈ astnodes) then Some cls else mapping !! n.
Proof.
  revert mapping. induction astnodes as [|a l IH]; intros mapping Hok n.
  - cbn. by rewrite decide_False by apply not_elem_of_nil.
  - cbn [register_astnodes] in *. destruct (mapping !! a) eqn:Ha; [done|].
    rewrite (IH _ Hok). destruct (decide (n ∈ l)) as [Hn|Hn].
    + rewrite decide_True; [done | by right].
    + destruct (decide (n = a)) as [->|Hne].
      * rewrite lookup_insert_eq. rewrite decide_True; [done | by left].
      * rewrite lookup_insert_ne by done.
        rewrite decide_False; [done|].
        by intros [?|?]%elem_of_cons.
Qed.

Lemma register_astnodes_error cls astnodes mapping e :
  (register_astnodes cls astnodes mapping).1 = inl e →
  ∃ n existing,
    e = DuplicateMapping n existing ∧ n ∈ astnodes
    ∧ (register_astnodes cls astnodes mapping).2 !! n = Some existing
    ∧ (mapping !! n = Some existing ∨ mapping !! n = None ∧ existing = cls).
Proof.
  revert mapping. induction astnodes as [|a l IH]; intros mapping; [done|].
  cbn [register_astnodes]. destruct (mapping !! a) as [c|] eqn:Ha.
  - cbn. intros [= <-]. exists a, c. repeat split; [by left|done|by left].
  - intros He. destruct (IH _ He) as (n & existing & -> & Hn & Hat & Hwas).
    exists n, existing. repeat split; [by right|done|].
    destruct (decide (n = a)) as [->|Hne].
    + rewrite lookup_insert_eq in Hwas. right. split; [done|].
      destruct Hwas as [[= <-]|[[=] _]]. done.
    + by rewrite lookup_insert_ne in Hwas.
Qed.

(** X26.  [register_astnodes] never remaps an AST node: every entry of
    the mapping is still there afterwards, also when the call raises.  The
    call succeeds exactly when the nodes are pairwise distinct and none is
    mapped yet, and then maps each of them to the class; otherwise the
    [TypeError] names a node of the list and the class that holds it, which
    is the registering class itself when the list repeats a node. *)
Theorem register_astnodes_never_remaps cls astnodes mapping :
  let r := (register_astnodes cls astnodes mapping).1 in
  let mapping' := (register_astnodes cls astnodes mapping).2 in
  (∀ n c, mapping !! n = Some c → mapping' !! n = Some c)
  ∧ (r = inr tt
     ↔ NoDup astnodes ∧ ∀ n, n ∈ astnodes → mapping !! n = None)
  ∧ (r = inr tt →
     ∀ n, mapping' !! n
          = if decide (n ∈ astnodes) then Some cls else mapping !! n)
  ∧ (∀ e, r = inl e →
     ∃ n existing,
       e = DuplicateMapping n existing ∧ n ∈ astnodes
       ∧ mapping' !! n = Some existing
       ∧ (mapping !! n = Some existing
          ∨ mapping !! n = None ∧ existing = cls)).
Proof.
  intros r mapping'. split; [|split; [|split]].
  - intros n c. apply register_astnodes_keeps.
  - apply register_astnodes_ok.
  - apply register_astnodes_result.
  - intros e. apply register_astnodes_error.
Qed.

End Registry.

(** ** DDL identity and annotations *)

Section Identity.
Implicit Types (d : option (gmap string Value)) (v : Value).

Lemma dict_get_insert (m : gmap string Value) a b v :
  dict_get (<[a := v]> m) b = if decide (b = a) then v else dict_get m b.
Proof.
  unfold dict_get. destruct (decide (b = a)) as [->|Hne].
  - by rewrite lookup_insert_eq.
  - by rewrite lookup_insert_ne.
Qed.

Lemma has_ddl_identity_get d a :
  has_ddl_identity d a = true ↔ ∃ v, get_ddl_identity d a = inr v.
Proof.
  unfold has_ddl_identity, get_ddl_identity. destruct d as [m|].
  - destruct (dict_get m a) eqn:Hg; cbn; split; try done; eauto.
    by intros [? [=]].
  - split; [done | by intros [? [=]]].
Qed.

(** X27.  The DDL identity of a command is a round trip for every value
    but [None]: after [set_ddl_identity(aspect, value)] the aspect is
    present and is read back, while a [None] value leaves the aspect
    missing and the read raises [LookupError].  [has_ddl_identity] is true
    exactly when [get_ddl_identity] returns, what it returns is never
    [None], and writing one aspect changes no other.  Annotations are the
    same round trip, with [None] read back instead of an error. *)
Theorem ddl_identity_round_trip d a b v :
  get_ddl_identity (set_ddl_identity d a v) a
  = (if decide (v = VNone) then inl (NoAspect a) else inr v)
  ∧ has_ddl_identity (set_ddl_identity d a v) a
    = negb (bool_decide (v = VNone))
  ∧ (has_ddl_identity d b = true ↔ ∃ w, get_ddl_identity d b = inr w)
  ∧ (∀ w, get_ddl_identity d b = inr w → w ≠ VNone)
  ∧ (b ≠ a →
     has_ddl_identity (set_ddl_identity d a v) b = has_ddl_identity d b
     ∧ ∀ w, get_ddl_identity d b = inr w →
            get_ddl_identity (set_ddl_identity d a v) b = inr w)
  ∧ get_annotation (set_annotation d a v) a = v
  ∧ (b ≠ a → get_annotation (set_annotation d a v) b = get_annotation d b)
  ∧ get_annotation None b = VNone
  ∧ get_ddl_identity None b = inl NoIdentity.
Proof.
  unfold set_ddl_identity, set_annotation, get_annotation.
  cbn [get_ddl_identity has_ddl_identity].
  rewrite !dict_get_insert, !decide_True by done.
  split; [by destruct v|]. split; [by destruct v|].
  split; [apply has_ddl_identity_get|].
  split.
  { intros w. unfold get_ddl_identity. destruct d as [m|]; [|done].
    destruct (dict_get m b); intros [= <-]; done. }
  split.
  { intros Hne. rewrite !decide_False by done.
    destruct d as [m|]; cbn [default has_ddl_identity get_ddl_identity].
    - split; [done|]. intros w Hw. exact Hw.
    - unfold dict_get. rewrite lookup_empty. cbn. split; [done|].
      intros w [=]. }
  split; [done|]. split; [|done].
  intros Hne. rewrite decide_False by done.
  destruct d as [m|]; [done|]. cbn. unfold dict_get. by rewrite lookup_empty.
Qed.

End Identity.

Lemma ddl_identity_round_trip_witness :
  has_ddl_identity (set_ddl_identity None "name" (VStr "f")) "schema"
  = has_ddl_identity None "schema"
  ∧ get_annotation (set_annotation None "name" (VStr "f")) "schema" = VNone.
Proof.
  destruct (ddl_identity_round_trip None "name" "schema" (VStr "f"))
    as (_ & _ & _ & _ & Hother & _ & Hann & _).
  split.
  - apply Hother. done.
  - apply Hann. done.
Defined.

(** ** Counting sub-commands, and commands without sub-commands *)

Section Counting.
Implicit Types (h : Heap) (self : ref).

Lemma count_nonattr_spec l n h :
  (∀ r, r ∈ l → is_Some (h !! r)) →
  count_nonattr l n h
  = (Ok (n + length (filter (λ r, op_isinstance h r AlterObjectProperty
                                   = false) l)), h).
Proof.
  revert n. induction l as [|r l IH]; intros n Hall.
  - cbn. unfold ret. by rewrite Nat.add_0_r.
  - cbn [count_nonattr]. rewrite bind_eq. unfold deref.
    destruct (Hall r ltac:(by left)) as [c Hc]. rewrite Hc.
    rewrite IH by (intros; apply Hall; by right).
    unfold op_isinstance at 2.
    destruct (isinstance c AlterObjectProperty) eqn:Hk.
    + rewrite filter_cons_False; [done|].
      unfold op_isinstance. by rewrite Hc, Hk.
    + rewrite filter_cons_True by (unfold op_isinstance; by rewrite Hc, Hk).
      cbn [length]. by rewrite Nat.add_succ_r.
Qed.

(** X28.  [get_nonattr_subcommand_count] is the number of sub-commands,
    prerequisites included, that are not set-attribute commands: it is 0
    exactly when every sub-command is a set-attribute command, so also
    when [has_subcommands] is false, and it reads the commands without
    changing them. *)
Theorem get_nonattr_subcommand_count_spec h self s :
  h !! self = Some s →
  (∀ r, r ∈ get_subcommands s → is_Some (h !! r)) →
  ∃ n,
    get_nonattr_subcommand_count self h = (Ok n, h)
    ∧ n = length (filter (λ r, op_isinstance h r AlterObjectProperty = false)
                    (get_subcommands s))
    ∧ (n = 0 ↔ ∀ r, r ∈ get_subcommands s →
                    op_isinstance h r AlterObjectProperty = true)
    ∧ (has_subcommands s = false → n = 0).
Proof.
  intros Hs Hall. unfold get_subcommands in *.
  assert (Hrun : get_nonattr_subcommand_count self h
                 = (Ok (length (filter (λ r, op_isinstance h r
                                        AlterObjectProperty = false)
                                  (before_ops s ++ ops s))), h)).
  { unfold get_nonattr_subcommand_count. rewrite bind_eq. unfold deref.
    rewrite Hs. rewrite bind_eq.
    rewrite count_nonattr_spec
      by (intros; apply Hall, elem_of_app; by right).
    rewrite count_nonattr_spec
      by (intros; apply Hall, elem_of_app; by left).
    rewrite filter_app, length_app. do 2 f_equal. lia. }
  eexists. split; [exact Hrun|]. split; [done|]. split.
  - rewrite length_zero_iff_nil. split.
    + intros Hnil r Hr.
      destruct (op_isinstance h r AlterObjectProperty) eqn:Hk; [done|].
      assert (r ∈ filter (λ r, op_isinstance h r AlterObjectProperty = false)
                    (before_ops s ++ ops s)) as Hin
        by (by apply list_elem_of_filter).
      rewrite Hnil in Hin. by apply elem_of_nil in Hin.
    + intros Hattr.
      destruct (filter _ (before_ops s ++ ops s)) as [|r l] eqn:Hf; [done|].
      assert (r ∈ r :: l) as Hin by left. rewrite <- Hf in Hin.
      apply list_elem_of_filter in Hin as [Hk Hr].
      by rewrite (Hattr r Hr) in Hk.
  - unfold has_subcommands. intros Hnone.
    apply orb_false_iff in Hnone as [Hops Hbefore].
    apply negb_false_iff, bool_decide_eq_true in Hops, Hbefore.
    by rewrite Hops, Hbefore.
Qed.

End Counting.

Lemma get_nonattr_subcommand_count_spec_witness :
  ∃ n, get_nonattr_subcommand_count 0 with_inherited_name
       = (Ok n, with_inherited_name)
       ∧ n = 0.
Proof.
  destruct (get_nonattr_subcommand_count_spec with_inherited_name 0
              (with_attrs (λ _, {[ "name" := 1 ]})
                 (with_ops (λ _, [1]) (new_command ObjectCommand))))
    as (n & Hrun & -> & _).
  - reflexivity.
  - intros r Hr. vm_compute in Hr.
    apply elem_of_cons in Hr as [->|Hr]; [by eexists|].
    by apply elem_of_nil in Hr.
  - eexists. split; [exact Hrun | reflexivity].
Defined.

Section EmptyApply.
Context {Schema : Type} `{!SchemaStore Schema, !Externals Schema}.
Implicit Types (st : State Schema) (schema : Schema).

(** X29.  Applying a command group or a delta root that has no
    sub-commands is the identity: the schema comes back as it was given,
    and the commands and the context, the stack of the root's own block
    included, are as before the call. *)
Theorem apply_without_subcommands self schema st c :
  heap st !! self = Some c → has_subcommands c = false →
  CommandGroup_apply self schema st = (Ok schema, st)
  ∧ DeltaRoot_apply self schema st = (Ok schema, st).
Proof.
  intros Hc Hnone. unfold has_subcommands in Hnone.
  apply orb_false_iff in Hnone as [Hops Hbefore].
  apply negb_false_iff, bool_decide_eq_true in Hops, Hbefore.
  assert (Hsubs : get_subcommands c = []).
  { unfold get_subcommands. by rewrite Hops, Hbefore. }
  split.
  - unfold CommandGroup_apply. rewrite bind_eq.
    unfold get_subcommands_of. rewrite Hc, Hsubs. done.
  - unfold DeltaRoot_apply, with_context, push. msimpl. unfold finally.
    set (st1 := with_stack _ st).
    assert (Hc1 : heap st1 !! self = Some c) by done.
    assert (Hget : ∀ k, get_subcommands_of self k st1 = (Ok [], st1)).
    { intros k. unfold get_subcommands_of. rewrite Hc1, Hsubs.
      by destruct k. }
    repeat first
      [ rewrite bind_eq | rewrite Hget
      | progress cbn [apply_all apply_others]
      | progress unfold ret | progress cbv beta iota ].
    unfold st1. by rewrite with_stack_pop_push.
Qed.

End EmptyApply.

Lemma apply_without_subcommands_witness :
  CommandGroup_apply 0 empty_schema
    (mkState {[ 0 := new_command CommandGroup ]} CommandContext_new)
  = (Ok empty_schema,
     mkState {[ 0 := new_command CommandGroup ]} CommandContext_new).
Proof.
  apply (apply_without_subcommands 0 empty_schema
           (mkState {[ 0 := new_command CommandGroup ]} CommandContext_new)
           (new_command CommandGroup)); reflexivity.
Defined.
